(** * LuaCSS compiler (src/lcss/lcss.js): shallow embedding and properties

    The compiler is a pipeline [tokenize] -> [Parser] -> [collectChildren]
    -> [emit], driven by [compileLuaCSS].  JavaScript strings are modelled
    as [string]; every [ascii] stands for one code unit in the range
    0..255.  Numbers are IEEE 754 binary64 values.  Loops and recursive
    descent run on fuel, and a run ends in a value, in a thrown TypeError
    or out of fuel; the properties show that fuel linear in the input
    always yields a value.  The loader overlay and the [window]
    bookkeeping of [compileLuaCSS] touch the host page only and are left
    out. *)

From Stdlib Require Import String Ascii List Bool Arith ZArith Lia.
From Stdlib Require Import DecimalString.
From Stdlib Require Import SpecFloat QArith Qround.

Set Warnings "-register-all".
Import ListNotations.

Close Scope Q_scope.
Open Scope string_scope.
Open Scope list_scope.
Open Scope nat_scope.

(** String concatenation, the [+] of JavaScript on strings. *)
Infix "+++" := String.append (right associativity, at level 60).

(** ** String helpers standing for the JavaScript string methods used *)

Module JSString.

Definition code (c : ascii) : nat := nat_of_ascii c.

Definition between (lo hi : nat) (c : ascii) : bool :=
  (lo <=? code c) && (code c <=? hi).

Definition isDigit (c : ascii) : bool := between 48 57 c.
Definition isLower (c : ascii) : bool := between 97 122 c.
Definition isUpper (c : ascii) : bool := between 65 90 c.
Definition isAlpha (c : ascii) : bool := isLower c || isUpper c.

(** [/\s/] restricted to code units below 256: TAB, LF, VT, FF, CR,
    space and the no-break space. *)
Definition isSpace (c : ascii) : bool :=
  between 9 13 c || (code c =? 32) || (code c =? 160).

(** [/[0-9a-fA-F]/] *)
Definition isHexDigit (c : ascii) : bool :=
  isDigit c || between 97 102 c || between 65 70 c.

(** [/[0-9.]/] *)
Definition isNumChar (c : ascii) : bool := isDigit c || Ascii.eqb c ".".

(** [/[a-zA-Z%]/] *)
Definition isUnitChar (c : ascii) : bool := isAlpha c || Ascii.eqb c "%".

(** [/[a-zA-Z_]/] *)
Definition isIdentStart (c : ascii) : bool := isAlpha c || Ascii.eqb c "_".

(** [/[a-zA-Z0-9_-]/] *)
Definition isIdentChar (c : ascii) : bool :=
  isAlpha c || isDigit c || Ascii.eqb c "_" || Ascii.eqb c "-".

(** [while (i < src.length && p(src[i])) i++]: the scanned run and what
    is left of the input. *)
Fixpoint span (p : ascii -> bool) (s : string) : string * string :=
  match s with
  | EmptyString => ("", "")
  | String c s' =>
      if p c then let (a, b) := span p s' in (String c a, b)
      else ("", s)
  end.

(** Whether every character of [s] is in the class [p]. *)
Fixpoint allChars (p : ascii -> bool) (s : string) : bool :=
  match s with
  | EmptyString => true
  | String c s' => p c && allChars p s'
  end.

(** [s.includes(c)] for a one-character needle. *)
Fixpoint includes (c : ascii) (s : string) : bool :=
  match s with
  | EmptyString => false
  | String d s' => Ascii.eqb d c || includes c s'
  end.

(** [s.startsWith(c)] for a one-character needle. *)
Definition startsWith (c : ascii) (s : string) : bool :=
  match s with
  | String d _ => Ascii.eqb d c
  | EmptyString => false
  end.

Fixpoint last_is (c : ascii) (s : string) : bool :=
  match s with
  | EmptyString => false
  | String d EmptyString => Ascii.eqb d c
  | String _ s' => last_is c s'
  end.

(** [s.endsWith(c)] for a one-character needle. *)
Definition endsWith (c : ascii) (s : string) : bool := last_is c s.

(** [s.slice(n)] for [n >= 0]. *)
Fixpoint drop (n : nat) (s : string) : string :=
  match n, s with
  | O, _ => s
  | S n', String _ s' => drop n' s'
  | S _, EmptyString => ""
  end.

(** [s.slice(0, n)] for [n >= 0]. *)
Fixpoint take (n : nat) (s : string) : string :=
  match n, s with
  | O, _ => ""
  | S n', String c s' => String c (take n' s')
  | S _, EmptyString => ""
  end.

Fixpoint repeat_char (c : ascii) (n : nat) : string :=
  match n with
  | O => ""
  | S n' => String c (repeat_char c n')
  end.

(** [s.padStart(n, c)] for a one-character filler. *)
Definition padStart (n : nat) (c : ascii) (s : string) : string :=
  repeat_char c (n - String.length s) +++ s.

Fixpoint trimStart (s : string) : string :=
  match s with
  | EmptyString => ""
  | String c s' => if isSpace c then trimStart s' else s
  end.

Fixpoint trimEnd (s : string) : string :=
  match s with
  | EmptyString => ""
  | String c s' =>
      match trimEnd s' with
      | EmptyString => if isSpace c then "" else String c ""
      | r => String c r
      end
  end.

(** [s.trim()] *)
Definition trim (s : string) : string := trimEnd (trimStart s).

(** [xs.join(sep)] on an array of strings. *)
Fixpoint join (sep : string) (xs : list string) : string :=
  match xs with
  | [] => ""
  | [x] => x
  | x :: rest => x +++ sep +++ join sep rest
  end.

(** Every occurrence of the character [c] in [s] replaced by the text
    [r], taken as it is. *)
Fixpoint replaceAllChar (c : ascii) (r : string) (s : string) : string :=
  match s with
  | EmptyString => ""
  | String d s' =>
      if Ascii.eqb d c then r +++ replaceAllChar c r s'
      else String d (replaceAllChar c r s')
  end.

(** Decimal rendering of a non-negative integer, as template literals
    and string concatenation render an array index. *)
Definition decimal (n : nat) : string :=
  NilZero.string_of_uint (Nat.to_uint n).

End JSString.
Import JSString.

(** ** JavaScript numbers

    A Number is an IEEE 754 binary64 value, here a [spec_float] of the
    standard library at precision 53.  Only the operations the compiler
    applies to colour arguments are modelled: [Number(text)] and unary
    plus (StringToNumber), multiplication, [Math.round], truthiness and
    the conversion of a Number to a string. *)

Module JSNumber.

Local Open Scope Z_scope.

Definition number := spec_float.

Definition prec : Z := 53.
Definition emax : Z := 1024.

Definition NaN : number := S754_nan.
Definition pzero : number := S754_zero false.

(** The decimal digits of a non-negative integer. *)
Definition decZ (z : Z) : string :=
  NilZero.string_of_uint (N.to_uint (Z.to_N z)).

(** The Number nearest to an integer (ties to even). *)
Definition ofZ (z : Z) : number := binary_normalize prec emax z 0 false.

(** The Number nearest to [(-1)^neg * m * 10^e] for a digit string
    value [m >= 0].  A quotient by a power of ten keeps a sticky low bit
    below more than 54 significant bits, so that rounding it rounds the
    exact value.  Magnitudes beyond the range of binary64 are settled
    without computing the power. *)
Definition ofDecimal (neg : bool) (m e : Z) : number :=
  if m =? 0 then S754_zero neg
  else
    let nd := Z.of_nat (String.length (decZ m)) in
    if 310 <=? nd + e then S754_infinity neg
    else if nd + e <=? -330 then S754_zero neg
    else
      let sm := if neg then - m else m in
      if 0 <=? e then binary_normalize prec emax (sm * 10 ^ e) 0 neg
      else
        let d := 10 ^ (- e) in
        let sh := Z.max 0 (64 + Z.log2 d - Z.log2 m) in
        let q := (m * 2 ^ sh) / d in
        let r := (m * 2 ^ sh) mod d in
        let m' := 2 * q + (if r =? 0 then 0 else 1) in
        binary_normalize prec emax (if neg then - m' else m') (- sh - 1) neg.

Definition digitValue (c : ascii) : Z :=
  let n := Z.of_nat (code c) in
  if isDigit c then n - 48
  else if between 97 102 c then n - 87
  else if between 65 70 c then n - 55
  else 0.

Fixpoint digitsToZ (base : Z) (acc : Z) (s : string) : Z :=
  match s with
  | EmptyString => acc
  | String c s' => digitsToZ base (acc * base + digitValue c) s'
  end.

(** NonDecimalIntegerLiteral: [0x], [0o] and [0b] forms, unsigned. *)
Definition nonDecimal (s : string) : option Z :=
  match s with
  | String "0" (String p digits) =>
      let lit (ok : ascii -> bool) (base : Z) :=
        if negb (String.eqb digits "") && allChars ok digits
        then Some (digitsToZ base 0 digits) else None in
      if Ascii.eqb p "x" || Ascii.eqb p "X" then lit isHexDigit 16
      else if Ascii.eqb p "o" || Ascii.eqb p "O" then lit (between 48 55) 8
      else if Ascii.eqb p "b" || Ascii.eqb p "B" then lit (between 48 49) 2
      else None
  | _ => None
  end.

(** ExponentPart, read after the digits: the exponent when the rest of
    the literal is empty or a well-formed exponent. *)
Definition exponentPart (s : string) : option Z :=
  match s with
  | EmptyString => Some 0
  | String c r =>
      if Ascii.eqb c "e" || Ascii.eqb c "E" then
        let (neg, ds) :=
          match r with
          | String "-" r' => (true, r')
          | String "+" r' => (false, r')
          | _ => (false, r)
          end in
        if negb (String.eqb ds "") && allChars isDigit ds
        then Some (if neg then - digitsToZ 10 0 ds else digitsToZ 10 0 ds)
        else None
      else None
  end.

(** StrUnsignedDecimalLiteral other than [Infinity]: the digits as an
    integer and the power of ten that scales it. *)
Definition decimalLiteral (s : string) : option (Z * Z) :=
  let (ip, r1) := span isDigit s in
  let '(fp, r2) :=
    match r1 with
    | String "." r => span isDigit r
    | _ => ("", r1)
    end in
  if String.eqb ip "" && String.eqb fp "" then None
  else
    match exponentPart r2 with
    | Some ex =>
        Some (digitsToZ 10 0 (ip +++ fp), ex - Z.of_nat (String.length fp))
    | None => None
    end.

(** StringToNumber: what [Number(s)] and [+s] return on a string. *)
Definition StringToNumber (s0 : string) : number :=
  let s := trim s0 in
  if String.eqb s "" then pzero
  else
    match nonDecimal s with
    | Some z => ofZ z
    | None =>
        let (neg, body) :=
          match s with
          | String "-" r => (true, r)
          | String "+" r => (false, r)
          | _ => (false, s)
          end in
        if String.eqb body "Infinity" then S754_infinity neg
        else
          match decimalLiteral body with
          | Some (m, e) => ofDecimal neg m e
          | None => NaN
          end
    end.

(** ToBoolean on a Number: NaN and both zeros are falsy. *)
Definition truthy (x : number) : bool :=
  match x with
  | S754_nan | S754_zero _ => false
  | _ => true
  end.

Definition mul (x y : number) : number := SFmul prec emax x y.

(** [Math.round]: the nearest integer, halves towards plus infinity;
    a result of zero keeps the sign of a negative argument. *)
Definition Math_round (x : number) : number :=
  match x with
  | S754_finite neg m e =>
      if 0 <=? e then x
      else
        let sm := if neg then Z.neg m else Z.pos m in
        let r := (2 * sm + 2 ^ (- e)) / 2 ^ (- e + 1) in
        if r =? 0 then S754_zero neg else ofZ r
  | _ => x
  end.

(** The least [j] with [a * 10^j >= b], searched upwards from [j]. *)
Fixpoint scaleUp (fuel : nat) (a b : Z) (j : Z) : Z :=
  match fuel with
  | O => j
  | S f => if b <=? a then j else scaleUp f (a * 10) b (j + 1)
  end.

(** The decimal position [n] of a positive rational [a / b]:
    [10^(n-1) <= a/b < 10^n].  The least positive binary64 value is
    above [10^-324], so 400 steps of [scaleUp] reach every value. *)
Definition decimalPosition (a b : Z) : Z :=
  if b <=? a then Z.of_nat (String.length (decZ (a / b)))
  else 1 - scaleUp 400 a b 0.

(** [floor (a/b / 10^p)] *)
Definition scaled (a b p : Z) : Z :=
  if 0 <=? p then a / (b * 10 ^ p) else (a * 10 ^ (- p)) / b.

(** Whether [lo * 10^p] is at least as near to [a/b] as [(lo+1) * 10^p],
    an even [lo] winning a tie. *)
Definition lowerIsNearer (a b lo p : Z) : bool :=
  let num x := if 0 <=? p then x * 10 ^ p * b else x * b in
  let den := if 0 <=? p then b else b * 10 ^ (- p) in
  let av := if 0 <=? p then a else a * 10 ^ (- p) in
  let dlo := av - num lo in
  let dhi := num (lo + 1) - av in
  (dlo <? dhi) || ((dlo =? dhi) && Z.even lo && (0 <? den)).

(** The shortest digit string that converts back to the positive Number
    [x] of exact value [a/b], with the power-of-ten exponent of its last
    digit; [k] runs over the candidate lengths, and 17 digits tell any
    two binary64 values apart. *)
Fixpoint shortest (fuel : nat) (x : number) (a b n k : Z) : Z * Z :=
  let p := n - k in
  let lo := scaled a b p in
  match fuel with
  | O => (lo, p)
  | S f =>
      let okLo := (0 <? lo) && SFeqb (ofDecimal false lo p) x in
      let okHi := SFeqb (ofDecimal false (lo + 1) p) x in
      if okLo && okHi then
        (if lowerIsNearer a b lo p then lo else lo + 1, p)
      else if okLo then (lo, p)
      else if okHi then (lo + 1, p)
      else shortest f x a b n (k + 1)
  end.

Fixpoint stripZeros (fuel : nat) (s p : Z) : Z * Z :=
  match fuel with
  | O => (s, p)
  | S f => if (s mod 10 =? 0) && negb (s =? 0)
           then stripZeros f (s / 10) (p + 1)
           else (s, p)
  end.

Definition zeros (n : Z) : string := repeat_char "0" (Z.to_nat n).

(** Number::toString in radix 10 for a positive finite value
    [m * 2^e]. *)
Definition positiveToString (m : positive) (e : Z) : string :=
  let a := if 0 <=? e then Z.pos m * 2 ^ e else Z.pos m in
  let b := if 0 <=? e then 1 else 2 ^ (- e) in
  let n0 := decimalPosition a b in
  let (s0, p0) := shortest 17 (S754_finite false m e) a b n0 1 in
  let (s, p) := stripZeros 400 s0 p0 in
  let ds := decZ s in
  let k := Z.of_nat (String.length ds) in
  let n := p + k in
  if (k <=? n) && (n <=? 21) then ds +++ zeros (n - k)
  else if (0 <? n) && (n <=? 21) then
    take (Z.to_nat n) ds +++ "." +++ drop (Z.to_nat n) ds
  else if (-6 <? n) && (n <=? 0) then "0." +++ zeros (- n) +++ ds
  else
    let ex := n - 1 in
    let es := (if ex <? 0 then "-" else "+") +++ decZ (Z.abs ex) in
    if k =? 1 then ds +++ "e" +++ es
    else take 1 ds +++ "." +++ drop 1 ds +++ "e" +++ es.

(** Number::toString in radix 10. *)
Definition toString (x : number) : string :=
  match x with
  | S754_nan => "NaN"
  | S754_zero _ => "0"
  | S754_infinity neg => if neg then "-Infinity" else "Infinity"
  | S754_finite neg m e =>
      (if neg then "-" else "") +++ positiveToString m e
  end.

End JSNumber.

(** ** Tokenizer *)

Inductive TOKEN := COMMENT | STRING | HEX | NUMBER | IDENT | PUNCT | WS.

Definition TOKEN_eqb (a b : TOKEN) : bool :=
  match a, b with
  | COMMENT, COMMENT | STRING, STRING | HEX, HEX | NUMBER, NUMBER
  | IDENT, IDENT | PUNCT, PUNCT | WS, WS => true
  | _, _ => false
  end.

(** A token object [{ t, v, unit }]; [unit] is set on number tokens only. *)
Record token := mkToken { t : TOKEN; v : string; unit : option string }.

Definition tok (k : TOKEN) (s : string) : token := mkToken k s None.

(** The body of a quoted string, entered just after the opening quote
    [q]: the value [v] built by the loop and what is left after the
    closing quote.  A backslash that ends the input makes [src[i]]
    undefined, and [v += undefined] appends the text "undefined". *)
Fixpoint scanString (q : ascii) (s : string) : string * string :=
  match s with
  | EmptyString => ("", "")
  | String c s' =>
      if Ascii.eqb c q then ("", s')
      else if Ascii.eqb c "\" then
        match s' with
        | EmptyString => ("undefined", "")
        | String d s'' =>
            let (w, r) := scanString q s'' in (String d w, r)
        end
      else let (w, r) := scanString q s' in (String c w, r)
  end.

(** [ch(n)]: the character [n] places after the cursor, if any. *)
Definition ch (n : nat) (s : string) : option ascii := String.get n s.

Definition chIs (n : nat) (s : string) (p : ascii -> bool) : bool :=
  match ch n s with
  | Some c => p c
  | None => false
  end.

Definition chEq (n : nat) (s : string) (c : ascii) : bool :=
  chIs n s (fun d => Ascii.eqb d c).

(** The test that opens the number branch of the tokenizer. *)
Definition startsNumber (s : string) : bool :=
  chIs 0 s isDigit
  || (chEq 0 s "." && chIs 1 s isDigit)
  || ((chEq 0 s "-" || chEq 0 s "+")
      && (chIs 1 s isDigit || (chEq 1 s "." && chIs 2 s isDigit))).

(** One turn of the [while (i < src.length)] loop of [tokenize], with the
    cursor at the head of the non-empty input [String c s']: the token
    pushed and the input left. *)
Definition lexToken (c : ascii) (s' : string) : token * string :=
  let s := String c s' in
  if chEq 0 s "-" && chEq 1 s "-" then
    let (a, r) := span (fun d => negb (Ascii.eqb d "010")) s in
    (tok COMMENT a, r)
  else if isSpace c then
    let (a, r) := span isSpace s in (tok WS a, r)
  else if chEq 0 s "0" && (chEq 1 s "x" || chEq 1 s "X") then
    let (a, r) := span isHexDigit (drop 2 s) in
    (tok HEX (take 2 s +++ a), r)
  else if Ascii.eqb c "034" || Ascii.eqb c "'" then
    let (w, r) := scanString c s' in (tok STRING w, r)
  else if startsNumber s then
    let (sign, s1) :=
      if Ascii.eqb c "-" || Ascii.eqb c "+" then (String c "", s')
      else ("", s) in
    let (digits, s2) := span isNumChar s1 in
    let (u, r) := span isUnitChar s2 in
    (mkToken NUMBER (sign +++ digits) (Some u), r)
  else if isIdentStart c then
    let (a, r) := span isIdentChar s in (tok IDENT a, r)
  else (tok PUNCT (String c ""), s').

(** The loop of [tokenize]; [fuel] bounds the number of turns. *)
Fixpoint tokenize_loop (fuel : nat) (s : string) : option (list token) :=
  match s with
  | EmptyString => Some []
  | String c s' =>
      match fuel with
      | O => None
      | S n =>
          let (tk, r) := lexToken c s' in
          option_map (cons tk) (tokenize_loop n r)
      end
  end.

Definition tokenize (src : string) : option (list token) :=
  tokenize_loop (String.length src) src.

(** ** Selector resolver *)

(** [PSEUDO_CLASS] *)
Definition PSEUDO_CLASS : list string :=
  [ "hover"; "focus"; "active"; "visited"; "disabled"; "checked";
    "placeholder"; "first_child"; "last_child"; "nth_child";
    "first_of_type"; "last_of_type"; "focus_within"; "focus_visible";
    "not"; "root"; "empty"; "link"; "enabled"; "read_only"; "read_write" ].

(** [PSEUDO_ELEMENT] *)
Definition PSEUDO_ELEMENT : list string :=
  [ "before"; "after"; "first_line"; "first_letter"; "selection";
    "placeholder" ].

(** [set.has(name)] *)
Definition has (set : list string) (name : string) : bool :=
  existsb (String.eqb name) set.

(** The own properties of the object literal [PSEUDO_NAME_MAP]. *)
Definition PSEUDO_NAME_MAP : list (string * string) :=
  [ ("first_child", "first-child");
    ("last_child", "last-child");
    ("nth_child", "nth-child");
    ("first_of_type", "first-of-type");
    ("last_of_type", "last-of-type");
    ("focus_within", "focus-within");
    ("focus_visible", "focus-visible");
    ("read_only", "read-only");
    ("read_write", "read-write");
    ("first_line", "first-line");
    ("first_letter", "first-letter") ].

(** What a property read on an object literal can give here: a string of
    its own, or a function or object found on [Object.prototype], kept as
    the text that string concatenation turns it into (for a built-in
    function, the text V8 gives). *)
Inductive jsvalue := VString (s : string) | VObject (shown : string).

Definition nativeFunction (name : string) : string :=
  "function " +++ name +++ "() { [native code] }".

(** The properties an object literal inherits from [Object.prototype]. *)
Definition Object_prototype : list (string * jsvalue) :=
  [ ("constructor", VObject (nativeFunction "Object"));
    ("hasOwnProperty", VObject (nativeFunction "hasOwnProperty"));
    ("isPrototypeOf", VObject (nativeFunction "isPrototypeOf"));
    ("propertyIsEnumerable", VObject (nativeFunction "propertyIsEnumerable"));
    ("toLocaleString", VObject (nativeFunction "toLocaleString"));
    ("toString", VObject (nativeFunction "toString"));
    ("valueOf", VObject (nativeFunction "valueOf"));
    ("__defineGetter__", VObject (nativeFunction "__defineGetter__"));
    ("__defineSetter__", VObject (nativeFunction "__defineSetter__"));
    ("__lookupGetter__", VObject (nativeFunction "__lookupGetter__"));
    ("__lookupSetter__", VObject (nativeFunction "__lookupSetter__"));
    ("__proto__", VObject "[object Object]") ].

Fixpoint assoc {A : Type} (key : string) (l : list (string * A)) : option A :=
  match l with
  | [] => None
  | (k, x) :: l' => if String.eqb k key then Some x else assoc key l'
  end.

(** [PSEUDO_NAME_MAP[name]]: an own property first, then the prototype;
    [None] is [undefined]. *)
Definition PSEUDO_NAME_MAP_get (name : string) : option jsvalue :=
  match assoc name PSEUDO_NAME_MAP with
  | Some s => Some (VString s)
  | None => assoc name Object_prototype
  end.

Definition shown_as (x : jsvalue) : string :=
  match x with
  | VString s => s
  | VObject text => text
  end.

Definition isPseudo (name : string) : bool :=
  has PSEUDO_CLASS name || has PSEUDO_ELEMENT name.

Definition pseudoSelector (parent name : string) : string :=
  let cssName :=
    match PSEUDO_NAME_MAP_get name with
    | Some x => x
    | None => VString name
    end in
  let prefix := if has PSEUDO_ELEMENT name then "::" else ":" in
  parent +++ prefix +++ shown_as cssName.

(** The replacement text of [String.prototype.replace] for one match of a
    pattern without capture groups (GetSubstitution): in the template,
    two dollar signs give one, a dollar sign before an ampersand gives the
    matched text, before a backquote the text in front of the match,
    before a quote the text behind it; any other dollar sign stands for
    itself. *)
Fixpoint GetSubstitution (matched before after : string) (template : string)
  : string :=
  match template with
  | EmptyString => ""
  | String c rest =>
      if Ascii.eqb c "$" then
        match rest with
        | String d rest' =>
            if Ascii.eqb d "$" then
              "$" +++ GetSubstitution matched before after rest'
            else if Ascii.eqb d "&" then
              matched +++ GetSubstitution matched before after rest'
            else if Ascii.eqb d "`" then
              before +++ GetSubstitution matched before after rest'
            else if Ascii.eqb d "'" then
              after +++ GetSubstitution matched before after rest'
            else String c (GetSubstitution matched before after rest)
        | EmptyString => String c ""
        end
      else String c (GetSubstitution matched before after rest)
  end.

(** [s.replace(/c/g, template)] for a one-character pattern; [before] is
    the part of the subject already gone through. *)
Fixpoint replace_from (c : ascii) (template : string) (before s : string)
  : string :=
  match s with
  | EmptyString => ""
  | String d s' =>
      if Ascii.eqb d c then
        GetSubstitution (String c "") before s' template
          +++ replace_from c template (before +++ String d "") s'
      else String d (replace_from c template (before +++ String d "") s')
  end.

Definition replace (c : ascii) (template : string) (s : string) : string :=
  replace_from c template "" s.

(** [key.replace(/_/g, '-')] *)
Definition hyphenate (key : string) : string := replace "_" "-" key.

Definition resolveSelector (parent child : string) : string :=
  if includes "&" child then replace "&" parent child
  else if startsWith ":" child then parent +++ child
  else parent +++ " " +++ child.

(** ** Parser *)

(** How a run of the parser ends: with a value, with a TypeError thrown by
    a property read on [undefined], or out of fuel. *)
Inductive outcome (A : Type) : Type :=
| Ret (a : A)
| Throw
| Timeout.
Arguments Ret {A} a.
Arguments Throw {A}.
Arguments Timeout {A}.

Definition bind {A B : Type} (m : outcome A) (k : A -> outcome B) : outcome B :=
  match m with
  | Ret a => k a
  | Throw => Throw
  | Timeout => Timeout
  end.

Notation "x <- m ;; k" := (bind m (fun x => k))
  (at level 61, m at next level, right associativity).
Notation "' p <- m ;; k" := (bind m (fun x => match x with p => k end))
  (at level 61, p pattern, m at next level, right associativity).

(** The parser object.  [steps] is a ghost counter of the loop turns
    taken so far; the source has no such field. *)
Record Parser := mkParser {
  tokens : list token;
  pos : nat;
  errors : list string;
  steps : nat
}.

Definition peek (n : nat) (P : Parser) : option token :=
  nth_error (tokens P) (pos P + n).

Definition eat (P : Parser) : option token * Parser :=
  (nth_error (tokens P) (pos P),
   mkParser (tokens P) (S (pos P)) (errors P) (steps P)).

Definition eof (P : Parser) : bool := List.length (tokens P) <=? pos P.

Definition tick (P : Parser) : Parser :=
  mkParser (tokens P) (pos P) (errors P) (S (steps P)).

Definition push_error (msg : string) (P : Parser) : Parser :=
  mkParser (tokens P) (pos P) (errors P ++ [msg]) (steps P).

(** [this.peek(n)?.v] *)
Definition peekV (n : nat) (P : Parser) : option string :=
  option_map v (peek n P).

(** [x === s] for [x] a string or [undefined] *)
Definition same (x : option string) (s : string) : bool :=
  match x with
  | Some y => String.eqb y s
  | None => false
  end.

Definition expect (val : string) (P : Parser) : option token * Parser :=
  let got := peekV 0 P in
  if same got val then eat P
  else
    (None,
     push_error
       ("Expected '" +++ val +++ "' but got '"
        +++ match got with Some x => x | None => "EOF" end
        +++ "' (pos " +++ decimal (pos P) +++ ")") P).

Definition quote : string := String "034" "".

Definition tokenToValuePiece (x : option token) : string :=
  match x with
  | None => ""
  | Some tk =>
      match t tk with
      | STRING => quote +++ v tk +++ quote
      | NUMBER => v tk +++ match unit tk with Some u => u | None => "" end
      | HEX => "#" +++ padStart 6 "0" (drop 2 (v tk))
      | _ => v tk
      end
  end.

Record Depth := mkDepth { paren : nat; brack : nat; brace : nat }.

Definition shouldStopValue (depth : Depth) (P : Parser) : bool :=
  match peek 0 P with
  | None => true
  | Some tk =>
      if (paren depth =? 0) && (brack depth =? 0) && (brace depth =? 0) then
        if String.eqb (v tk) "," || String.eqb (v tk) "}"
           || String.eqb (v tk) "end" then true
        else if TOKEN_eqb (t tk) IDENT && same (peekV 1 P) "=" then true
        else false
      else false
  end.

(** An element of the [args] array of [parseColor]. *)
Inductive arg := AString (s : string) | ANumber (x : JSNumber.number).

(** ToString of an element, as [join] and template literals apply it. *)
Definition arg_toString (a : arg) : string :=
  match a with
  | AString s => s
  | ANumber x => JSNumber.toString x
  end.

(** [`${args[i]}`] *)
Definition arg_at (args : list arg) (i : nat) : string :=
  match nth_error args i with
  | Some a => arg_toString a
  | None => "undefined"
  end.

(** [+args[i]] *)
Definition arg_toNumber (args : list arg) (i : nat) : JSNumber.number :=
  match nth_error args i with
  | Some (AString s) => JSNumber.StringToNumber s
  | Some (ANumber x) => x
  | None => JSNumber.NaN
  end.

(** [Math.round((+args[i] || 0) * 255)] *)
Definition channel (args : list arg) (i : nat) : JSNumber.number :=
  let x := arg_toNumber args i in
  JSNumber.Math_round
    (JSNumber.mul (if JSNumber.truthy x then x else JSNumber.ofZ 0)
                  (JSNumber.ofZ 255)).

(** The [switch (fn)] of [parseColor]. *)
Definition colorValue (fn : string) (args : list arg) (P : Parser)
  : string * Parser :=
  if String.eqb fn "hex" then
    let raw := match nth_error args 0 with
               | Some a => arg_toString a
               | None => "000000"
               end in
    (if startsWith "#" raw then raw else "#" +++ raw, P)
  else if String.eqb fn "rgb" then
    ("rgb(" +++ join ", " (map arg_toString (firstn 3 args)) +++ ")", P)
  else if String.eqb fn "rgba" then
    ("rgba(" +++ join ", " (map arg_toString (firstn 4 args)) +++ ")", P)
  else if String.eqb fn "hsl" then
    ("hsl(" +++ arg_at args 0 +++ ", " +++ arg_at args 1 +++ "%, "
     +++ arg_at args 2 +++ "%)", P)
  else if String.eqb fn "hsla" then
    ("hsla(" +++ arg_at args 0 +++ ", " +++ arg_at args 1 +++ "%, "
     +++ arg_at args 2 +++ "%, " +++ arg_at args 3 +++ ")", P)
  else if String.eqb fn "color3" then
    ("rgb(" +++ JSNumber.toString (channel args 0) +++ ", "
     +++ JSNumber.toString (channel args 1) +++ ", "
     +++ JSNumber.toString (channel args 2) +++ ")", P)
  else
    ("#000000", push_error ("Unknown color function: color." +++ fn) P).

(** The argument loop of [parseColor]. *)
Fixpoint parseColor_args (fuel : nat) (args : list arg) (P : Parser)
  : outcome (list arg * Parser) :=
  match fuel with
  | O => Timeout
  | S n =>
      if eof P || same (peekV 0 P) ")" then Ret (args, P)
      else
        let (x, P1) := eat (tick P) in
        match x with
        | None => Throw
        | Some tk =>
            if String.eqb (v tk) "," then parseColor_args n args P1
            else
              match t tk with
              | NUMBER =>
                  parseColor_args n
                    (args ++ [ANumber (JSNumber.StringToNumber (v tk))]) P1
              | _ => parseColor_args n (args ++ [AString (v tk)]) P1
              end
        end
  end.

Definition parseColor (fuel : nat) (P : Parser) : outcome (string * Parser) :=
  let (_, P1) := eat P in
  let (_, P2) := expect "." P1 in
  let (x, P3) := eat P2 in
  let fn := match x with Some tk => v tk | None => "" end in
  let (_, P4) := expect "(" P3 in
  '(args, P5) <- parseColor_args fuel [] P4 ;;
  let (_, P6) := expect ")" P5 in
  Ret (colorValue fn args P6).

Definition wordLike (tk : token) : bool :=
  match t tk with
  | IDENT | NUMBER | STRING | HEX => true
  | _ => false
  end.

Definition bump (x : string) (depth : Depth) : Depth :=
  if String.eqb x "(" then mkDepth (S (paren depth)) (brack depth) (brace depth)
  else if String.eqb x ")" then
    mkDepth (Nat.max 0 (paren depth - 1)) (brack depth) (brace depth)
  else if String.eqb x "[" then
    mkDepth (paren depth) (S (brack depth)) (brace depth)
  else if String.eqb x "]" then
    mkDepth (paren depth) (Nat.max 0 (brack depth - 1)) (brace depth)
  else if String.eqb x "{" then
    mkDepth (paren depth) (brack depth) (S (brace depth))
  else if String.eqb x "}" then
    mkDepth (paren depth) (brack depth) (Nat.max 0 (brace depth - 1))
  else depth.

(** The text appended to [val] by one turn of the loop of [parseValue],
    on the current token [n], the token before it and the one after. *)
Definition appendPiece (val : string) (prev : option token) (n : token)
    (next : option token) : string :=
  let piece := tokenToValuePiece (Some n) in
  let prevPiece := match prev with
                   | Some _ => tokenToValuePiece prev
                   | None => ""
                   end in
  let nextIsWordLike := wordLike n in
  let prevIsWordLike := match prev with
                        | Some p => wordLike p
                        | None => false
                        end in
  let nextTokenIsWordLike := match next with
                             | Some x => wordLike x
                             | None => false
                             end in
  let prevCanMath :=
    match prev with
    | Some _ => prevIsWordLike || String.eqb prevPiece ")"
                || String.eqb prevPiece "]"
    | None => false
    end in
  let nextCanMath :=
    match next with
    | Some x => nextTokenIsWordLike || String.eqb (v x) "("
    | None => false
    end in
  let isMathOperator :=
    (String.eqb piece "+" || String.eqb piece "-")
    && prevCanMath && nextCanMath in
  let needsSpace :=
    match prev with
    | Some _ => (prevIsWordLike && nextIsWordLike)
                || (String.eqb prevPiece ")" && nextIsWordLike)
    | None => false
    end in
  if isMathOperator then
    let val1 := if negb (String.eqb val "") && negb (endsWith " " val)
                then val +++ " " else val in
    let val2 := val1 +++ piece in
    match next with
    | Some x =>
        if negb (String.eqb (v x) ")") && negb (String.eqb (v x) ",")
           && negb (String.eqb (v x) "}") && negb (String.eqb (v x) "end")
        then val2 +++ " " else val2
    | None => val2
    end
  else
    (if needsSpace then val +++ " " else val) +++ piece.

(** The loop of [parseValue]. *)
Fixpoint parseValue_loop (fuel : nat) (depth : Depth) (val : string)
    (prev : option token) (P : Parser) : outcome (string * Parser) :=
  match fuel with
  | O => Timeout
  | S f =>
      if eof P || shouldStopValue depth P then Ret (val, P)
      else
        let P0 := tick P in
        match peek 0 P0 with
        | None => Throw
        | Some n =>
            let val' := appendPiece val prev n (peek 1 P0) in
            let depth' := bump (v n) depth in
            let (prev', P1) := eat P0 in
            parseValue_loop f depth' val' prev' P1
        end
  end.

Definition parseValue (fuel : nat) (P : Parser) : outcome (string * Parser) :=
  match peek 0 P with
  | None => Ret ("", P)
  | Some tk =>
      if TOKEN_eqb (t tk) IDENT && String.eqb (v tk) "color"
         && same (peekV 1 P) "." then parseColor fuel P
      else if TOKEN_eqb (t tk) IDENT
              && (same (peekV 1 P) "=" || same (peekV 1 P) "{")
      then Ret ("", P)
      else if TOKEN_eqb (t tk) IDENT
              && (String.eqb (v tk) "end" || String.eqb (v tk) "function")
      then Ret ("", P)
      else
        '(val, P1) <- parseValue_loop fuel (mkDepth 0 0 0) "" None P ;;
        Ret (trim val, P1)
  end.

(** A declaration [{ prop, value }]. *)
Record Decl := mkDecl { prop : string; value : string }.

(** [if (this.peek()?.v === ',') this.eat()] *)
Definition eatComma (P : Parser) : Parser :=
  if same (peekV 0 P) "," then snd (eat P) else P.

(** [if (value !== '') props.push({ prop: key.replace(/_/g, '-'), value })] *)
Definition pushDecl (key val : string) (props : list Decl) : list Decl :=
  if String.eqb val "" then props else props ++ [mkDecl (hyphenate key) val].

(** The loop of [parseFunctionBlock]. *)
Fixpoint parseFunctionBlock_loop (fuel : nat) (props : list Decl) (P : Parser)
  : outcome (list Decl * Parser) :=
  match fuel with
  | O => Timeout
  | S f =>
      if eof P || same (peekV 0 P) "end" then Ret (props, P)
      else
        let P0 := tick P in
        match peek 0 P0 with
        | None => Ret (props, P0)
        | Some tk =>
            if negb (TOKEN_eqb (t tk) IDENT) then
              parseFunctionBlock_loop f props (snd (eat P0))
            else
              let (x, P1) := eat P0 in
              match x with
              | None => Throw
              | Some k =>
                  let key := v k in
                  if negb (same (peekV 0 P1) "=") then
                    parseFunctionBlock_loop f props (eatComma P1)
                  else
                    let P2 := snd (eat P1) in
                    '(val, P3) <- parseValue f P2 ;;
                    parseFunctionBlock_loop f (pushDecl key val props)
                      (eatComma P3)
              end
        end
  end.

Definition parseFunctionBlock (fuel : nat) (P : Parser)
  : outcome (list Decl * Parser) :=
  let (_, P1) := expect "function" P in
  let (_, P2) := expect "(" P1 in
  let (_, P3) := expect ")" P2 in
  '(props, P4) <- parseFunctionBlock_loop fuel [] P3 ;;
  let (_, P5) := expect "end" P4 in
  Ret (props, P5).

(** A rule node [{ selector, props, children }]. *)
Inductive RuleNode :=
| mkNode (selector : string) (props : list Decl) (children : list RuleNode).

(** [let sel = ''; if (this.peek()?.t === TOKEN.STRING) sel = this.eat().v],
    as both [parseBlock] and [parse] read a bracketed selector. *)
Definition eatString (P : Parser) : string * Parser :=
  match peek 0 P with
  | Some s =>
      if TOKEN_eqb (t s) STRING
      then (match fst (eat P) with Some x => v x | None => "" end, snd (eat P))
      else ("", P)
  | None => ("", P)
  end.

(** [parseBlock] and its loop.  [props] and [children] are the two arrays
    the loop fills. *)
Fixpoint parseBlock (fuel : nat) (selectorPath : string) (P : Parser)
  : outcome ((list Decl * list RuleNode) * Parser) :=
  match fuel with
  | O => Timeout
  | S f =>
      let (_, P1) := expect "{" P in
      '(result, P2) <- parseBlock_loop f selectorPath [] [] P1 ;;
      let (_, P3) := expect "}" P2 in
      Ret (result, P3)
  end
with parseBlock_loop (fuel : nat) (selectorPath : string)
    (props : list Decl) (children : list RuleNode) (P : Parser)
  : outcome ((list Decl * list RuleNode) * Parser) :=
  match fuel with
  | O => Timeout
  | S f =>
      if eof P || same (peekV 0 P) "}" then Ret ((props, children), P)
      else
        let P0 := tick P in
        match peek 0 P0 with
        | None => Ret ((props, children), P0)
        | Some tk =>
            if String.eqb (v tk) "[" then
              let P1 := snd (eat P0) in
              let (sel, P2) := eatString P1 in
              let (_, P3) := expect "]" P2 in
              let (_, P4) := expect "=" P3 in
              if same (peekV 0 P4) "{" then
                let childSel := resolveSelector selectorPath sel in
                '(result, P5) <- parseBlock f childSel P4 ;;
                parseBlock_loop f selectorPath props
                  (children ++ [mkNode childSel (fst result) (snd result)])
                  (eatComma P5)
              else parseBlock_loop f selectorPath props children (eatComma P4)
            else if negb (TOKEN_eqb (t tk) IDENT) then
              parseBlock_loop f selectorPath props children (snd (eat P0))
            else
              let (x, P1) := eat P0 in
              match x with
              | None => Throw
              | Some k =>
                  let key := v k in
                  if negb (same (peekV 0 P1) "=") then
                    parseBlock_loop f selectorPath props children (eatComma P1)
                  else
                    let P2 := snd (eat P1) in
                    if isPseudo key && same (peekV 0 P2) "function" then
                      '(fnProps, P3) <- parseFunctionBlock f P2 ;;
                      parseBlock_loop f selectorPath props
                        (children
                           ++ [mkNode (pseudoSelector selectorPath key) fnProps []])
                        (eatComma P3)
                    else if same (peekV 0 P2) "{" then
                      let childSel :=
                        resolveSelector selectorPath (hyphenate key) in
                      '(result, P3) <- parseBlock f childSel P2 ;;
                      parseBlock_loop f selectorPath props
                        (children
                           ++ [mkNode childSel (fst result) (snd result)])
                        (eatComma P3)
                    else
                      '(val, P3) <- parseValue f P2 ;;
                      parseBlock_loop f selectorPath (pushDecl key val props)
                        children (eatComma P3)
              end
        end
  end.

(** ** Rule flattener and emitter *)

(** A flat rule [{ selector, props }]. *)
Record Rule := mkRule { selector : string; props : list Decl }.

Definition nonEmpty {A : Type} (l : list A) : bool :=
  match l with
  | [] => false
  | _ :: _ => true
  end.

(** [if (props.length > 0) rules.push({ selector, props })] *)
Definition pushRule (sel : string) (ps : list Decl) (rules : list Rule)
  : list Rule :=
  if nonEmpty ps then rules ++ [mkRule sel ps] else rules.

(** The body of the [for] loop of [collectChildren] on one child; the
    inner [fix] is the recursive call on [child.children]. *)
Fixpoint collectChild (child : RuleNode) (rules : list Rule) : list Rule :=
  match child with
  | mkNode sel ps cs =>
      let rules1 := pushRule sel ps rules in
      if nonEmpty cs then
        (fix each (l : list RuleNode) (acc : list Rule) : list Rule :=
           match l with
           | [] => acc
           | c :: l' => each l' (collectChild c acc)
           end) cs rules1
      else rules1
  end.

(** [collectChildren(children, rules)]: the array [rules] after the call. *)
Fixpoint collectChildren (children : list RuleNode) (rules : list Rule)
  : list Rule :=
  match children with
  | [] => rules
  | c :: l => collectChildren l (collectChild c rules)
  end.

(** The loop of [Parser.parse]. *)
Fixpoint parse_loop (fuel : nat) (rules : list Rule) (P : Parser)
  : outcome (list Rule * Parser) :=
  match fuel with
  | O => Timeout
  | S f =>
      if eof P then Ret (rules, P)
      else
        let P0 := tick P in
        match peek 0 P0 with
        | None => Ret (rules, P0)
        | Some tk =>
            let after (sel : string) (P1 : Parser) :=
              if negb (same (peekV 0 P1) "=") then parse_loop f rules P1
              else
                let P2 := snd (eat P1) in
                if negb (same (peekV 0 P2) "{") then parse_loop f rules P2
                else
                  '(result, P3) <- parseBlock f sel P2 ;;
                  parse_loop f
                    (collectChildren (snd result)
                       (pushRule sel (fst result) rules)) P3 in
            if TOKEN_eqb (t tk) IDENT then
              let (x, P1) := eat P0 in
              match x with
              | None => Throw
              | Some k => after (v k) P1
              end
            else if String.eqb (v tk) "[" then
              let P1 := snd (eat P0) in
              let (sel, P2) := eatString P1 in
              let (_, P3) := expect "]" P2 in
              after sel P3
            else parse_loop f rules (snd (eat P0))
        end
  end.

(** [new Parser(src)] on the token array already computed. *)
Definition newParser (toks : list token) : Parser :=
  mkParser
    (filter (fun x => negb (TOKEN_eqb (t x) WS)
                      && negb (TOKEN_eqb (t x) COMMENT)) toks)
    0 [] 0.

(** Fuel that covers any run of the parser on its token array. *)
Definition fuelFor (P : Parser) : nat := 2 * List.length (tokens P) + 4.

(** [new Parser(src).parse()], with the parser object at the end. *)
Definition parse (src : string) : outcome (list Rule * Parser) :=
  match tokenize src with
  | None => Timeout
  | Some toks =>
      let P := newParser toks in
      parse_loop (fuelFor P) [] P
  end.

Definition emitRule (rule : Rule) : string :=
  let decls :=
    join (String "010" "")
      (map (fun d => "  " +++ prop d +++ ": " +++ value d +++ ";")
           (props rule)) in
  selector rule +++ " {" +++ String "010" "" +++ decls
    +++ String "010" "" +++ "}".

Definition emit (rules : list Rule) : string :=
  join (String "010" (String "010" "")) (map emitRule rules).

(** ** Public entry point *)

(** The object [{ css, errors }] returned by [compileLuaCSS]; [None] in
    [css] is [null]. *)
Record Compiled := mkCompiled { css : option string; errors_of : list string }.

Definition compileLuaCSS (src : string) : outcome Compiled :=
  '(rules, parser) <- parse src ;;
  if nonEmpty (errors parser) && negb (nonEmpty rules)
  then Ret (mkCompiled None (errors parser))
  else Ret (mkCompiled (Some (emit rules)) (errors parser)).

(** * Definitions used to state the properties

    Measures on the parser state, the traversal and the renderings that
    the specification describes, and the exact value of a Number. *)

Import JSNumber.

(** Tokens that a parser has gone past, and tokens still ahead. *)
Definition consumed (P : Parser) : nat :=
  Nat.min (pos P) (List.length (tokens P)).

Definition remaining (P : Parser) : nat := List.length (tokens P) - pos P.

(** [P'] is a later state of [P]: same token array, a position that did
    not move back, and no more loop turns than tokens gone past. *)
Record advances (P P' : Parser) : Prop := mkAdvances {
  adv_tokens : tokens P' = tokens P;
  adv_pos : pos P <= pos P';
  adv_steps : steps P' + consumed P <= steps P + consumed P'
}.

(** A run that returns, in a later state. *)
Definition ok {A : Type} (P : Parser) (m : outcome (A * Parser)) : Prop :=
  exists a P', m = Ret (a, P') /\ advances P P'.

(** Induction on rule nodes that reaches the children. *)
Definition RuleNode_rect' (Q : RuleNode -> Prop)
    (step : forall sel ps cs, Forall Q cs -> Q (mkNode sel ps cs))
  : forall n, Q n :=
  fix F (n : RuleNode) : Q n :=
    match n with
    | mkNode sel ps cs =>
        step sel ps cs
          ((fix G (l : list RuleNode) : Forall Q l :=
              match l with
              | [] => Forall_nil Q
              | c :: l' => Forall_cons c (F c) (G l')
              end) cs)
    end.

(** The nodes of a tree in depth-first pre-order: the node, then the
    nodes of each child tree, children from left to right. *)
Fixpoint preorder (n : RuleNode) : list RuleNode :=
  match n with
  | mkNode _ _ cs =>
      n :: (fix walk (l : list RuleNode) : list RuleNode :=
              match l with
              | [] => []
              | c :: l' => preorder c ++ walk l'
              end) cs
  end.

Definition preorder_forest (l : list RuleNode) : list RuleNode :=
  flat_map preorder l.

Definition hasDeclarations (n : RuleNode) : bool :=
  match n with mkNode _ ps _ => nonEmpty ps end.

Definition flatRule (n : RuleNode) : Rule :=
  match n with mkNode sel ps _ => mkRule sel ps end.

(** What the flattening should give, in the words of the specification:
    the nodes in pre-order, those with declarations only, as flat
    rules. *)
Definition flatten (l : list RuleNode) : list Rule :=
  map flatRule (filter hasDeclarations (preorder_forest l)).

(** A flat rule that holds a declaration. *)
Definition hasProps (r : Rule) : Prop := props r <> [].

(** The resolution as the specification states it: the ampersand stands
    for the parent, wherever it occurs. *)
Definition resolveSelector_spec (parent child : string) : string :=
  if includes "&" child then replaceAllChar "&" parent child
  else if startsWith ":" child then parent +++ child
  else parent +++ " " +++ child.

(** The pseudo selector as the specification states it: the entry of
    the name map when the key has one, the key itself otherwise. *)
Definition pseudoSelector_spec (parent key : string) : string :=
  parent
    +++ (if has PSEUDO_ELEMENT key then "::" else ":")
    +++ match assoc key PSEUDO_NAME_MAP with
        | Some cssName => cssName
        | None => key
        end.

(** [s.toLowerCase()] on letters A to Z. *)
Definition lowerChar (c : ascii) : ascii :=
  if isUpper c then ascii_of_nat (code c + 32) else c.

Fixpoint toLowerCase (s : string) : string :=
  match s with
  | EmptyString => ""
  | String c s' => String (lowerChar c) (toLowerCase s')
  end.

(** The rendering of the digits of a hex literal as the specification
    states it: lower-cased, then padded. *)
Definition hexRendering_spec (digits : string) : string :=
  "#" +++ padStart 6 "0" (toLowerCase digits).

(** Whether a string holds no white space. *)
Definition noSpace (s : string) : bool :=
  allChars (fun c => negb (isSpace c)) s.

(** The names that the [switch] of [parseColor] knows. *)
Definition knownColorFunction (fn : string) : bool :=
  existsb (String.eqb fn) ["hex"; "rgb"; "rgba"; "hsl"; "hsla"; "color3"].

(** A parser standing [k] tokens into [l], after the tokens [pre]. *)
Definition at_ (pre l : list token) (k : nat) (errs : list string)
    (n : nat) : Parser :=
  mkParser (pre ++ l) (k + List.length pre) errs n.

(** The arguments pushed by the loop of [parseColor] on a run of tokens. *)
Definition argsOf (l : list token) : list arg :=
  flat_map
    (fun tk =>
       if String.eqb (v tk) "," then []
       else match t tk with
            | NUMBER => [ANumber (JSNumber.StringToNumber (v tk))]
            | _ => [AString (v tk)]
            end) l.

(** The exact value of a finite Number, as a fraction. *)
Definition valueQ (x : number) : Q :=
  match x with
  | S754_finite s m e =>
      let sm := if s then Z.neg m else Z.pos m in
      if (0 <=? e)%Z then inject_Z (sm * 2 ^ e)%Z
      else Qmake sm (Z.to_pos (2 ^ (- e))%Z)
  | _ => 0%Q
  end.

(** The nearest integer, a half going up. *)
Definition nearestHalfUp (q : Q) : Z := Qfloor (Qplus q (Qmake 1 2)).

(** Whether a Number lies in the interval from 0 to 1. *)
Definition inUnit (x : number) : bool :=
  match x with
  | S754_zero _ => true
  | S754_finite false _ _ => Qle_bool (valueQ x) 1%Q
  | _ => false
  end.

(** A colour channel as the specification states it: the argument times
    255, the product taken in binary64 as the source takes it, rounded to
    the nearest integer with halves up, in decimal. *)
Definition scaled255 (x : number) : string :=
  decZ (nearestHalfUp (valueQ (mul x (ofZ 255%Z)))).

(** ** Definitions used to state further properties *)

(** The source text that a token other than a string keeps: its value,
    and for a number its unit. *)
Definition rawText (tk : token) : string :=
  v tk +++ match unit tk with Some u => u | None => "" end.

(** Whether [s] is empty or opens on a character outside the class [p]. *)
Definition stopsAt (p : ascii -> bool) (s : string) : bool :=
  match s with
  | EmptyString => true
  | String c _ => negb (p c)
  end.

Definition notNewline (c : ascii) : bool := negb (Ascii.eqb c "010").

Definition isQuote (c : ascii) : bool :=
  Ascii.eqb c "034" || Ascii.eqb c "'".

(** The text of a number token: an optional sign, then a non-empty run
    of digits and dots. *)
Definition numberText (s : string) : bool :=
  let body :=
    match s with
    | String c r => if Ascii.eqb c "-" || Ascii.eqb c "+" then r else s
    | EmptyString => s
    end in
  negb (String.eqb body "") && allChars isNumChar body.

(** The shape of a token of each kind, as the tokenizer builds it. *)
Definition wellFormed (tk : token) : bool :=
  match t tk with
  | COMMENT =>
      match v tk, unit tk with
      | String "-" (String "-" r), None => allChars notNewline r
      | _, _ => false
      end
  | WS =>
      match v tk, unit tk with
      | String c r, None => isSpace c && allChars isSpace r
      | _, _ => false
      end
  | HEX =>
      match v tk, unit tk with
      | String "0" (String x ds), None =>
          (Ascii.eqb x "x" || Ascii.eqb x "X") && allChars isHexDigit ds
      | _, _ => false
      end
  | STRING => match unit tk with None => true | Some _ => false end
  | NUMBER =>
      match unit tk with
      | Some u => numberText (v tk) && allChars isUnitChar u
      | None => false
      end
  | IDENT =>
      match v tk, unit tk with
      | String c r, None => isIdentStart c && allChars isIdentChar r
      | _, _ => false
      end
  | PUNCT =>
      match v tk, unit tk with
      | String c EmptyString, None =>
          negb (isSpace c) && negb (isQuote c) && negb (isDigit c)
          && negb (isIdentStart c)
      | _, _ => false
      end
  end.

(** Where a token of each kind ends: a comment at a line end, the other
    runs at the first character outside their class. *)
Definition endsRight (tk : token) (rest : string) : bool :=
  match t tk with
  | COMMENT => stopsAt notNewline rest
  | WS => stopsAt isSpace rest
  | HEX => stopsAt isHexDigit rest
  | NUMBER => stopsAt isUnitChar rest
  | IDENT => stopsAt isIdentChar rest
  | _ => true
  end.

(** A string literal written out: every backslash and every quote of
    the body behind a backslash. *)
Fixpoint escape (s : string) : string :=
  match s with
  | EmptyString => ""
  | String c s' =>
      if Ascii.eqb c "\" || isQuote c
      then String "\" (String c (escape s'))
      else String c (escape s')
  end.

(** The source text kept by a run of tokens. *)
Definition sourceText (toks : list token) : string :=
  fold_right (fun tk acc => rawText tk +++ acc) "" toks.

Definition notString (tk : token) : bool := negb (TOKEN_eqb (t tk) STRING).

(** The declarations of a rule node. *)
Definition nodeProps (n : RuleNode) : list Decl :=
  match n with mkNode _ ps _ => ps end.

(** A token whose value is neither the equals sign nor the opening
    bracket: the two values on which the top-level loop of [parse] does
    more than skip. *)
Definition inert (tk : token) : bool :=
  negb (String.eqb (v tk) "=") && negb (String.eqb (v tk) "[").

(** The values that the parser calls [expect] on. *)
Definition expectable : list string :=
  ["."; "("; ")"; "function"; "end"; "{"; "}"; "]"; "="].

(** The diagnostic that [expect] pushes. *)
Definition expectedMessage (val : string) (got : option string) (n : nat)
  : string :=
  "Expected '" +++ val +++ "' but got '"
  +++ match got with Some x => x | None => "EOF" end
  +++ "' (pos " +++ decimal n +++ ")".

(** One primitive change of the parser object: a token read at or before
    the end of the array, a loop turn counted, a diagnostic pushed. *)
Inductive move : Parser -> Parser -> Prop :=
| move_eat (P : Parser) :
    pos P <= List.length (tokens P) -> move P (snd (eat P))
| move_tick (P : Parser) : move P (tick P)
| move_expected (val : string) (P : Parser) :
    In val expectable ->
    move P (push_error (expectedMessage val (peekV 0 P) (pos P)) P)
| move_unknown (fn : string) (P : Parser) :
    move P (push_error ("Unknown color function: color." +++ fn) P).

Inductive moves : Parser -> Parser -> Prop :=
| moves_refl (P : Parser) : moves P P
| moves_step (P Q R : Parser) : move P Q -> moves Q R -> moves P R.

(** The two forms of a diagnostic on the token array [toks]: a value
    expected at a position, with the value found there, and a colour
    function that is not known. *)
Definition isDiagnostic (toks : list token) (e : string) : Prop :=
  (exists val n,
      In val expectable /\ n <= List.length toks + 1
      /\ e = expectedMessage val (option_map v (nth_error toks n)) n)
  \/ (exists fn, e = "Unknown color function: color." +++ fn).

(** A declaration as the parser pushes it: a value that is not empty
    under a property name without underscore. *)
Definition cleanDecl (d : Decl) : bool :=
  negb (String.eqb (value d) "") && negb (includes "_" (prop d)).

Definition cleanRule (r : Rule) : bool := forallb cleanDecl (props r).

Definition cleanNode (n : RuleNode) : bool := forallb cleanDecl (nodeProps n).

(** The result of a block: its declarations and its forest of children. *)
Definition cleanBlock (r : list Decl * list RuleNode) : bool :=
  forallb cleanDecl (fst r) && forallb cleanNode (preorder_forest (snd r)).

(** The text of one token in a value. *)
Definition piece (tk : token) : string := tokenToValuePiece (Some tk).

(** The values on which [parseValue] does more than append a word. *)
Definition special : list string :=
  [","; "}"; "end"; "="; "{"; "."; "function"; "("; ")"; "["; "]"].

(** A word of a value: an identifier, a number, a string or a hex
    literal that is none of the special values nor a sign. *)
Definition plainWord (tk : token) : bool :=
  wordLike tk
  && negb (existsb (String.eqb (v tk)) special)
  && negb (String.eqb (piece tk) "+")
  && negb (String.eqb (piece tk) "-").

(** A token on which a value ends at depth zero. *)
Definition stopper (tk : token) : bool :=
  existsb (String.eqb (v tk)) [","; "}"; "end"].

(** The text built by the loop of [parseValue] on a run of words, from
    the text [val] built so far; [spaced] tells whether a word came
    before. *)
Fixpoint joinWords (val : string) (spaced : bool) (l : list token) : string :=
  match l with
  | [] => val
  | tk :: r =>
      joinWords ((if spaced then val +++ " " else val) +++ piece tk) true r
  end.

(** The text built by the loop of [parseValue] over the tokens [l], from
    the text [val] and the token [prev] before them; [after] is the token
    behind [l]. *)
Fixpoint valueText (val : string) (prev : option token) (l : list token)
    (after : option token) : string :=
  match l with
  | [] => val
  | n :: r =>
      valueText
        (appendPiece val prev n
           (match r with [] => after | x :: _ => Some x end))
        (Some n) r after
  end.

(** The last token of [l], or [prev] when there is none. *)
Definition lastOr (prev : option token) (l : list token) : option token :=
  fold_left (fun _ x => Some x) l prev.

(** The words [ws] with the token [c] between each two. *)
Fixpoint sepBy (c : token) (ws : list token) : list token :=
  match ws with
  | [] => []
  | [w] => [w]
  | w :: r => w :: c :: sepBy c r
  end.

(** A declaration written as a key, an equals sign and words: the
    declaration that it gives. *)
Definition declOf (d : token * list token) : Decl :=
  mkDecl (hyphenate (v (fst d))) (trim (join " " (map piece (snd d)))).

(** A key of a declaration: an identifier whose value is none of the
    values that the loops of the blocks look for. *)
Definition keyToken (k : token) : bool :=
  TOKEN_eqb (t k) IDENT
  && negb (String.eqb (v k) "[") && negb (String.eqb (v k) "}")
  && negb (String.eqb (v k) "end").

(** A key with a value of one word or more, whose text is not empty. *)
Definition plainDecl (d : token * list token) : bool :=
  keyToken (fst d) && nonEmpty (snd d) && forallb plainWord (snd d)
  && negb (String.eqb (value (declOf d)) "").

(** The tokens of a run of declarations, the token [comma] between each
    two. *)
Fixpoint declTokens (eq comma : token) (ds : list (token * list token))
  : list token :=
  match ds with
  | [] => []
  | [d] => fst d :: eq :: snd d
  | d :: r => fst d :: eq :: snd d ++ comma :: declTokens eq comma r
  end.

(** * Properties *)

(** ** The tokenizer makes progress and ends *)

Lemma span_rest_le (p : ascii -> bool) (s : string) :
  String.length (snd (span p s)) <= String.length s.
Proof.
  induction s as [|c s IH]; simpl; [lia|].
  destruct (p c); simpl; [|lia].
  destruct (span p s); simpl in *; lia.
Qed.

Lemma span_head (p : ascii -> bool) (c : ascii) (s : string) :
  p c = true ->
  String.length (snd (span p (String c s))) <= String.length s.
Proof.
  intros H; simpl; rewrite H.
  pose proof (span_rest_le p s) as L.
  destruct (span p s); simpl in *; lia.
Qed.

Lemma scanString_rest_le (q : ascii) (s : string) :
  String.length (snd (scanString q s)) <= String.length s.
Proof.
  assert (G : forall n s, String.length s <= n ->
              String.length (snd (scanString q s)) <= String.length s).
  { intros n; induction n as [|n IH]; intros [|c u] L; simpl in *; try lia.
    destruct (Ascii.eqb c q); simpl; [lia|].
    destruct (Ascii.eqb c "\").
    - destruct u as [|d w]; simpl; [lia|].
      specialize (IH w ltac:(simpl in L; lia)).
      destruct (scanString q w); simpl in *; lia.
    - specialize (IH u ltac:(lia)).
      destruct (scanString q u); simpl in *; lia. }
  apply (G (String.length s)); lia.
Qed.

Lemma drop_length_le (n : nat) (s : string) :
  String.length (drop n s) <= String.length s.
Proof.
  revert s; induction n as [|n IH]; intros [|c s]; simpl; try lia.
  specialize (IH s); lia.
Qed.

(** Every turn of the tokenizer loop leaves strictly less input. *)
Lemma lexToken_progress (c : ascii) (s' : string) :
  String.length (snd (lexToken c s')) <= String.length s'.
Proof.
  unfold lexToken.
  destruct (chEq 0 (String c s') "-" && chEq 1 (String c s') "-") eqn:Hc.
  { apply andb_true_iff in Hc as [Hc _].
    unfold chEq, chIs, ch in Hc; simpl in Hc.
    apply Ascii.eqb_eq in Hc; subst c.
    pose proof (span_head (fun d => negb (Ascii.eqb d "010")) "-" s' eq_refl).
    destruct (span _ (String "-" s')); simpl in *; lia. }
  destruct (isSpace c) eqn:Hs.
  { pose proof (span_head isSpace c s' Hs).
    destruct (span isSpace (String c s')); simpl in *; lia. }
  destruct (chEq 0 (String c s') "0" && _) eqn:Hx.
  { pose proof (span_rest_le isHexDigit (drop 2 (String c s'))) as L.
    pose proof (drop_length_le 1 s') as D.
    change (drop 2 (String c s')) with (drop 1 s') in *.
    destruct (span isHexDigit (drop 1 s')); simpl in *; lia. }
  destruct (Ascii.eqb c "034" || Ascii.eqb c "'").
  { pose proof (scanString_rest_le c s').
    destruct (scanString c s'); simpl in *; lia. }
  destruct (startsNumber (String c s')) eqn:Hn.
  { destruct (Ascii.eqb c "-" || Ascii.eqb c "+") eqn:Hsign.
    - pose proof (span_rest_le isNumChar s') as A.
      destruct (span isNumChar s') as [dg s2]; simpl in A.
      pose proof (span_rest_le isUnitChar s2) as B.
      destruct (span isUnitChar s2); simpl in *; lia.
    - assert (Hd : isNumChar c = true).
      { unfold startsNumber, chEq, chIs, ch in Hn; simpl in Hn.
        apply orb_false_iff in Hsign as [S1 S2].
        rewrite S1, S2 in Hn; simpl in Hn.
        rewrite orb_false_r in Hn.
        unfold isNumChar.
        destruct (isDigit c); simpl in *; [reflexivity|].
        apply andb_true_iff in Hn as [Hn _]; exact Hn. }
      pose proof (span_head isNumChar c s' Hd) as A.
      destruct (span isNumChar (String c s')) as [dg s2]; simpl in A.
      pose proof (span_rest_le isUnitChar s2) as B.
      destruct (span isUnitChar s2); simpl in *; lia. }
  destruct (isIdentStart c) eqn:Hi.
  { assert (Hd : isIdentChar c = true).
    { unfold isIdentStart in Hi; unfold isIdentChar.
      destruct (isAlpha c); simpl in *; [reflexivity|].
      rewrite Hi; destruct (isDigit c); reflexivity. }
    pose proof (span_head isIdentChar c s' Hd).
    destruct (span isIdentChar (String c s')); simpl in *; lia. }
  simpl; lia.
Qed.

Lemma tokenize_loop_total (fuel : nat) :
  forall s, String.length s <= fuel ->
  exists toks, tokenize_loop fuel s = Some toks
               /\ List.length toks <= String.length s.
Proof.
  induction fuel as [|n IH]; intros [|c s'] L; simpl in *;
    try (exists []; split; [reflexivity|simpl; lia]); try lia.
  pose proof (lexToken_progress c s') as Pg.
  destruct (lexToken c s') as [tk r]; simpl in Pg.
  destruct (IH r ltac:(lia)) as [toks [E Lt]].
  exists (tk :: toks); rewrite E; split; [reflexivity|simpl; lia].
Qed.

(** Extra fuel does not change what the tokenizer loop returns. *)
Lemma tokenize_loop_fuel (f1 : nat) :
  forall f2 s, String.length s <= f1 -> String.length s <= f2 ->
  tokenize_loop f1 s = tokenize_loop f2 s.
Proof.
  induction f1 as [|n IH]; intros [|m] [|c s'] L1 L2; simpl in *;
    try reflexivity; try lia.
  pose proof (lexToken_progress c s') as Pg.
  destruct (lexToken c s') as [tk r]; simpl in Pg.
  rewrite (IH m r); [reflexivity|lia|lia].
Qed.

(** The loop of [tokenize] read without fuel: one token, then the rest. *)
Lemma tokenize_step (c : ascii) (s' : string) :
  tokenize (String c s')
  = option_map (cons (fst (lexToken c s'))) (tokenize (snd (lexToken c s'))).
Proof.
  unfold tokenize; simpl.
  pose proof (lexToken_progress c s') as Pg.
  destruct (lexToken c s') as [tk r]; simpl in *.
  rewrite (tokenize_loop_fuel (String.length s') (String.length r) r);
    [reflexivity|lia|lia].
Qed.

(** ** The parser only moves forward *)

Lemma advances_refl (P : Parser) : advances P P.
Proof. split; [reflexivity|lia|lia]. Qed.

Lemma advances_trans (P Q R : Parser) :
  advances P Q -> advances Q R -> advances P R.
Proof.
  intros [T1 P1 S1] [T2 P2 S2]; split; [congruence|lia|lia].
Qed.

Lemma advances_remaining (P Q : Parser) :
  advances P Q -> remaining Q <= remaining P.
Proof. intros [T1 P1 _]; unfold remaining; rewrite T1; lia. Qed.

Ltac unfold_state :=
  unfold consumed, remaining, eat, tick, push_error, peek;
  cbn [fst snd tokens pos errors steps].

Lemma eat_advances (P : Parser) : advances P (snd (eat P)).
Proof. split; unfold_state; [reflexivity|lia|lia]. Qed.

Lemma push_error_advances (msg : string) (P : Parser) :
  advances P (push_error msg P).
Proof. split; unfold_state; [reflexivity|lia|lia]. Qed.

Lemma expect_advances (val : string) (P : Parser) :
  advances P (snd (expect val P)).
Proof.
  unfold expect; destruct (same (peekV 0 P) val);
    [apply eat_advances|apply push_error_advances].
Qed.

Lemma eatComma_advances (P : Parser) : advances P (eatComma P).
Proof.
  unfold eatComma; destruct (same (peekV 0 P) ",");
    [apply eat_advances|apply advances_refl].
Qed.

Lemma eof_false (P : Parser) :
  eof P = false -> pos P < List.length (tokens P).
Proof. unfold eof; intros H; apply Nat.leb_gt in H; exact H. Qed.

(** A loop turn entered away from the end of input: the token eaten is
    there, and the turn is paid for by that token. *)
Lemma turn (P : Parser) :
  eof P = false ->
  exists tk,
    peek 0 (tick P) = Some tk
    /\ eat (tick P) = (Some tk, snd (eat (tick P)))
    /\ advances P (snd (eat (tick P)))
    /\ remaining (snd (eat (tick P))) < remaining P.
Proof.
  intros E; apply eof_false in E.
  destruct (nth_error (tokens P) (pos P)) as [tk|] eqn:N.
  - exists tk; unfold_state.
    rewrite Nat.add_0_r, N; repeat split; unfold_state; try reflexivity; lia.
  - apply nth_error_None in N; lia.
Qed.

Lemma ok_ret {A : Type} (P P' : Parser) (a : A) :
  advances P P' -> ok P (Ret (a, P')).
Proof. intros H; exists a, P'; split; [reflexivity|exact H]. Qed.

Lemma ok_from {A : Type} (P Q : Parser) (m : outcome (A * Parser)) :
  advances P Q -> ok Q m -> ok P m.
Proof.
  intros H [a [P' [E H']]]; exists a, P'; split;
    [exact E|eapply advances_trans; eassumption].
Qed.

Lemma ok_bind {A B : Type} (P Q : Parser) (m : outcome (A * Parser))
    (k : A * Parser -> outcome (B * Parser)) :
  advances P Q -> ok Q m ->
  (forall a P', advances P P' -> ok P' (k (a, P'))) ->
  ok P (bind m k).
Proof.
  intros H [a [P' [E H']]] K; subst m; simpl.
  assert (HP : advances P P') by (eapply advances_trans; eassumption).
  eapply ok_from; [exact HP|apply K; exact HP].
Qed.

Create HintDb adv.
#[local] Hint Resolve advances_refl eat_advances expect_advances
  eatComma_advances push_error_advances : adv.

Ltac adv :=
  repeat match goal with
         | |- advances ?P ?P => apply advances_refl
         | |- advances _ (snd (eat _)) =>
             eapply advances_trans; [|apply eat_advances]
         | |- advances _ (snd (expect _ _)) =>
             eapply advances_trans; [|apply expect_advances]
         | |- advances _ (eatComma _) =>
             eapply advances_trans; [|apply eatComma_advances]
         | |- advances _ (push_error _ _) =>
             eapply advances_trans; [|apply push_error_advances]
         | H : advances ?P ?Q |- advances ?P ?Q => exact H
         end.

Ltac fuel_ok :=
  repeat match goal with
         | H : advances _ _ |- _ => apply advances_remaining in H
         end; lia.

Lemma colorValue_advances (fn : string) (args : list arg) (P : Parser) :
  advances P (snd (colorValue fn args P)).
Proof.
  unfold colorValue.
  repeat match goal with
         | |- context [if ?b then _ else _] => destruct b
         end; simpl; auto with adv.
Qed.

Lemma parseColor_args_ok (fuel : nat) :
  forall args P, remaining P < fuel -> ok P (parseColor_args fuel args P).
Proof.
  induction fuel as [|f IH]; intros args P L; [lia|].
  cbn [parseColor_args]; destruct (eof P || same (peekV 0 P) ")") eqn:Stop.
  - apply ok_ret, advances_refl.
  - apply orb_false_iff in Stop as [E _].
    destruct (turn P E) as [tk [_ [Ea [Adv R]]]]; rewrite Ea.
    destruct (String.eqb (v tk) ",");
      [|destruct (t tk)]; (eapply ok_from; [exact Adv|apply IH; lia]).
Qed.

Lemma parseColor_ok (fuel : nat) (P : Parser) :
  remaining P < fuel -> ok P (parseColor fuel P).
Proof.
  intros L; unfold parseColor.
  change (eat P) with (fst (eat P), snd (eat P)); cbv iota beta.
  set (P1 := snd (eat P)).
  rewrite (surjective_pairing (expect "." P1)).
  set (P2 := snd (expect "." P1)).
  change (eat P2) with (fst (eat P2), snd (eat P2)); cbv iota beta.
  set (P3 := snd (eat P2)).
  rewrite (surjective_pairing (expect "(" P3)).
  set (P4 := snd (expect "(" P3)).
  assert (A4 : advances P P4) by (subst P4 P3 P2 P1; adv).
  eapply ok_bind; [exact A4|apply parseColor_args_ok; fuel_ok|].
  intros args P5 A5.
  rewrite (surjective_pairing (expect ")" P5)).
  rewrite (surjective_pairing (colorValue _ _ _)).
  apply ok_ret.
  eapply advances_trans; [apply expect_advances|apply colorValue_advances].
Qed.

Lemma parseValue_loop_ok (fuel : nat) :
  forall depth val prev P,
    remaining P < fuel -> ok P (parseValue_loop fuel depth val prev P).
Proof.
  induction fuel as [|f IH]; intros depth val prev P L; [lia|].
  cbn [parseValue_loop]; destruct (eof P || shouldStopValue depth P) eqn:Stop.
  - apply ok_ret, advances_refl.
  - apply orb_false_iff in Stop as [E _].
    destruct (turn P E) as [tk [Pk [Ea [Adv R]]]]; rewrite Pk, Ea.
    eapply ok_from; [exact Adv|apply IH; lia].
Qed.

Lemma parseValue_ok (fuel : nat) (P : Parser) :
  remaining P < fuel -> ok P (parseValue fuel P).
Proof.
  intros L; unfold parseValue.
  destruct (peek 0 P) as [tk|]; [|apply ok_ret, advances_refl].
  repeat match goal with
         | |- context [if ?b then _ else _] => destruct b
         end;
    try (apply ok_ret, advances_refl).
  - apply parseColor_ok; exact L.
  - eapply ok_bind;
      [apply advances_refl|apply parseValue_loop_ok; exact L|].
    intros val P' A; apply ok_ret, advances_refl.
Qed.

Lemma eatString_advances (P : Parser) : advances P (snd (eatString P)).
Proof.
  unfold eatString; destruct (peek 0 P) as [s|];
    [destruct (TOKEN_eqb (t s) STRING)|]; cbn [snd]; auto with adv.
Qed.

Lemma parseFunctionBlock_loop_ok (fuel : nat) :
  forall ps P,
    remaining P + 1 < fuel -> ok P (parseFunctionBlock_loop fuel ps P).
Proof.
  induction fuel as [|f IH]; intros ps P L; [lia|].
  cbn [parseFunctionBlock_loop].
  destruct (eof P || same (peekV 0 P) "end") eqn:Stop.
  - apply ok_ret, advances_refl.
  - apply orb_false_iff in Stop as [E _].
    destruct (turn P E) as [tk [Pk [Ea [Adv R]]]]; rewrite Pk.
    set (P1 := snd (eat (tick P))) in *.
    eapply ok_from; [exact Adv|].
    destruct (negb (TOKEN_eqb (t tk) IDENT)); [apply IH; lia|].
    rewrite Ea; cbv iota beta.
    pose proof (advances_remaining _ _ (eatComma_advances P1)) as C1.
    destruct (negb (same (peekV 0 P1) "="));
      [eapply ok_from; [apply eatComma_advances|apply IH; lia]|].
    pose proof (advances_remaining _ _ (eat_advances P1)) as C2.
    eapply ok_bind; [apply eat_advances|apply parseValue_ok; lia|].
    intros val P3 A3.
    eapply ok_from; [apply eatComma_advances|].
    pose proof (advances_remaining _ _ (eatComma_advances P3)) as C3.
    apply advances_remaining in A3.
    apply IH; lia.
Qed.

Lemma parseFunctionBlock_ok (fuel : nat) (P : Parser) :
  remaining P + 1 < fuel -> ok P (parseFunctionBlock fuel P).
Proof.
  intros L; unfold parseFunctionBlock.
  rewrite (surjective_pairing (expect "function" P)).
  set (P1 := snd (expect "function" P)).
  rewrite (surjective_pairing (expect "(" P1)).
  set (P2 := snd (expect "(" P1)).
  rewrite (surjective_pairing (expect ")" P2)).
  set (P3 := snd (expect ")" P2)).
  assert (A3 : advances P P3) by (subst P3 P2 P1; adv).
  eapply ok_bind; [exact A3|apply parseFunctionBlock_loop_ok; fuel_ok|].
  intros ps P4 A4.
  rewrite (surjective_pairing (expect "end" P4)).
  apply ok_ret, expect_advances.
Qed.

Lemma parseBlock_both_ok (fuel : nat) :
  (forall sel P,
      2 * remaining P + 2 < fuel -> ok P (parseBlock fuel sel P))
  /\ (forall sel ps cs P,
         2 * remaining P + 1 < fuel ->
         ok P (parseBlock_loop fuel sel ps cs P)).
Proof.
  induction fuel as [|f [IHb IHl]]; [split; intros; lia|].
  split.
  - intros sel P L; cbn [parseBlock].
    rewrite (surjective_pairing (expect "{" P)).
    pose proof (advances_remaining _ _ (expect_advances "{" P)) as C.
    eapply ok_bind; [apply expect_advances|apply IHl; lia|].
    intros result P2 A2.
    rewrite (surjective_pairing (expect "}" P2)).
    apply ok_ret, expect_advances.
  - intros sel ps cs P L; cbn [parseBlock_loop].
    destruct (eof P || same (peekV 0 P) "}") eqn:Stop.
    { apply ok_ret, advances_refl. }
    apply orb_false_iff in Stop as [E _].
    destruct (turn P E) as [tk [Pk [Ea [Adv R]]]]; rewrite Pk.
    set (P1 := snd (eat (tick P))) in *.
    eapply ok_from; [exact Adv|].
    destruct (String.eqb (v tk) "[").
    { rewrite (surjective_pairing (eatString P1)).
      set (P2 := snd (eatString P1)).
      rewrite (surjective_pairing (expect "]" P2)).
      set (P3 := snd (expect "]" P2)).
      rewrite (surjective_pairing (expect "=" P3)).
      set (P4 := snd (expect "=" P3)).
      assert (A4 : advances P1 P4).
      { subst P4 P3 P2. eapply advances_trans; [apply eatString_advances|adv]. }
      pose proof (advances_remaining _ _ A4) as C4.
      pose proof (advances_remaining _ _ (eatComma_advances P4)) as C5.
      destruct (same (peekV 0 P4) "{").
      - eapply ok_bind; [exact A4|apply IHb; lia|].
        intros result P5 A5.
        eapply ok_from; [apply eatComma_advances|].
        pose proof (advances_remaining _ _ (eatComma_advances P5)) as C6.
        apply advances_remaining in A5.
        apply IHl; lia.
      - eapply ok_from;
          [eapply advances_trans; [exact A4|apply eatComma_advances]|].
        apply IHl; lia. }
    destruct (negb (TOKEN_eqb (t tk) IDENT)); [apply IHl; lia|].
    rewrite Ea; cbv iota beta.
    pose proof (advances_remaining _ _ (eatComma_advances P1)) as C1.
    destruct (negb (same (peekV 0 P1) "=")).
    { eapply ok_from; [apply eatComma_advances|apply IHl; lia]. }
    set (P2 := snd (eat P1)).
    pose proof (advances_remaining _ _ (eat_advances P1)) as C2.
    fold P2 in C2.
    assert (K : forall (A : Type) (m : outcome (A * Parser))
                  (k : A * Parser -> outcome ((list Decl * list RuleNode) * Parser)),
               ok P2 m ->
               (forall a P3, remaining P3 <= remaining P1 -> ok P3 (k (a, P3))) ->
               ok P1 (bind m k)).
    { intros A m k Hm Hk.
      eapply ok_bind; [apply eat_advances|exact Hm|].
      intros a P3 A3. apply Hk.
      apply advances_remaining in A3. lia. }
    assert (Next : forall ps' cs' P3,
               remaining P3 <= remaining P1 ->
               ok P3 (parseBlock_loop f sel ps' cs' (eatComma P3))).
    { intros ps' cs' P3 L3.
      eapply ok_from; [apply eatComma_advances|].
      pose proof (advances_remaining _ _ (eatComma_advances P3)) as C3.
      apply IHl; lia. }
    destruct (isPseudo (v tk) && same (peekV 0 P2) "function").
    { apply K; [apply parseFunctionBlock_ok; lia|].
      intros a P3 L3; apply Next; exact L3. }
    destruct (same (peekV 0 P2) "{").
    { apply K; [apply IHb; lia|].
      intros a P3 L3; apply Next; exact L3. }
    apply K; [apply parseValue_ok; lia|].
    intros a P3 L3; apply Next; exact L3.
Qed.

Lemma parseBlock_ok (fuel : nat) (sel : string) (P : Parser) :
  2 * remaining P + 2 < fuel -> ok P (parseBlock fuel sel P).
Proof. apply parseBlock_both_ok. Qed.

Lemma parse_loop_ok (fuel : nat) :
  forall rules P,
    2 * remaining P + 3 < fuel -> ok P (parse_loop fuel rules P).
Proof.
  induction fuel as [|f IH]; intros rules P L; [lia|].
  cbn [parse_loop].
  destruct (eof P) eqn:E; [apply ok_ret, advances_refl|].
  destruct (turn P E) as [tk [Pk [Ea [Adv R]]]]; rewrite Pk.
  set (P1 := snd (eat (tick P))) in *.
  eapply ok_from; [exact Adv|].
  assert (After : forall sel Q,
             remaining Q <= remaining P1 ->
             ok Q
               (if negb (same (peekV 0 Q) "=") then parse_loop f rules Q
                else
                  let P2 := snd (eat Q) in
                  if negb (same (peekV 0 P2) "{") then parse_loop f rules P2
                  else
                    '(result, P3) <- parseBlock f sel P2 ;;
                    parse_loop f
                      (collectChildren (snd result)
                         (pushRule sel (fst result) rules)) P3)).
  { intros sel Q LQ.
    destruct (negb (same (peekV 0 Q) "=")); [apply IH; lia|].
    cbv zeta.
    pose proof (advances_remaining _ _ (eat_advances Q)) as C2.
    destruct (negb (same (peekV 0 (snd (eat Q))) "{")).
    - eapply ok_from; [apply eat_advances|apply IH; lia].
    - eapply ok_bind; [apply eat_advances|apply parseBlock_ok; lia|].
      intros result P3 A3. apply advances_remaining in A3.
      apply IH; lia. }
  destruct (TOKEN_eqb (t tk) IDENT).
  { rewrite Ea; cbv iota beta. apply After; lia. }
  destruct (String.eqb (v tk) "[").
  { rewrite (surjective_pairing (eatString P1)).
    set (P2 := snd (eatString P1)).
    rewrite (surjective_pairing (expect "]" P2)).
    set (P3 := snd (expect "]" P2)).
    assert (A3 : advances P1 P3).
    { subst P3 P2. eapply advances_trans; [apply eatString_advances|adv]. }
    eapply ok_from; [exact A3|].
    apply advances_remaining in A3. apply After; lia. }
  apply IH; lia.
Qed.

(** ** Extra fuel does not change a result *)

Lemma parseColor_args_fuel (f : nat) :
  forall f' args P r,
    parseColor_args f args P = Ret r -> f <= f' ->
    parseColor_args f' args P = Ret r.
Proof.
  induction f as [|f IH]; intros f' args P r H L; [discriminate|].
  destruct f' as [|f']; [lia|].
  cbn [parseColor_args] in *.
  destruct (eof P || same (peekV 0 P) ")"); [exact H|].
  destruct (eat (tick P)) as [[tk|] P1]; [|discriminate].
  destruct (String.eqb (v tk) ","); [apply IH; [exact H|lia]|].
  destruct (t tk); (apply IH; [exact H|lia]).
Qed.

Lemma parseColor_fuel (f f' : nat) (P : Parser) (r : string * Parser) :
  parseColor f P = Ret r -> f <= f' -> parseColor f' P = Ret r.
Proof.
  unfold parseColor; intros H L.
  destruct (eat P) as [x0 P1].
  destruct (expect "." P1) as [x1 P2].
  destruct (eat P2) as [x2 P3].
  destruct (expect "(" P3) as [x3 P4].
  destruct (parseColor_args f [] P4) as [[args P5]| |] eqn:E;
    cbn [bind] in H; try discriminate.
  rewrite (parseColor_args_fuel f f' [] P4 _ E L); exact H.
Qed.

Lemma parseValue_loop_fuel (f : nat) :
  forall f' depth val prev P r,
    parseValue_loop f depth val prev P = Ret r -> f <= f' ->
    parseValue_loop f' depth val prev P = Ret r.
Proof.
  induction f as [|f IH]; intros f' depth val prev P r H L; [discriminate|].
  destruct f' as [|f']; [lia|].
  cbn [parseValue_loop] in *.
  destruct (eof P || shouldStopValue depth P); [exact H|].
  destruct (peek 0 (tick P)) as [n|]; [|exact H].
  destruct (eat (tick P)) as [prev' P1].
  apply IH; [exact H|lia].
Qed.

Lemma parseValue_fuel (f f' : nat) (P : Parser) (r : string * Parser) :
  parseValue f P = Ret r -> f <= f' -> parseValue f' P = Ret r.
Proof.
  unfold parseValue; intros H L.
  destruct (peek 0 P) as [tk|]; [|exact H].
  destruct (TOKEN_eqb (t tk) IDENT && String.eqb (v tk) "color"
            && same (peekV 1 P) ".").
  { eapply parseColor_fuel; eassumption. }
  destruct (TOKEN_eqb (t tk) IDENT
            && (same (peekV 1 P) "=" || same (peekV 1 P) "{")); [exact H|].
  destruct (TOKEN_eqb (t tk) IDENT
            && (String.eqb (v tk) "end" || String.eqb (v tk) "function"));
    [exact H|].
  destruct (parseValue_loop f (mkDepth 0 0 0) "" None P) as [[val P1]| |] eqn:E;
    cbn [bind] in H; try discriminate.
  rewrite (parseValue_loop_fuel f f' _ _ _ _ _ E L); exact H.
Qed.

Lemma parseFunctionBlock_loop_fuel (f : nat) :
  forall f' ps P r,
    parseFunctionBlock_loop f ps P = Ret r -> f <= f' ->
    parseFunctionBlock_loop f' ps P = Ret r.
Proof.
  induction f as [|f IH]; intros f' ps P r H L; [discriminate|].
  destruct f' as [|f']; [lia|].
  cbn [parseFunctionBlock_loop] in *.
  destruct (eof P || same (peekV 0 P) "end"); [exact H|].
  destruct (peek 0 (tick P)) as [tk|]; [|exact H].
  destruct (negb (TOKEN_eqb (t tk) IDENT)); [apply IH; [exact H|lia]|].
  destruct (eat (tick P)) as [[k|] P1]; [|exact H].
  destruct (negb (same (peekV 0 P1) "=")); [apply IH; [exact H|lia]|].
  destruct (parseValue f (snd (eat P1))) as [[val P3]| |] eqn:E;
    cbn [bind] in H; try discriminate.
  rewrite (parseValue_fuel f f' _ _ E) by lia; cbn [bind].
  apply IH; [exact H|lia].
Qed.

Lemma parseFunctionBlock_fuel (f f' : nat) (P : Parser)
    (r : list Decl * Parser) :
  parseFunctionBlock f P = Ret r -> f <= f' ->
  parseFunctionBlock f' P = Ret r.
Proof.
  unfold parseFunctionBlock; intros H L.
  destruct (expect "function" P) as [x1 P1].
  destruct (expect "(" P1) as [x2 P2].
  destruct (expect ")" P2) as [x3 P3].
  destruct (parseFunctionBlock_loop f [] P3) as [[ps P4]| |] eqn:E;
    cbn [bind] in H; try discriminate.
  rewrite (parseFunctionBlock_loop_fuel f f' _ _ _ E L); exact H.
Qed.

Lemma parseBlock_both_fuel (f : nat) :
  (forall f' sel P r,
      parseBlock f sel P = Ret r -> f <= f' -> parseBlock f' sel P = Ret r)
  /\ (forall f' sel ps cs P r,
         parseBlock_loop f sel ps cs P = Ret r -> f <= f' ->
         parseBlock_loop f' sel ps cs P = Ret r).
Proof.
  induction f as [|f [IHb IHl]]; [split; intros; discriminate|].
  split.
  - intros f' sel P r H L; destruct f' as [|f']; [lia|].
    cbn [parseBlock] in *.
    destruct (expect "{" P) as [x1 P1].
    destruct (parseBlock_loop f sel [] [] P1) as [[res P2]| |] eqn:E;
      cbn [bind] in H; try discriminate.
    rewrite (IHl f' _ _ _ _ _ E) by lia; exact H.
  - intros f' sel ps cs P r H L; destruct f' as [|f']; [lia|].
    cbn [parseBlock_loop] in *.
    destruct (eof P || same (peekV 0 P) "}"); [exact H|].
    destruct (peek 0 (tick P)) as [tk|]; [|exact H].
    destruct (String.eqb (v tk) "[").
    { destruct (eatString (snd (eat (tick P)))) as [sl P2].
      destruct (expect "]" P2) as [x3 P3].
      destruct (expect "=" P3) as [x4 P4].
      destruct (same (peekV 0 P4) "{"); [|apply IHl; [exact H|lia]].
      destruct (parseBlock f (resolveSelector sel sl) P4)
        as [[res P5]| |] eqn:E; cbn [bind] in H; try discriminate.
      rewrite (IHb f' _ _ _ E) by lia; cbn [bind].
      apply IHl; [exact H|lia]. }
    destruct (negb (TOKEN_eqb (t tk) IDENT)); [apply IHl; [exact H|lia]|].
    destruct (eat (tick P)) as [[k|] P1]; [|exact H].
    destruct (negb (same (peekV 0 P1) "=")); [apply IHl; [exact H|lia]|].
    destruct (isPseudo (v k) && same (peekV 0 (snd (eat P1))) "function").
    { destruct (parseFunctionBlock f (snd (eat P1)))
        as [[fp P3]| |] eqn:E; cbn [bind] in H; try discriminate.
      rewrite (parseFunctionBlock_fuel f f' _ _ E) by lia; cbn [bind].
      apply IHl; [exact H|lia]. }
    destruct (same (peekV 0 (snd (eat P1))) "{").
    { destruct (parseBlock f (resolveSelector sel (hyphenate (v k)))
                  (snd (eat P1))) as [[res P3]| |] eqn:E;
        cbn [bind] in H; try discriminate.
      rewrite (IHb f' _ _ _ E) by lia; cbn [bind].
      apply IHl; [exact H|lia]. }
    destruct (parseValue f (snd (eat P1))) as [[val P3]| |] eqn:E;
      cbn [bind] in H; try discriminate.
    rewrite (parseValue_fuel f f' _ _ E) by lia; cbn [bind].
    apply IHl; [exact H|lia].
Qed.

Lemma parse_loop_fuel (f : nat) :
  forall f' rules P r,
    parse_loop f rules P = Ret r -> f <= f' -> parse_loop f' rules P = Ret r.
Proof.
  induction f as [|f IH]; intros f' rules P r H L; [discriminate|].
  destruct f' as [|f']; [lia|].
  cbn [parse_loop] in *.
  destruct (eof P); [exact H|].
  destruct (peek 0 (tick P)) as [tk|]; [|exact H].
  assert (After : forall sel Q,
             (if negb (same (peekV 0 Q) "=") then parse_loop f rules Q
              else
                let P2 := snd (eat Q) in
                if negb (same (peekV 0 P2) "{") then parse_loop f rules P2
                else
                  '(result, P3) <- parseBlock f sel P2 ;;
                  parse_loop f
                    (collectChildren (snd result)
                       (pushRule sel (fst result) rules)) P3) = Ret r ->
             (if negb (same (peekV 0 Q) "=") then parse_loop f' rules Q
              else
                let P2 := snd (eat Q) in
                if negb (same (peekV 0 P2) "{") then parse_loop f' rules P2
                else
                  '(result, P3) <- parseBlock f' sel P2 ;;
                  parse_loop f'
                    (collectChildren (snd result)
                       (pushRule sel (fst result) rules)) P3) = Ret r).
  { intros sel Q HQ.
    destruct (negb (same (peekV 0 Q) "=")); [apply IH; [exact HQ|lia]|].
    cbv zeta in *.
    destruct (negb (same (peekV 0 (snd (eat Q))) "{"));
      [apply IH; [exact HQ|lia]|].
    destruct (parseBlock f sel (snd (eat Q))) as [[res P3]| |] eqn:E;
      cbn [bind] in HQ; try discriminate.
    rewrite (proj1 (parseBlock_both_fuel f) f' _ _ _ E) by lia; cbn [bind].
    apply IH; [exact HQ|lia]. }
  destruct (TOKEN_eqb (t tk) IDENT).
  { destruct (eat (tick P)) as [[k|] P1]; [|exact H].
    apply After; exact H. }
  destruct (String.eqb (v tk) "[").
  { destruct (eatString (snd (eat (tick P)))) as [sl P2].
    destruct (expect "]" P2) as [x3 P3].
    apply After; exact H. }
  apply IH; [exact H|lia].
Qed.

(** ** Termination of the whole compilation *)

Lemma newParser_tokens_le (toks : list token) :
  List.length (tokens (newParser toks)) <= List.length toks.
Proof.
  unfold newParser; cbn [tokens].
  induction toks as [|x l IH]; simpl; [lia|].
  destruct (negb (TOKEN_eqb (t x) WS) && negb (TOKEN_eqb (t x) COMMENT));
    simpl; lia.
Qed.

Lemma parse_returns (src : string) :
  exists toks rules P,
    tokenize src = Some toks
    /\ List.length toks <= String.length src
    /\ parse src = Ret (rules, P)
    /\ tokens P = tokens (newParser toks)
    /\ steps P <= List.length (tokens P).
Proof.
  destruct (tokenize_loop_total (String.length src) src (le_n _))
    as [toks [Et Lt]].
  unfold parse; fold (tokenize src) in Et; rewrite Et.
  destruct (parse_loop_ok (fuelFor (newParser toks)) [] (newParser toks))
    as [rules [P [Ep [T _ S]]]].
  { unfold fuelFor, remaining; lia. }
  exists toks, rules, P; repeat split; try assumption.
  unfold consumed in S; rewrite T; cbn [pos steps newParser] in S.
  rewrite T in S; lia.
Qed.

(** C9.  On every input the tokenizer and the parser return.  A turn of
    the tokenizer loop leaves strictly less input and pushes one token,
    so there are at most as many turns as characters; every turn of a
    parser loop is paid for by a token the parser goes past, so the
    turns of all parser loops together ([steps]) number at most the
    tokens; fuel linear in the token count suffices, and more fuel gives
    the same result. *)
Theorem compile_terminates (src : string) :
  (forall c s',
      String.length (snd (lexToken c s')) < String.length (String c s'))
  /\ exists toks rules P out,
       tokenize src = Some toks
       /\ List.length toks <= String.length src
       /\ (forall fuel,
              2 * List.length (tokens (newParser toks)) + 4 <= fuel ->
              parse_loop fuel [] (newParser toks) = Ret (rules, P))
       /\ parse src = Ret (rules, P)
       /\ tokens P = tokens (newParser toks)
       /\ List.length (tokens P) <= List.length toks
       /\ steps P <= List.length (tokens P)
       /\ compileLuaCSS src = Ret out.
Proof.
  split.
  { intros c s'; pose proof (lexToken_progress c s'); simpl; lia. }
  destruct (parse_returns src) as [toks [rules [P [Et [Lt [Ep [T S]]]]]]].
  assert (Ec : exists out, compileLuaCSS src = Ret out).
  { unfold compileLuaCSS; rewrite Ep; cbn [bind].
    destruct (nonEmpty (errors P) && negb (nonEmpty rules)); eauto. }
  destruct Ec as [out Ec].
  exists toks, rules, P, out; repeat split; try assumption.
  - intros fuel L; unfold parse in Ep; rewrite Et in Ep.
    eapply parse_loop_fuel; [exact Ep|exact L].
  - rewrite T; apply newParser_tokens_le.
Qed.

(** ** The three shapes of the result *)

(** C1.  [compileLuaCSS] returns on every input, and what it returns is
    fixed by the rules and diagnostics of the parse: with at least one
    rule, the emitted text and the diagnostics; with no rule and at least
    one diagnostic, [null] and the diagnostics; with neither, the empty
    string and no diagnostic. *)
Theorem compile_three_shapes (src : string) :
  exists rules P,
    parse src = Ret (rules, P)
    /\ compileLuaCSS src =
       Ret match rules, errors P with
           | _ :: _, errs => mkCompiled (Some (emit rules)) errs
           | [], e :: errs => mkCompiled None (e :: errs)
           | [], [] => mkCompiled (Some "") []
           end.
Proof.
  destruct (parse_returns src) as [toks [rules [P [_ [_ [Ep _]]]]]].
  exists rules, P; split; [exact Ep|].
  unfold compileLuaCSS; rewrite Ep; cbn [bind].
  destruct rules as [|r rules]; destruct (errors P) as [|e errs];
    reflexivity.
Qed.

(** ** Flattening *)

Lemma preorder_unfold (sel : string) (ps : list Decl) (cs : list RuleNode) :
  preorder (mkNode sel ps cs) = mkNode sel ps cs :: preorder_forest cs.
Proof.
  reflexivity.
Qed.

Lemma collectChild_unfold (sel : string) (ps : list Decl)
    (cs : list RuleNode) (rules : list Rule) :
  collectChild (mkNode sel ps cs) rules
  = collectChildren cs (pushRule sel ps rules).
Proof.
  destruct cs as [|c l]; reflexivity.
Qed.

Lemma flatten_app (l1 l2 : list RuleNode) :
  flatten (l1 ++ l2) = flatten l1 ++ flatten l2.
Proof.
  unfold flatten, preorder_forest.
  rewrite flat_map_app, filter_app, map_app; reflexivity.
Qed.

Lemma flatten_node (sel : string) (ps : list Decl) (cs : list RuleNode) :
  flatten [mkNode sel ps cs]
  = (if nonEmpty ps then [mkRule sel ps] else []) ++ flatten cs.
Proof.
  unfold flatten, preorder_forest; cbn [flat_map].
  rewrite app_nil_r, preorder_unfold; cbn [filter hasDeclarations].
  destruct (nonEmpty ps); reflexivity.
Qed.

Lemma pushRule_app (sel : string) (ps : list Decl) (rules : list Rule) :
  pushRule sel ps rules
  = rules ++ (if nonEmpty ps then [mkRule sel ps] else []).
Proof.
  unfold pushRule; destruct (nonEmpty ps);
    [reflexivity|rewrite app_nil_r; reflexivity].
Qed.

Lemma flatten_cons (sel : string) (ps : list Decl) (cs l : list RuleNode)
    (rules : list Rule) :
  pushRule sel ps rules ++ flatten cs ++ flatten l
  = rules ++ flatten (mkNode sel ps cs :: l).
Proof.
  change (mkNode sel ps cs :: l) with ([mkNode sel ps cs] ++ l).
  rewrite flatten_app, flatten_node, pushRule_app.
  rewrite <- !app_assoc; reflexivity.
Qed.

Lemma collectChildren_flatten (l : list RuleNode) :
  forall rules, collectChildren l rules = rules ++ flatten l.
Proof.
  assert (Node : forall n rules,
             collectChild n rules = rules ++ flatten [n]).
  { intros n; induction n as [sel ps cs IH] using RuleNode_rect'.
    intros rules; rewrite collectChild_unfold.
    assert (G : forall acc, collectChildren cs acc = acc ++ flatten cs).
    { induction IH as [|c0 l0 Hc _ IHl]; intros acc.
      - unfold flatten; simpl; rewrite app_nil_r; reflexivity.
      - cbn [collectChildren]; rewrite IHl, Hc, <- app_assoc.
        change (c0 :: l0) with ([c0] ++ l0); rewrite flatten_app;
          reflexivity. }
    rewrite G, flatten_node, pushRule_app, <- app_assoc; reflexivity. }
  induction l as [|c l IH]; intros rules.
  - unfold flatten; simpl; rewrite app_nil_r; reflexivity.
  - cbn [collectChildren]; rewrite IH, Node, <- app_assoc.
    change (c :: l) with ([c] ++ l); rewrite flatten_app; reflexivity.
Qed.

(** C4.  [collectChildren] appends to the rule list the nodes of the
    forest in depth-first pre-order, keeping exactly those whose
    declarations are non-empty; and the step of the top-level driver, a
    push of the block's own rule followed by [collectChildren] on its
    children, appends the same for the block taken as a node, so that a
    parent with declarations comes before the rules of its children. *)
Theorem flattening_is_preorder :
  (forall children rules,
      collectChildren children rules
      = rules ++ map flatRule
                   (filter hasDeclarations (preorder_forest children)))
  /\ (forall sel ps cs rules,
         collectChildren cs (pushRule sel ps rules)
         = rules ++ map flatRule
                      (filter hasDeclarations (preorder (mkNode sel ps cs))))
  /\ (forall sel d ps csel q qs rules,
         collectChildren [mkNode csel (q :: qs) []]
           (pushRule sel (d :: ps) rules)
         = rules ++ [mkRule sel (d :: ps); mkRule csel (q :: qs)]).
Proof.
  split; [|split].
  - intros children rules; apply collectChildren_flatten.
  - intros sel ps cs rules.
    rewrite collectChildren_flatten, pushRule_app, <- app_assoc.
    rewrite <- flatten_node.
    unfold flatten, preorder_forest; cbn [flat_map].
    rewrite app_nil_r; reflexivity.
  - intros; rewrite collectChildren_flatten.
    unfold pushRule, flatten; simpl; rewrite <- app_assoc; reflexivity.
Qed.

(** ** No rule without declarations *)

(** Whatever holds of the rule list and survives the driver's push of a
    block holds of the list that [parse] returns. *)
Lemma parse_loop_preserves (Inv : list Rule -> Prop)
    (Hstep : forall sel ps cs rules,
        Inv rules -> Inv (collectChildren cs (pushRule sel ps rules)))
    (fuel : nat) :
  forall rules P rules' P',
    parse_loop fuel rules P = Ret (rules', P') -> Inv rules -> Inv rules'.
Proof.
  induction fuel as [|f IH]; intros rules P rules' P' E I; [discriminate|].
  cbn [parse_loop] in E.
  destruct (eof P); [inversion E; subst; exact I|].
  destruct (peek 0 (tick P)) as [tk|]; [|inversion E; subst; exact I].
  assert (After : forall sel Q,
             (if negb (same (peekV 0 Q) "=") then parse_loop f rules Q
              else
                let P2 := snd (eat Q) in
                if negb (same (peekV 0 P2) "{") then parse_loop f rules P2
                else
                  '(result, P3) <- parseBlock f sel P2 ;;
                  parse_loop f
                    (collectChildren (snd result)
                       (pushRule sel (fst result) rules)) P3)
             = Ret (rules', P') -> Inv rules').
  { intros sel Q EQ.
    destruct (negb (same (peekV 0 Q) "=")); [eapply IH; eassumption|].
    cbv zeta in EQ.
    destruct (negb (same (peekV 0 (snd (eat Q))) "{"));
      [eapply IH; eassumption|].
    destruct (parseBlock f sel (snd (eat Q))) as [[result P3]| |];
      cbn [bind] in EQ; try discriminate.
    eapply IH; [exact EQ|apply Hstep; exact I]. }
  destruct (TOKEN_eqb (t tk) IDENT).
  { destruct (eat (tick P)) as [[k|] P1]; [|discriminate].
    eapply After; exact E. }
  destruct (String.eqb (v tk) "[").
  { destruct (eatString (snd (eat (tick P)))) as [sel P2].
    destruct (expect "]" P2) as [x P3].
    eapply After; exact E. }
  eapply IH; eassumption.
Qed.

Lemma collectChildren_hasProps (cs : list RuleNode) (sel : string)
    (ps : list Decl) (rules : list Rule) :
  Forall hasProps rules ->
  Forall hasProps (collectChildren cs (pushRule sel ps rules)).
Proof.
  intros H.
  rewrite collectChildren_flatten, pushRule_app, <- app_assoc.
  rewrite <- flatten_node.
  apply Forall_app; split; [exact H|].
  unfold flatten; apply Forall_forall; intros r Hr.
  apply in_map_iff in Hr as [n [En Hn]].
  apply filter_In in Hn as [_ Hn].
  destruct n as [s q c]; subst r; unfold hasProps; cbn in *.
  destruct q; [discriminate|discriminate].
Qed.

Lemma append_assoc (a b c : string) : (a +++ b) +++ c = a +++ b +++ c.
Proof.
  induction a as [|x a IH]; simpl; [reflexivity|rewrite IH; reflexivity].
Qed.

(** C10.  Every rule of the list that [parse] returns has at least one
    declaration, so that every block of the emitted stylesheet opens on a
    declaration line; no block is empty. *)
Theorem rules_have_declarations (src : string) :
  exists rules P,
    parse src = Ret (rules, P)
    /\ Forall (fun r => props r <> []) rules
    /\ forall r, In r rules ->
         exists d rest,
           In d (props r)
           /\ emitRule r
              = selector r +++ " {" +++ String "010" ""
                  +++ "  " +++ prop d +++ ": " +++ value d +++ ";" +++ rest.
Proof.
  destruct (parse_returns src) as [toks [rules [P [Et [_ [Ep _]]]]]].
  exists rules, P; split; [exact Ep|].
  assert (H : Forall hasProps rules).
  { unfold parse in Ep; rewrite Et in Ep.
    eapply (parse_loop_preserves (Forall hasProps));
      [|exact Ep|constructor].
    intros; apply collectChildren_hasProps; assumption. }
  split; [exact H|].
  intros r Hr.
  rewrite Forall_forall in H; specialize (H r Hr); unfold hasProps in H.
  unfold emitRule.
  destruct (props r) as [|d ds]; [contradiction|].
  exists d.
  destruct ds as [|d' ds].
  - exists (String "010" "" +++ "}"); split; [left; reflexivity|].
    cbn [map join]; rewrite !append_assoc; reflexivity.
  - eexists; split; [left; reflexivity|].
    cbn [map join]; rewrite !append_assoc; reflexivity.
Qed.

(** ** The end-to-end example *)

(** C2.  The example of the specification compiles to the stylesheet given
    there, with no diagnostic. *)
Theorem compile_example :
  compileLuaCSS
    ("body = { opacity = 0.8, background = color.hex("
       +++ quote +++ "#fff" +++ quote +++ ") }")
  = Ret (mkCompiled
           (Some ("body {" +++ String "010" ""
                    +++ "  opacity: 0.8;" +++ String "010" ""
                    +++ "  background: #fff;" +++ String "010" ""
                    +++ "}"))
           []).
Proof. vm_compute. reflexivity. Qed.

(** ** Selector resolution *)

Lemma GetSubstitution_plain (matched before after template : string) :
  includes "$" template = false ->
  GetSubstitution matched before after template = template.
Proof.
  induction template as [|c r IH]; intros H; [reflexivity|].
  cbn [includes] in H; apply orb_false_iff in H as [Hc Hr].
  cbn [GetSubstitution]; rewrite Hc, (IH Hr); reflexivity.
Qed.

Lemma replace_plain (c : ascii) (template s : string) :
  includes "$" template = false ->
  replace c template s = replaceAllChar c template s.
Proof.
  intros H; unfold replace; generalize "" as before.
  induction s as [|d s IH]; intros before; [reflexivity|].
  cbn [replace_from replaceAllChar].
  rewrite IH, (GetSubstitution_plain _ _ _ _ H); reflexivity.
Qed.

(** Away from dollar signs in the parent, [resolveSelector] is the
    resolution of the specification. *)
Lemma resolveSelector_plain (parent child : string) :
  includes "$" parent = false ->
  resolveSelector parent child = resolveSelector_spec parent child.
Proof.
  intros H; unfold resolveSelector, resolveSelector_spec.
  rewrite (replace_plain _ _ _ H); reflexivity.
Qed.

(** C5.  The three examples of the specification hold.  A parent that
    holds a dollar sign
    followed by a quote is not inserted as it is: [replace] reads the pair
    as the text behind the match, here [":hover"]; the same input reaches
    [resolveSelector] through [compileLuaCSS]. *)
Theorem resolveSelector_dollar_pattern :
  resolveSelector "h1" "span" = "h1 span"
  /\ resolveSelector ".card" "&:nth-child(2)" = ".card:nth-child(2)"
  /\ resolveSelector "a" ":not(.x)" = "a:not(.x)"
  /\ resolveSelector "a[title='$']" "&:hover" = "a[title=':hover]:hover"
  /\ resolveSelector_spec "a[title='$']" "&:hover" = "a[title='$']:hover"
  /\ compileLuaCSS
       ("[" +++ quote +++ "a[title='$']" +++ quote +++ "] = { ["
          +++ quote +++ "&:hover" +++ quote +++ "] = { color = red } }")
     = Ret (mkCompiled
              (Some ("a[title=':hover]:hover {" +++ String "010" ""
                       +++ "  color: red;" +++ String "010" "" +++ "}"))
              []).
Proof.
  repeat split; vm_compute; reflexivity.
Qed.

(** ** Pseudo selectors *)

(** The keys of the two pseudo sets name no property of
    [Object.prototype], so the lookup in the name map finds for them an
    entry of the map or nothing. *)
Lemma isPseudo_not_inherited (key : string) :
  isPseudo key = true -> assoc key Object_prototype = None.
Proof.
  unfold isPseudo, has, PSEUDO_CLASS, PSEUDO_ELEMENT; cbn [existsb].
  repeat match goal with
         | |- context [String.eqb key ?s] =>
             destruct (String.eqb_spec key s) as [->|_];
               [intros _; reflexivity|cbn [orb]]
         end.
  discriminate.
Qed.

(** Outside the guard [isPseudo(key)] of its one call, on a key that
    names a property of [Object.prototype], the lookup finds that
    property and the selector ends in its text.  The parser passes no
    such key. *)
Lemma pseudoSelector_unguarded_key :
  isPseudo "__proto__" = false
  /\ pseudoSelector "a" "__proto__" = "a:[object Object]".
Proof. split; reflexivity. Qed.

(** C6.  For every parent and every key that [pseudoSelector] is called
    with, a key of the pseudo-class or pseudo-element set as the guard
    of the call has it, [pseudoSelector] gives the parent, the prefix
    and the CSS name of the specification: the entry of the name map
    when the key has one and the key itself otherwise, behind two colons
    when the key is in the pseudo-element set and behind one otherwise;
    the examples hold, and [placeholder] takes the double colon. *)
Theorem pseudoSelector_guarded (parent key : string) :
  isPseudo key = true ->
  pseudoSelector parent key = pseudoSelector_spec parent key
  /\ pseudoSelector "button" "hover" = "button:hover"
  /\ pseudoSelector "p" "before" = "p::before"
  /\ pseudoSelector "li" "nth_child" = "li:nth-child"
  /\ pseudoSelector parent "placeholder" = parent +++ "::placeholder".
Proof.
  intros H.
  pose proof (isPseudo_not_inherited key H) as N.
  repeat split; try reflexivity.
  unfold pseudoSelector, pseudoSelector_spec, PSEUDO_NAME_MAP_get.
  rewrite N; destruct (assoc key PSEUDO_NAME_MAP); reflexivity.
Qed.

Lemma pseudoSelector_guarded_witness :
  isPseudo "nth_child" = true
  /\ pseudoSelector "li" "nth_child" = pseudoSelector_spec "li" "nth_child".
Proof.
  split; [reflexivity|].
  exact (proj1 (pseudoSelector_guarded "li" "nth_child" eq_refl)).
Defined.

(** ** Bare hex literals *)

Lemma span_stop (p : ascii -> bool) (ds : string) (c : ascii) (r : string) :
  allChars p ds = true -> p c = false ->
  span p (ds +++ String c r) = (ds, String c r).
Proof.
  intros H Hc; induction ds as [|d ds IH]; cbn [append span].
  - rewrite Hc; reflexivity.
  - cbn [allChars] in H; apply andb_true_iff in H as [Hd H].
    rewrite Hd, (IH H); reflexivity.
Qed.

Lemma lexToken_hex (ds : string) (c : ascii) (r : string) :
  allChars isHexDigit ds = true -> isHexDigit c = false ->
  lexToken "0" (String "x" (ds +++ String c r))
  = (tok HEX (String "0" (String "x" ds)), String c r).
Proof.
  intros H Hc; unfold lexToken.
  change (drop 2 (String "0" (String "x" (ds +++ String c r))))
    with (ds +++ String c r).
  rewrite (span_stop _ _ _ _ H Hc); reflexivity.
Qed.

Lemma trimEnd_noSpace (s : string) : noSpace s = true -> trimEnd s = s.
Proof.
  induction s as [|c s IH]; intros H; [reflexivity|].
  cbn [noSpace allChars] in H; apply andb_true_iff in H as [Hc H].
  cbn [trimEnd]; rewrite (IH H).
  destruct s; [|reflexivity].
  apply negb_true_iff in Hc; rewrite Hc; reflexivity.
Qed.

Lemma trim_noSpace (s : string) : noSpace s = true -> trim s = s.
Proof.
  intros H; unfold trim.
  destruct s as [|c s]; [reflexivity|].
  pose proof H as H'.
  cbn [noSpace allChars] in H; apply andb_true_iff in H as [Hc _].
  apply negb_true_iff in Hc; cbn [trimStart]; rewrite Hc.
  apply trimEnd_noSpace; exact H'.
Qed.

Lemma hexDigit_noSpace (c : ascii) : isHexDigit c = true -> isSpace c = false.
Proof.
  destruct c as [[] [] [] [] [] [] [] []]; vm_compute; congruence.
Qed.

Lemma noSpace_app (a b : string) :
  noSpace a = true -> noSpace b = true -> noSpace (a +++ b) = true.
Proof.
  intros Ha Hb; induction a as [|c a IH]; [exact Hb|].
  cbn [noSpace allChars append] in *.
  apply andb_true_iff in Ha as [Hc Ha]; rewrite Hc; apply IH; exact Ha.
Qed.

Lemma noSpace_rendering (ds : string) :
  allChars isHexDigit ds = true ->
  noSpace (String "#" (padStart 6 "0" ds)) = true.
Proof.
  intros H.
  change (String "#" (padStart 6 "0" ds)) with ("#" +++ padStart 6 "0" ds).
  apply noSpace_app; [reflexivity|].
  unfold padStart; apply noSpace_app.
  - generalize (6 - String.length ds); intros n.
    induction n as [|n IH]; [reflexivity|exact IH].
  - induction ds as [|c ds IH]; [reflexivity|].
    cbn [allChars] in H; apply andb_true_iff in H as [Hc H].
    cbn [noSpace allChars].
    rewrite (hexDigit_noSpace c Hc); apply IH; exact H.
Qed.

(** The digits of a hex literal keep their case: no step of the
    compiler lower-cases them. *)
Lemma hex_literal_keeps_case :
  tokenToValuePiece (Some (tok HEX "0xA1B2C3")) = "#A1B2C3"
  /\ hexRendering_spec "A1B2C3" = "#a1b2c3"
  /\ tokenToValuePiece (Some (tok HEX "0xA1B2C3"))
     <> hexRendering_spec "A1B2C3"
  /\ compileLuaCSS "a = { c = 0xA1B2C3 }"
     = Ret (mkCompiled
              (Some ("a {" +++ String "010" "" +++ "  c: #A1B2C3;"
                       +++ String "010" "" +++ "}"))
              []).
Proof.
  repeat split; try (vm_compute; reflexivity).
  vm_compute; discriminate.
Qed.

(** C3, amended.  A bare hex literal, [0x] followed by hex digits, used
    as a property value is rendered as [#] followed by the digits as they
    are written, padded on the left with [0] to six characters. *)
Theorem hex_literal_rendering (ds : string) :
  allChars isHexDigit ds = true ->
  tokenToValuePiece (Some (tok HEX ("0x" +++ ds)))
  = "#" +++ padStart 6 "0" ds
  /\ compileLuaCSS ("a = { c = 0x" +++ ds +++ " }")
     = Ret (mkCompiled
              (Some ("a {" +++ String "010" ""
                       +++ ("  c: #" +++ padStart 6 "0" ds +++ ";")
                       +++ String "010" "" +++ "}"))
              []).
Proof.
  intros H; split; [reflexivity|].
  assert (Etok : tokenize ("a = { c = 0x" +++ ds +++ " }")
                 = Some [tok IDENT "a"; tok WS " "; tok PUNCT "="; tok WS " ";
                         tok PUNCT "{"; tok WS " "; tok IDENT "c"; tok WS " ";
                         tok PUNCT "="; tok WS " ";
                         tok HEX (String "0" (String "x" ds));
                         tok WS " "; tok PUNCT "}"]).
  { cbn [append].
    do 10 (rewrite tokenize_step; lazy -[tokenize append]).
    rewrite tokenize_step, (lexToken_hex ds " " "}" H eq_refl).
    cbn [fst snd].
    do 2 (rewrite tokenize_step; lazy -[tokenize append]).
    reflexivity. }
  unfold compileLuaCSS, parse; rewrite Etok.
  lazy -[trim padStart].
  rewrite (trim_noSpace _ (noSpace_rendering ds H)).
  lazy -[padStart].
  reflexivity.
Qed.

Lemma hex_literal_rendering_witness :
  tokenToValuePiece (Some (tok HEX "0xFFF")) = "#000FFF"
  /\ compileLuaCSS "a = { c = 0xFFF }"
     = Ret (mkCompiled
              (Some ("a {" +++ String "010" "" +++ "  c: #000FFF;"
                       +++ String "010" "" +++ "}"))
              []).
Proof. exact (hex_literal_rendering "FFF" eq_refl). Defined.

(** ** Unknown colour functions *)

Lemma peek_at (pre l : list token) (k n : nat) (errs : list string)
    (st : nat) :
  peek n (at_ pre l k errs st) = nth_error l (k + n).
Proof.
  unfold peek, at_; cbn [tokens pos].
  rewrite nth_error_app2 by lia.
  f_equal; lia.
Qed.

Lemma eat_at (pre l : list token) (k : nat) (errs : list string) (st : nat) :
  eat (at_ pre l k errs st)
  = (nth_error l k, at_ pre l (S k) errs st).
Proof.
  unfold eat, at_; cbn [tokens pos errors steps].
  rewrite nth_error_app2 by lia.
  repeat f_equal; lia.
Qed.

Lemma eof_at (pre l : list token) (k : nat) (errs : list string) (st : nat) :
  eof (at_ pre l k errs st) = (List.length l <=? k).
Proof.
  unfold eof, at_; cbn [tokens pos]; rewrite length_app.
  destruct (Nat.leb_spec (List.length l) k);
    [apply Nat.leb_le|apply Nat.leb_gt]; lia.
Qed.

Lemma expect_at (val : string) (pre l : list token) (k : nat)
    (errs : list string) (st : nat) (tk : token) :
  nth_error l k = Some tk -> v tk = val ->
  expect val (at_ pre l k errs st) = (Some tk, at_ pre l (S k) errs st).
Proof.
  intros N V; unfold expect, peekV.
  rewrite peek_at, Nat.add_0_r, N; cbn [option_map same].
  rewrite V, String.eqb_refl, eat_at, N; reflexivity.
Qed.

Lemma parseColor_args_scan (args : list token) :
  forall fuel pre hd rp post acc errs st,
    List.length args < fuel ->
    Forall (fun a => v a <> ")") args ->
    v rp = ")" ->
    parseColor_args fuel acc
      (at_ pre (hd ++ args ++ rp :: post) (List.length hd) errs st)
    = Ret (acc ++ argsOf args,
           at_ pre (hd ++ args ++ rp :: post)
             (List.length hd + List.length args) errs
             (st + List.length args)).
Proof.
  induction args as [|a args IH];
    intros fuel pre hd rp post acc errs st L F R.
  - destruct fuel as [|f]; [simpl in L; lia|].
    cbn [parseColor_args]; unfold peekV.
    rewrite eof_at, peek_at, Nat.add_0_r.
    rewrite nth_error_app2 by lia.
    rewrite Nat.sub_diag; cbn [app nth_error option_map same].
    rewrite R, orb_true_r; cbn [argsOf flat_map List.length].
    rewrite app_nil_r, !Nat.add_0_r; reflexivity.
  - destruct fuel as [|f]; [simpl in L; lia|].
    inversion F as [|a' l' Ha F']; subst.
    cbn [parseColor_args]; unfold peekV.
    rewrite eof_at, peek_at, Nat.add_0_r.
    rewrite nth_error_app2 by lia.
    rewrite Nat.sub_diag; cbn [app nth_error option_map same].
    replace (List.length (hd ++ a :: args ++ rp :: post) <=? List.length hd)
      with false
      by (symmetry; apply Nat.leb_gt; rewrite length_app; simpl; lia).
    apply String.eqb_neq in Ha; rewrite Ha; cbn [orb].
    change (tick (at_ pre (hd ++ a :: args ++ rp :: post) (List.length hd) errs st))
      with (at_ pre (hd ++ a :: args ++ rp :: post) (List.length hd) errs (S st)).
    rewrite eat_at.
    rewrite nth_error_app2 by lia.
    rewrite Nat.sub_diag; cbn [nth_error].
    specialize (IH f pre (hd ++ [a]) rp post).
    rewrite <- app_assoc in IH; cbn [app] in IH.
    rewrite length_app in IH; cbn [List.length] in IH.
    replace (List.length hd + 1) with (S (List.length hd)) in IH by lia.
    cbn [List.length] in L.
    cbn [argsOf flat_map List.length]; fold (argsOf args).
    replace (List.length hd + S (List.length args))
      with (S (List.length hd) + List.length args) by lia.
    replace (st + S (List.length args))
      with (S st + List.length args) by lia.
    destruct (String.eqb (v a) ",").
    + rewrite IH by (assumption || lia); reflexivity.
    + destruct (t a); rewrite IH by (assumption || lia);
        rewrite <- app_assoc; reflexivity.
Qed.

(** C8.  On a call [color.fn(args)] whose name is none of the six
    constructors, with its parentheses in place, the value parser records
    the one diagnostic that names the function, returns the value
    [#000000], and stands just behind the closing parenthesis, from where
    the caller goes on; nothing is thrown, and the declarations behind
    the call are compiled as usual. *)
Theorem unknown_color_function
    (pre args post : list token) (c dot f lp rp : token)
    (errs : list string) (st fuel : nat) :
  t c = IDENT -> v c = "color" -> v dot = "." -> v lp = "(" -> v rp = ")" ->
  Forall (fun a => v a <> ")") args ->
  knownColorFunction (v f) = false ->
  List.length args < fuel ->
  parseValue fuel
    (mkParser (pre ++ [c; dot; f; lp] ++ args ++ rp :: post)
       (List.length pre) errs st)
  = Ret ("#000000",
         mkParser (pre ++ [c; dot; f; lp] ++ args ++ rp :: post)
           (List.length pre + (5 + List.length args))
           (errs ++ ["Unknown color function: color." +++ v f])
           (st + List.length args))
  /\ compileLuaCSS "a = { b = color.foo(1, 2), c = 1 }"
     = Ret (mkCompiled
              (Some ("a {" +++ String "010" "" +++ "  b: #000000;"
                       +++ String "010" "" +++ "  c: 1;"
                       +++ String "010" "" +++ "}"))
              ["Unknown color function: color.foo"]).
Proof.
  intros Tc Vc Vd Vl Vr F K L.
  split; [|vm_compute; reflexivity].
  cbn [app].
  change (mkParser (pre ++ c :: dot :: f :: lp :: args ++ rp :: post)
            (List.length pre) errs st)
    with (at_ pre (c :: dot :: f :: lp :: args ++ rp :: post) 0 errs st).
  unfold parseValue, peekV.
  rewrite !peek_at; cbn [Nat.add nth_error option_map same].
  rewrite Tc, Vc, Vd; cbn [TOKEN_eqb String.eqb Ascii.eqb Bool.eqb andb].
  unfold parseColor.
  rewrite eat_at; cbv beta iota.
  rewrite (expect_at "." pre
             (c :: dot :: f :: lp :: args ++ rp :: post)
             1 errs st dot eq_refl Vd); cbv beta iota.
  rewrite eat_at; cbv beta iota.
  rewrite (expect_at "(" pre
             (c :: dot :: f :: lp :: args ++ rp :: post)
             3 errs st lp eq_refl Vl); cbv beta iota.
  cbn [nth_error].
  pose proof (parseColor_args_scan args fuel pre [c; dot; f; lp] rp post []
                errs st L F Vr) as Scan.
  cbn [List.length app] in Scan; rewrite Scan; cbn [bind].
  rewrite (expect_at ")" pre _ (4 + List.length args) errs
             (st + List.length args) rp).
  - unfold colorValue.
    unfold knownColorFunction in K; cbn [existsb] in K.
    repeat match type of K with
           | (_ || _) = false =>
               let E := fresh "E" in
               apply orb_false_iff in K as [E K]; rewrite E
           end.
    unfold push_error, at_; cbn [tokens pos errors steps].
    do 3 f_equal; lia.
  - change (c :: dot :: f :: lp :: args ++ rp :: post)
      with ([c; dot; f; lp] ++ args ++ rp :: post).
    rewrite nth_error_app2 by (simpl; lia).
    rewrite nth_error_app2 by (simpl; lia).
    replace (4 + List.length args - List.length [c; dot; f; lp]
             - List.length args) with 0 by (simpl; lia).
    reflexivity.
  - exact Vr.
Qed.

Lemma unknown_color_function_witness :
  parseValue 4
    (mkParser
       [tok IDENT "b"; tok PUNCT "=";
        tok IDENT "color"; tok PUNCT "."; tok IDENT "foo"; tok PUNCT "(";
        mkToken NUMBER "1" (Some ""); tok PUNCT ",";
        mkToken NUMBER "2" (Some ""); tok PUNCT ")"; tok PUNCT "}"]
       2 [] 0)
  = Ret ("#000000",
         mkParser
           [tok IDENT "b"; tok PUNCT "=";
            tok IDENT "color"; tok PUNCT "."; tok IDENT "foo"; tok PUNCT "(";
            mkToken NUMBER "1" (Some ""); tok PUNCT ",";
            mkToken NUMBER "2" (Some ""); tok PUNCT ")"; tok PUNCT "}"]
           10 ["Unknown color function: color.foo"] 3)
  /\ compileLuaCSS "a = { b = color.foo(1, 2), c = 1 }"
     = Ret (mkCompiled
              (Some ("a {" +++ String "010" "" +++ "  b: #000000;"
                       +++ String "010" "" +++ "  c: 1;"
                       +++ String "010" "" +++ "}"))
              ["Unknown color function: color.foo"]).
Proof.
  apply (unknown_color_function
           [tok IDENT "b"; tok PUNCT "="]
           [mkToken NUMBER "1" (Some ""); tok PUNCT ",";
            mkToken NUMBER "2" (Some "")]
           [tok PUNCT "}"]
           (tok IDENT "color") (tok PUNCT ".") (tok IDENT "foo")
           (tok PUNCT "(") (tok PUNCT ")") [] 0 4);
    try reflexivity.
  - repeat constructor; discriminate.
  - simpl; lia.
Defined.

(** ** Colour channels of [color3] *)

Section Rounding.

Local Open Scope Z_scope.

Lemma shr_1_m (mrs : shr_record) :
  0 <= shr_m mrs -> shr_m (shr_1 mrs) = shr_m mrs / 2.
Proof.
  destruct mrs as [m r s]; cbn [shr_m]; intros H.
  destruct m as [|p|p]; [reflexivity| |lia].
  destruct p as [p|p|]; cbn [shr_1 shr_m].
  - rewrite Pos2Z.inj_xI, Z.mul_comm, Z.div_add_l by lia.
    change (1 / 2) with 0; lia.
  - rewrite Pos2Z.inj_xO, Z.mul_comm, Z.div_mul by lia; reflexivity.
  - reflexivity.
Qed.

Lemma pow2_xI (p : positive) :
  2 ^ Z.pos p~1 = 2 * (2 ^ Z.pos p * 2 ^ Z.pos p).
Proof.
  rewrite (Pos2Z.inj_xI p).
  replace (2 * Z.pos p + 1) with (1 + (Z.pos p + Z.pos p)) by lia.
  rewrite !Z.pow_add_r by lia; reflexivity.
Qed.

Lemma pow2_xO (p : positive) : 2 ^ Z.pos p~0 = 2 ^ Z.pos p * 2 ^ Z.pos p.
Proof.
  rewrite (Pos2Z.inj_xO p).
  replace (2 * Z.pos p) with (Z.pos p + Z.pos p) by lia.
  rewrite Z.pow_add_r by lia; reflexivity.
Qed.

Lemma pow2_pos (k : Z) : 0 <= k -> 0 < 2 ^ k.
Proof. intros H; apply Z.pow_pos_nonneg; lia. Qed.

Lemma iter_shr_1_m (p : positive) :
  forall mrs, 0 <= shr_m mrs ->
    shr_m (@SpecFloat.iter_pos _ shr_1 p mrs) = shr_m mrs / 2 ^ Z.pos p.
Proof.
  assert (Nn : forall mrs, 0 <= shr_m mrs -> 0 <= shr_m (shr_1 mrs)).
  { intros mrs H; rewrite shr_1_m by exact H; apply Z.div_pos; lia. }
  induction p as [p IH|p IH|]; intros mrs H; cbn [SpecFloat.iter_pos].
  - assert (H1 := Nn mrs H).
    assert (H2 : 0 <= shr_m (@SpecFloat.iter_pos _ shr_1 p (shr_1 mrs))).
    { rewrite IH by exact H1; apply Z.div_pos; [exact H1|].
      apply pow2_pos; lia. }
    pose proof (pow2_pos (Z.pos p) ltac:(lia)) as Pp.
    rewrite IH, IH, shr_1_m by assumption.
    rewrite !Z.div_div by nia.
    rewrite pow2_xI; reflexivity.
  - assert (H2 : 0 <= shr_m (@SpecFloat.iter_pos _ shr_1 p mrs)).
    { rewrite IH by exact H; apply Z.div_pos; [exact H|].
      apply pow2_pos; lia. }
    pose proof (pow2_pos (Z.pos p) ltac:(lia)) as Pp.
    rewrite IH, IH by assumption.
    rewrite Z.div_div by lia.
    rewrite pow2_xO; reflexivity.
  - rewrite shr_1_m by exact H; reflexivity.
Qed.

(** A right shift by [n] places divides the mantissa by [2^n]. *)
Lemma shr_m_spec (mrs : shr_record) (e n : Z) :
  0 <= shr_m mrs ->
  snd (shr mrs e n) = e + Z.max 0 n
  /\ shr_m (fst (shr mrs e n)) = shr_m mrs / 2 ^ Z.max 0 n.
Proof.
  intros H; unfold shr; destruct n as [|p|p]; cbn [fst snd].
  - rewrite Z.div_1_r; split; [lia|reflexivity].
  - rewrite iter_shr_1_m by exact H.
    replace (Z.max 0 (Z.pos p)) with (Z.pos p) by lia.
    split; reflexivity.
  - replace (Z.max 0 (Z.neg p)) with 0 by lia.
    rewrite Z.div_1_r; split; [lia|reflexivity].
Qed.

Lemma digits2_pos_lower (p : positive) :
  2 ^ (Z.pos (digits2_pos p) - 1) <= Z.pos p.
Proof.
  induction p as [p IH|p IH|]; cbn [digits2_pos].
  - rewrite Pos2Z.inj_succ.
    replace (Z.succ (Z.pos (digits2_pos p)) - 1)
      with (1 + (Z.pos (digits2_pos p) - 1)) by lia.
    rewrite Z.pow_add_r by lia. lia.
  - rewrite Pos2Z.inj_succ.
    replace (Z.succ (Z.pos (digits2_pos p)) - 1)
      with (1 + (Z.pos (digits2_pos p) - 1)) by lia.
    rewrite Z.pow_add_r by lia. lia.
  - reflexivity.
Qed.

(** A mantissa below [2^k] has at most [k] binary digits. *)
Lemma Zdigits2_le (m k : Z) : 0 <= m -> 0 <= k -> m < 2 ^ k -> Zdigits2 m <= k.
Proof.
  intros Hm Hk H; destruct m as [|p|p]; cbn [Zdigits2]; [lia| |lia].
  pose proof (digits2_pos_lower p) as L.
  assert (2 ^ (Z.pos (digits2_pos p) - 1) < 2 ^ k) by lia.
  apply Z.pow_lt_mono_r_iff in H0; lia.
Qed.

Lemma fexp_small (z : Z) : z <= 8 -> fexp prec emax z <= -45.
Proof. unfold fexp, SpecFloat.emin, prec, emax; lia. Qed.

(** The right shift that rounding applies, on a mantissa that stands for
    a value of at most [255 + c * 2^-K]. *)
Lemma shr_fexp_bound (m K c : Z) (l : location) :
  0 <= m -> 45 <= K -> 0 <= c <= 1 -> m <= 255 * 2 ^ K + c ->
  exists K',
    snd (shr_fexp prec emax m (- K) l) = - K'
    /\ 45 <= K' <= K
    /\ 0 <= shr_m (fst (shr_fexp prec emax m (- K) l)) <= 255 * 2 ^ K' + c.
Proof.
  intros Hm HK Hc Hb; unfold shr_fexp.
  set (n := fexp prec emax (Zdigits2 m + - K) - - K).
  assert (Hn : n <= K - 45).
  { assert (PK : 4 <= 2 ^ K).
    { change 4 with (2 ^ 2); apply Z.pow_le_mono_r; lia. }
    assert (D : Zdigits2 m <= K + 8).
    { apply Zdigits2_le; [exact Hm|lia|].
      rewrite Z.pow_add_r by lia. change (2 ^ 8) with 256. lia. }
    pose proof (fexp_small (Zdigits2 m + - K) ltac:(lia)).
    unfold n; lia. }
  assert (M0 : shr_m (shr_record_of_loc m l) = m).
  { destruct l as [|[| |]]; reflexivity. }
  destruct (shr_m_spec (shr_record_of_loc m l) (- K) n) as [E S];
    [rewrite M0; exact Hm|].
  rewrite M0 in S.
  exists (K - Z.max 0 n); rewrite E, S.
  set (N := Z.max 0 n) in *.
  assert (HN : 0 <= N <= K - 45) by (unfold N; lia).
  pose proof (pow2_pos N ltac:(lia)) as PN.
  pose proof (pow2_pos (K - N) ltac:(lia)) as PK'.
  split; [lia|split; [lia|split]].
  - apply Z.div_pos; lia.
  - assert (Split : 2 ^ K = 2 ^ (K - N) * 2 ^ N).
    { rewrite <- Z.pow_add_r by lia. f_equal; lia. }
    apply Z.le_trans with ((255 * 2 ^ K + c) / 2 ^ N).
    { apply Z.div_le_mono; lia. }
    rewrite Split, Z.mul_assoc, Z.div_add_l by lia.
    assert (c / 2 ^ N <= c).
    { apply Z.div_le_upper_bound; nia. }
    lia.
Qed.

Lemma round_nearest_even_bounds (m : Z) (l : location) :
  m <= round_nearest_even m l <= m + 1.
Proof.
  destruct l as [|[| |]]; cbn [round_nearest_even]; try lia.
  destruct (Z.even m); lia.
Qed.

(** Rounding an exact product of at most 255 gives zero or a finite
    Number of at most [255 + 2^-K]. *)
Lemma round_aux_bound (M K : Z) :
  0 <= M -> 45 <= K -> M <= 255 * 2 ^ K ->
  binary_round_aux prec emax false M (- K) loc_Exact = S754_zero false
  \/ exists m3 K3,
       binary_round_aux prec emax false M (- K) loc_Exact
       = S754_finite false m3 (- K3)
       /\ 45 <= K3 /\ Z.pos m3 <= 255 * 2 ^ K3 + 1.
Proof.
  intros HM HK Hb; unfold binary_round_aux.
  destruct (shr_fexp_bound M K 0 loc_Exact HM HK ltac:(lia) ltac:(lia))
    as [K1 [E1 [HK1 B1]]].
  destruct (shr_fexp prec emax M (- K) loc_Exact) as [mrs1 e1].
  cbn [fst snd] in E1, B1; subst e1.
  pose proof (round_nearest_even_bounds (shr_m mrs1)
                (loc_of_shr_record mrs1)) as R.
  set (m2 := round_nearest_even (shr_m mrs1) (loc_of_shr_record mrs1)) in *.
  destruct (shr_fexp_bound m2 K1 1 loc_Exact ltac:(lia) ltac:(lia)
              ltac:(lia) ltac:(lia)) as [K3 [E3 [HK3 B3]]].
  destruct (shr_fexp prec emax m2 (- K1) loc_Exact) as [mrs3 e3].
  cbn [fst snd] in E3, B3; subst e3.
  destruct (shr_m mrs3) as [|p|p]; [left; reflexivity| |lia].
  right; exists p, K3.
  replace (- K3 <=? emax - prec) with true
    by (symmetry; apply Z.leb_le; unfold emax, prec; lia).
  repeat split; lia.
Qed.

Lemma toString_small_integers (r : Z) :
  1 <= r <= 255 -> toString (ofZ r) = decZ r.
Proof.
  intros H.
  assert (T : forallb
                (fun n => String.eqb (toString (ofZ (Z.of_nat n)))
                            (decZ (Z.of_nat n)))
                (seq 1 255) = true) by (vm_compute; reflexivity).
  rewrite forallb_forall in T.
  specialize (T (Z.to_nat r)).
  rewrite Z2Nat.id in T by lia.
  apply String.eqb_eq, T, in_seq; lia.
Qed.

(** On such a Number, [Math.round] and the conversion to a string give
    the decimal digits of the nearest integer, halves up. *)
Lemma round_toString (y : number) :
  (y = S754_zero false
   \/ exists m3 K3, y = S754_finite false m3 (- K3)
                    /\ 45 <= K3 /\ Z.pos m3 <= 255 * 2 ^ K3 + 1) ->
  toString (Math_round y) = decZ (nearestHalfUp (valueQ y)).
Proof.
  intros [->|[m3 [K3 [-> [HK Hb]]]]]; [reflexivity|].
  pose proof (pow2_pos K3 ltac:(lia)) as PK.
  unfold Math_round, valueQ.
  replace (0 <=? - K3) with false by (symmetry; apply Z.leb_gt; lia).
  rewrite Z.opp_involutive.
  unfold nearestHalfUp, Qplus, Qfloor; cbn [Qnum Qden].
  rewrite Pos2Z.inj_mul, Z2Pos.id by exact PK.
  replace (Z.pos m3 * 2 + 1 * 2 ^ K3) with (2 * Z.pos m3 + 2 ^ K3) by lia.
  replace (2 ^ K3 * 2) with (2 ^ (K3 + 1))
    by (rewrite Z.pow_add_r by lia; reflexivity).
  set (r := (2 * Z.pos m3 + 2 ^ K3) / 2 ^ (K3 + 1)).
  assert (Hr : 0 <= r <= 255).
  { pose proof (pow2_pos (K3 + 1) ltac:(lia)) as PK1.
    assert (P2 : 2 ^ (K3 + 1) = 2 * 2 ^ K3)
      by (rewrite Z.pow_add_r by lia; change (2 ^ 1) with 2; lia).
    assert (Big : 4 <= 2 ^ K3).
    { change 4 with (2 ^ 2); apply Z.pow_le_mono_r; lia. }
    split; [apply Z.div_pos; lia|].
    assert (r < 256); [|lia].
    apply Z.div_lt_upper_bound; lia. }
  destruct (Z.eqb_spec r 0) as [->|Hz]; [reflexivity|].
  apply toString_small_integers; lia.
Qed.

Lemma ofZ_255 : ofZ 255 = S754_finite false 8972014882652160 (-45).
Proof. reflexivity. Qed.

(** A Number in the unit interval, scaled and rounded as [channel] does. *)
Lemma unit_scaled (x : number) :
  inUnit x = true ->
  toString (Math_round (mul (if truthy x then x else ofZ 0) (ofZ 255)))
  = scaled255 x.
Proof.
  unfold scaled255; destruct x as [s|s| |s m e]; cbn [inUnit truthy];
    try discriminate.
  - intros _; destruct s; reflexivity.
  - destruct s; [discriminate|]; intros U.
    apply round_toString.
    rewrite ofZ_255; unfold mul; cbn [SFmul xorb].
    assert (He : e <= 0 /\ Z.pos m <= 2 ^ (- e)).
    { unfold valueQ in U.
      destruct (Z.leb_spec 0 e) as [P|N].
      - unfold Qle_bool, inject_Z in U; cbn [Qnum Qden] in U.
        apply Z.leb_le in U.
        destruct (Z.eq_dec e 0) as [->|Ne]; [simpl in *; lia|].
        assert (2 <= 2 ^ e).
        { change 2 with (2 ^ 1) at 1; apply Z.pow_le_mono_r; lia. }
        nia.
      - unfold Qle_bool in U; cbn [Qnum Qden] in U.
        apply Z.leb_le in U.
        rewrite Z2Pos.id in U by (apply pow2_pos; lia). lia. }
    destruct He as [He Hm].
    replace (e + -45) with (- (- e + 45)) by lia.
    apply round_aux_bound; [lia|lia|].
    rewrite Pos2Z.inj_mul, Z.pow_add_r by lia.
    change (2 ^ 45) with 35184372088832.
    change (Z.pos 8972014882652160) with (255 * 35184372088832).
    pose proof (pow2_pos (- e) ltac:(lia)).
    nia.
Qed.

End Rounding.

Lemma inUnit_text (s : string) :
  inUnit (StringToNumber s) = true ->
  String.eqb s "," = false /\ s <> ")".
Proof.
  intros H; split; [apply String.eqb_neq|]; intros ->;
    vm_compute in H; discriminate.
Qed.

(** C7.  On a call [color.color3(r, g, b)] whose arguments are number
    tokens with values in the unit interval, the value parser returns
    [rgb(R, G, B)] where each channel is the decimal text of the nearest
    integer, halves up, to the binary64 product of the argument and
    255. *)
Theorem color3_channels
    (pre post : list token) (c dot f lp r c1 g c2 b rp : token)
    (errs : list string) (st fuel : nat) :
  t c = IDENT -> v c = "color" -> v dot = "." -> v f = "color3" ->
  v lp = "(" -> v c1 = "," -> v c2 = "," -> v rp = ")" ->
  t r = NUMBER -> t g = NUMBER -> t b = NUMBER ->
  inUnit (StringToNumber (v r)) = true ->
  inUnit (StringToNumber (v g)) = true ->
  inUnit (StringToNumber (v b)) = true ->
  5 < fuel ->
  parseValue fuel
    (mkParser (pre ++ [c; dot; f; lp; r; c1; g; c2; b; rp] ++ post)
       (List.length pre) errs st)
  = Ret ("rgb(" +++ scaled255 (StringToNumber (v r)) +++ ", "
           +++ scaled255 (StringToNumber (v g)) +++ ", "
           +++ scaled255 (StringToNumber (v b)) +++ ")",
         mkParser (pre ++ [c; dot; f; lp; r; c1; g; c2; b; rp] ++ post)
           (List.length pre + 10) errs (st + 5))
  /\ compileLuaCSS "a = { c = color.color3(1, 0, 0.5) }"
     = Ret (mkCompiled
              (Some ("a {" +++ String "010" "" +++ "  c: rgb(255, 0, 128);"
                       +++ String "010" "" +++ "}"))
              []).
Proof.
  intros Tc Vc Vd Vf Vl V1 V2 Vr Tr Tg Tb Ur Ug Ub L.
  split; [|vm_compute; reflexivity].
  destruct (inUnit_text _ Ur) as [Cr Pr].
  destruct (inUnit_text _ Ug) as [Cg Pg].
  destruct (inUnit_text _ Ub) as [Cb Pb].
  cbn [app].
  change (mkParser
            (pre ++ c :: dot :: f :: lp :: r :: c1 :: g :: c2 :: b :: rp :: post)
            (List.length pre) errs st)
    with (at_ pre
            (c :: dot :: f :: lp :: r :: c1 :: g :: c2 :: b :: rp :: post)
            0 errs st).
  unfold parseValue, peekV.
  rewrite !peek_at; cbn [Nat.add nth_error option_map same].
  rewrite Tc, Vc, Vd; cbn [TOKEN_eqb String.eqb Ascii.eqb Bool.eqb andb].
  unfold parseColor.
  rewrite eat_at; cbv beta iota.
  rewrite (expect_at "." pre
             (c :: dot :: f :: lp :: r :: c1 :: g :: c2 :: b :: rp :: post)
             1 errs st dot eq_refl Vd);
    cbv beta iota.
  rewrite eat_at; cbv beta iota.
  rewrite (expect_at "(" pre
             (c :: dot :: f :: lp :: r :: c1 :: g :: c2 :: b :: rp :: post)
             3 errs st lp eq_refl Vl);
    cbv beta iota.
  cbn [nth_error].
  assert (F : Forall (fun a => v a <> ")") [r; c1; g; c2; b]).
  { repeat constructor; try assumption; rewrite ?V1, ?V2; discriminate. }
  pose proof (parseColor_args_scan [r; c1; g; c2; b] fuel pre
                [c; dot; f; lp] rp post [] errs st L F Vr) as Scan.
  cbn [List.length app Nat.add] in Scan; rewrite Scan; cbn [bind].
  rewrite (expect_at ")" pre
             (c :: dot :: f :: lp :: r :: c1 :: g :: c2 :: b :: rp :: post)
             9 errs (st + 5) rp eq_refl Vr).
  cbv beta iota.
  unfold argsOf; cbn [flat_map app].
  rewrite Cr, Cg, Cb, V1, V2, Tr, Tg, Tb; cbn [String.eqb Ascii.eqb Bool.eqb app].
  unfold colorValue; rewrite Vf.
  cbn [String.eqb Ascii.eqb Bool.eqb].
  unfold channel, arg_toNumber; cbn [nth_error].
  rewrite !unit_scaled by assumption.
  unfold at_; cbn [tokens pos errors steps].
  do 3 f_equal; lia.
Qed.

Lemma color3_channels_witness :
  parseValue 6
    (mkParser
       [tok IDENT "c"; tok PUNCT "=";
        tok IDENT "color"; tok PUNCT "."; tok IDENT "color3"; tok PUNCT "(";
        mkToken NUMBER "1" (Some ""); tok PUNCT ",";
        mkToken NUMBER "0" (Some ""); tok PUNCT ",";
        mkToken NUMBER "0.5" (Some ""); tok PUNCT ")"; tok PUNCT "}"]
       2 [] 0)
  = Ret ("rgb(255, 0, 128)",
         mkParser
           [tok IDENT "c"; tok PUNCT "=";
            tok IDENT "color"; tok PUNCT "."; tok IDENT "color3";
            tok PUNCT "(";
            mkToken NUMBER "1" (Some ""); tok PUNCT ",";
            mkToken NUMBER "0" (Some ""); tok PUNCT ",";
            mkToken NUMBER "0.5" (Some ""); tok PUNCT ")"; tok PUNCT "}"]
           12 [] 5)
  /\ compileLuaCSS "a = { c = color.color3(1, 0, 0.5) }"
     = Ret (mkCompiled
              (Some ("a {" +++ String "010" "" +++ "  c: rgb(255, 0, 128);"
                       +++ String "010" "" +++ "}"))
              []).
Proof.
  apply (color3_channels
           [tok IDENT "c"; tok PUNCT "="] [tok PUNCT "}"]
           (tok IDENT "color") (tok PUNCT ".") (tok IDENT "color3")
           (tok PUNCT "(")
           (mkToken NUMBER "1" (Some "")) (tok PUNCT ",")
           (mkToken NUMBER "0" (Some "")) (tok PUNCT ",")
           (mkToken NUMBER "0.5" (Some "")) (tok PUNCT ")") [] 0 6);
    try reflexivity.
  simpl; lia.
Defined.

(** * Further properties *)

(** ** Tokens: shape, extent and source text *)

Lemma span_spec (p : ascii -> bool) (s : string) :
  fst (span p s) +++ snd (span p s) = s
  /\ allChars p (fst (span p s)) = true
  /\ stopsAt p (snd (span p s)) = true.
Proof.
  induction s as [|c s [IH1 [IH2 IH3]]]; cbn [span].
  - repeat split.
  - destruct (p c) eqn:Hc.
    + destruct (span p s) as [a b]; cbn [fst snd] in *.
      cbn [append allChars]; rewrite IH1, Hc, IH2; repeat split; exact IH3.
    + cbn [fst snd append allChars stopsAt]; rewrite Hc; repeat split.
Qed.

Lemma startsNumber_unsigned (c : ascii) (s' : string) :
  startsNumber (String c s') = true ->
  Ascii.eqb c "-" || Ascii.eqb c "+" = false ->
  isNumChar c = true.
Proof.
  intros Hn Hsign.
  unfold startsNumber, chEq, chIs, ch in Hn; simpl in Hn.
  apply orb_false_iff in Hsign as [S1 S2].
  rewrite S1, S2 in Hn; simpl in Hn.
  rewrite orb_false_r in Hn.
  unfold isNumChar.
  destruct (isDigit c); simpl in *; [reflexivity|].
  apply andb_true_iff in Hn as [Hn _]; exact Hn.
Qed.

Lemma startsNumber_signed (c : ascii) (s' : string) :
  startsNumber (String c s') = true ->
  Ascii.eqb c "-" || Ascii.eqb c "+" = true ->
  exists d r, s' = String d r /\ isNumChar d = true.
Proof.
  intros Hn Hsign.
  assert (Hd : isDigit c = false /\ Ascii.eqb c "." = false).
  { apply orb_true_iff in Hsign as [E|E]; apply Ascii.eqb_eq in E;
      subst c; split; reflexivity. }
  destruct Hd as [D1 D2].
  unfold startsNumber, chEq, chIs, ch in Hn; simpl in Hn.
  rewrite D1, D2, Hsign in Hn; simpl in Hn.
  destruct s' as [|d r]; simpl in Hn; [discriminate|].
  exists d, r; split; [reflexivity|].
  unfold isNumChar.
  destruct (isDigit d); simpl in *; [reflexivity|].
  apply andb_true_iff in Hn as [Hn _]; exact Hn.
Qed.

(** One turn of the tokenizer: the token has the shape of its kind, ends
    where its kind ends, and unless it is a string its text followed by the
    rest is the input. *)
Lemma lexToken_spec (c : ascii) (s' : string) :
  wellFormed (fst (lexToken c s')) = true
  /\ endsRight (fst (lexToken c s')) (snd (lexToken c s')) = true
  /\ (t (fst (lexToken c s')) <> STRING ->
      rawText (fst (lexToken c s')) +++ snd (lexToken c s') = String c s').
Proof.
  unfold lexToken.
  destruct (chEq 0 (String c s') "-" && chEq 1 (String c s') "-") eqn:Hc.
  { apply andb_true_iff in Hc as [H0 H1].
    unfold chEq, chIs, ch in H0, H1; simpl in H0, H1.
    apply Ascii.eqb_eq in H0; subst c.
    destruct s' as [|d r]; simpl in H1; [discriminate|].
    apply Ascii.eqb_eq in H1; subst d.
    change (fun d : ascii => negb (Ascii.eqb d "010")) with notNewline.
    destruct (span_spec notNewline r) as [A [B C]].
    cbn [span]; change (notNewline "-") with true; cbv iota.
    destruct (span notNewline r) as [a b]; cbn [fst snd] in *.
    unfold wellFormed, endsRight, rawText, tok; cbn [t v unit fst snd].
    rewrite B, C, append_assoc; cbn [append]; rewrite A.
    repeat split. }
  destruct (isSpace c) eqn:Hs.
  { destruct (span_spec isSpace s') as [A [B C]].
    cbn [span]; rewrite Hs.
    destruct (span isSpace s') as [a b]; cbn [fst snd] in *.
    unfold wellFormed, endsRight, rawText, tok; cbn [t v unit fst snd].
    rewrite Hs, B, C, append_assoc; cbn [append]; rewrite A.
    repeat split. }
  destruct (chEq 0 (String c s') "0" && _) eqn:Hx.
  { apply andb_true_iff in Hx as [H0 H1].
    unfold chEq, chIs, ch in H0, H1; simpl in H0, H1.
    apply Ascii.eqb_eq in H0; subst c.
    destruct s' as [|x r]; simpl in H1; [discriminate|].
    change (drop 2 (String "0" (String x r))) with r.
    destruct (span_spec isHexDigit r) as [A [B C]].
    destruct (span isHexDigit r) as [a b]; cbn [fst snd] in *.
    unfold wellFormed, endsRight, rawText, tok;
      cbn [t v unit fst snd take append].
    rewrite H1, B, C, append_assoc; cbn [append]; rewrite A.
    repeat split. }
  destruct (Ascii.eqb c "034" || Ascii.eqb c "'") eqn:Hq.
  { destruct (scanString c s') as [w r]; cbn [fst snd].
    repeat split; intros H; exfalso; apply H; reflexivity. }
  destruct (startsNumber (String c s')) eqn:Hn.
  { destruct (Ascii.eqb c "-" || Ascii.eqb c "+") eqn:Hsign.
    - destruct (startsNumber_signed c s' Hn Hsign) as [d [r [-> Hd]]].
      destruct (span_spec isNumChar r) as [A [B _]].
      cbn [span]; rewrite Hd.
      destruct (span isNumChar r) as [dg s2]; cbn [fst snd] in *.
      destruct (span_spec isUnitChar s2) as [A' [B' C']].
      destruct (span isUnitChar s2) as [u r']; cbn [fst snd] in *.
      unfold wellFormed, endsRight, rawText, numberText;
        cbn [t v unit fst snd append].
      rewrite Hsign; cbn [String.eqb negb andb allChars].
      rewrite Hd, B, B', C'; repeat split.
      intros _. rewrite append_assoc, A', A; reflexivity.
    - pose proof (startsNumber_unsigned c s' Hn Hsign) as Hd.
      destruct (span_spec isNumChar s') as [A [B _]].
      cbn [span]; rewrite Hd.
      destruct (span isNumChar s') as [dg s2]; cbn [fst snd] in *.
      destruct (span_spec isUnitChar s2) as [A' [B' C']].
      destruct (span isUnitChar s2) as [u r']; cbn [fst snd] in *.
      unfold wellFormed, endsRight, rawText, numberText;
        cbn [t v unit fst snd append].
      rewrite Hsign; cbn [String.eqb negb andb allChars].
      rewrite Hd, B, B', C'; repeat split.
      intros _. rewrite append_assoc, A', A; reflexivity. }
  destruct (isIdentStart c) eqn:Hi.
  { assert (Hd : isIdentChar c = true).
    { unfold isIdentStart in Hi; unfold isIdentChar.
      destruct (isAlpha c); simpl in *; [reflexivity|].
      rewrite Hi; destruct (isDigit c); reflexivity. }
    destruct (span_spec isIdentChar s') as [A [B C]].
    cbn [span]; rewrite Hd.
    destruct (span isIdentChar s') as [a b]; cbn [fst snd] in *.
    unfold wellFormed, endsRight, rawText, tok; cbn [t v unit fst snd].
    rewrite Hi, B, C, append_assoc; cbn [append]; rewrite A.
    repeat split. }
  unfold wellFormed, endsRight, rawText, tok; cbn [t v unit fst snd].
  fold (isQuote c) in Hq.
  assert (Hdg : isDigit c = false).
  { destruct (isDigit c) eqn:D; [|reflexivity].
    unfold startsNumber, chIs, ch in Hn; simpl in Hn.
    rewrite D in Hn; discriminate. }
  rewrite Hs, Hq, Hdg, Hi; repeat split.
Qed.

Lemma tokenize_Some (src : string) : exists toks, tokenize src = Some toks.
Proof.
  destruct (tokenize_loop_total (String.length src) src (le_n _))
    as [toks [E _]].
  exists toks; exact E.
Qed.

Lemma tokenize_cons_inv (c : ascii) (s' : string) (toks : list token) :
  tokenize (String c s') = Some toks ->
  exists rest,
    toks = fst (lexToken c s') :: rest
    /\ tokenize (snd (lexToken c s')) = Some rest.
Proof.
  rewrite tokenize_step; intros H.
  destruct (tokenize (snd (lexToken c s'))) as [rest|]; [|discriminate].
  exists rest; inversion H; split; reflexivity.
Qed.

(** Induction on the input along the turns of the tokenizer loop. *)
Lemma tokenize_ind (Q : string -> list token -> Prop) :
  Q "" [] ->
  (forall c s' rest,
      tokenize (snd (lexToken c s')) = Some rest ->
      Q (snd (lexToken c s')) rest ->
      Q (String c s') (fst (lexToken c s') :: rest)) ->
  forall src toks, tokenize src = Some toks -> Q src toks.
Proof.
  intros H0 Hs.
  assert (G : forall n src toks,
             String.length src <= n -> tokenize src = Some toks ->
             Q src toks).
  { induction n as [|n IH]; intros [|c s'] toks L E; simpl in L; try lia.
    - inversion E; exact H0.
    - inversion E; exact H0.
    - destruct (tokenize_cons_inv c s' toks E) as [rest [-> Er]].
      apply Hs; [exact Er|].
      apply IH; [|exact Er].
      pose proof (lexToken_progress c s'); lia. }
  intros src toks; apply (G (String.length src)); lia.
Qed.

(** X1.  Every token that [tokenize] returns has the shape of its kind:
    a comment opens on two dashes and holds no line end, white space is a
    non-empty run of white space, a hex literal is [0x] or [0X] and hex
    digits, a number is an optional sign and a non-empty run of digits and
    dots with a unit of letters and percent signs, an identifier opens on
    a letter or underscore and goes on with letters, digits, underscores
    and dashes, and punctuation is one character that is no white space,
    quote, digit, letter or underscore. *)
Theorem tokens_well_formed (src : string) :
  exists toks,
    tokenize src = Some toks /\ forallb wellFormed toks = true.
Proof.
  destruct (tokenize_Some src) as [toks E]; exists toks; split; [exact E|].
  revert src toks E; apply tokenize_ind; [reflexivity|].
  intros c s' rest _ IH; cbn [forallb]; rewrite IH.
  destruct (lexToken_spec c s') as [W _]; rewrite W; reflexivity.
Qed.

(** X2.  Runs are maximal: after a turn of the tokenizer loop the input
    left is empty or opens on a character that could not extend the
    token, a line end after a comment, a character outside the class of
    the run after white space, hex digits, a unit or an identifier. *)
Theorem token_runs_are_maximal (c : ascii) (s' : string) :
  endsRight (fst (lexToken c s')) (snd (lexToken c s')) = true.
Proof. destruct (lexToken_spec c s') as [_ [M _]]; exact M. Qed.

(** X3.  Outside string literals the tokenizer loses no character: when
    no token is a string, the texts of the tokens, units included, put
    end to end are the input. *)
Theorem token_text_coverage (src : string) (toks : list token) :
  tokenize src = Some toks ->
  forallb notString toks = true ->
  sourceText toks = src.
Proof.
  revert src toks; apply (tokenize_ind
    (fun src toks => forallb notString toks = true -> sourceText toks = src)).
  - reflexivity.
  - intros c s' rest _ IH H; cbn [forallb] in H.
    apply andb_true_iff in H as [H1 H2].
    cbn [sourceText fold_right]; fold (sourceText rest).
    rewrite (IH H2).
    destruct (lexToken_spec c s') as [_ [_ T]]; apply T.
    unfold notString in H1; intros E; rewrite E in H1; discriminate.
Qed.

Lemma token_text_coverage_witness :
  sourceText
    [tok IDENT "a"; tok PUNCT "="; mkToken NUMBER "-1.5" (Some "px");
     tok WS " "; tok COMMENT "--x"]
  = "a=-1.5px --x".
Proof.
  apply (token_text_coverage "a=-1.5px --x"); reflexivity.
Defined.

(** ** String literals *)

Lemma scanString_escape (q : ascii) (w rest : string) :
  isQuote q = true ->
  scanString q (escape w +++ String q rest) = (w, rest).
Proof.
  intros Hq.
  assert (Nb : Ascii.eqb "\" q = false).
  { unfold isQuote in Hq; apply orb_true_iff in Hq as [E|E];
      apply Ascii.eqb_eq in E; subst q; reflexivity. }
  induction w as [|c w IH]; cbn [escape append scanString].
  - rewrite Ascii.eqb_refl; reflexivity.
  - destruct (Ascii.eqb c "\" || isQuote c) eqn:Hc.
    + cbn [append scanString]; rewrite Nb, Ascii.eqb_refl.
      cbn [append]; rewrite IH; reflexivity.
    + apply orb_false_iff in Hc as [Hb Hn].
      cbn [append scanString]; rewrite Hb.
      assert (Ncq : Ascii.eqb c q = false).
      { destruct (Ascii.eqb_spec c q) as [->|]; [|reflexivity].
        rewrite Hq in Hn; discriminate. }
      rewrite Ncq, IH; reflexivity.
Qed.

(** X4.  A string literal reads back what was written: for either quote,
    a body in which every backslash and every quote stands behind a
    backslash, closed by the opening quote, gives a string token whose
    value is the body without the backslashes added, and the input behind
    the closing quote is left. *)
Theorem string_literal_round_trip (q : ascii) (w rest : string) :
  isQuote q = true ->
  lexToken q (escape w +++ String q rest) = (tok STRING w, rest)
  /\ tokenize (String q (escape w +++ String q "")) = Some [tok STRING w].
Proof.
  intros Hq.
  assert (L : forall r, lexToken q (escape w +++ String q r)
                        = (tok STRING w, r)).
  { intros r; unfold lexToken.
    unfold isQuote in Hq.
    assert (E : q = "034"%char \/ q = "'"%char).
    { apply orb_true_iff in Hq as [E|E]; apply Ascii.eqb_eq in E; auto. }
    destruct E as [->| ->];
      cbn [chEq chIs ch String.get Ascii.eqb Bool.eqb andb orb];
      (replace (isSpace _) with false by reflexivity);
      cbv iota; rewrite scanString_escape by reflexivity; reflexivity. }
  split; [apply L|].
  rewrite tokenize_step, L; reflexivity.
Qed.

Lemma string_literal_round_trip_witness :
  lexToken "'" ("it\'s a \\" +++ String "'" " }")
  = (tok STRING "it's a \", " }")
  /\ tokenize (String "'" ("it\'s a \\" +++ String "'" ""))
     = Some [tok STRING "it's a \"].
Proof. exact (string_literal_round_trip "'" "it's a \" " }" eq_refl). Defined.




(** ** Hyphenation and selectors *)

Lemma hyphenate_plain (key : string) :
  hyphenate key = replaceAllChar "_" "-" key.
Proof. apply replace_plain; reflexivity. Qed.

Lemma replaceAllChar_absent (c : ascii) (r s : string) :
  includes c s = false -> replaceAllChar c r s = s.
Proof.
  induction s as [|d s IH]; intros H; [reflexivity|].
  cbn [includes] in H; apply orb_false_iff in H as [Hd Hs].
  cbn [replaceAllChar]; rewrite Hd, (IH Hs); reflexivity.
Qed.

Lemma hyphenate_no_underscore (key : string) :
  includes "_" (hyphenate key) = false.
Proof.
  rewrite hyphenate_plain.
  induction key as [|c k IH]; [reflexivity|].
  cbn [replaceAllChar].
  destruct (Ascii.eqb c "_") eqn:E; cbn [append includes].
  - exact IH.
  - rewrite E; exact IH.
Qed.

(** X6.  Hyphenation of a key leaves no underscore and keeps the length,
    and hyphenating twice is hyphenating once. *)
Theorem hyphenate_idempotent (key : string) :
  includes "_" (hyphenate key) = false
  /\ String.length (hyphenate key) = String.length key
  /\ hyphenate (hyphenate key) = hyphenate key.
Proof.
  pose proof (hyphenate_no_underscore key) as N.
  split; [exact N|split].
  - rewrite hyphenate_plain; clear N.
    induction key as [|c k IH]; [reflexivity|].
    cbn [replaceAllChar].
    destruct (Ascii.eqb c "_"); cbn [append String.length];
      rewrite IH; reflexivity.
  - rewrite (hyphenate_plain (hyphenate key)).
    apply replaceAllChar_absent; exact N.
Qed.

Lemma includes_app (c : ascii) (a b : string) :
  includes c (a +++ b) = includes c a || includes c b.
Proof.
  induction a as [|d a IH]; [reflexivity|].
  cbn [append includes]; rewrite IH, orb_assoc; reflexivity.
Qed.

Lemma startsWith_app (c : ascii) (a b : string) :
  a <> "" -> startsWith c (a +++ b) = startsWith c a.
Proof. destruct a; [contradiction|reflexivity]. Qed.

(** X7.  Nesting without ampersands is associative: for children that
    hold no ampersand, the first of them not empty, resolving the second
    under the first resolved under a parent is resolving, under the
    parent, the second resolved under the first. *)
Theorem resolveSelector_nesting (p b c : string) :
  includes "&" b = false -> includes "&" c = false -> b <> "" ->
  resolveSelector (resolveSelector p b) c
  = resolveSelector p (resolveSelector b c).
Proof.
  intros Hb Hc Nb; unfold resolveSelector; rewrite Hb, Hc.
  destruct (startsWith ":" b) eqn:Sb; destruct (startsWith ":" c) eqn:Sc;
    rewrite ?includes_app, ?Hb, ?Hc; cbn [includes orb Ascii.eqb Bool.eqb];
    rewrite ?startsWith_app, ?Sb by exact Nb;
    rewrite ?append_assoc; reflexivity.
Qed.

Lemma resolveSelector_nesting_witness :
  resolveSelector (resolveSelector "ul" "li") ":hover"
  = resolveSelector "ul" (resolveSelector "li" ":hover").
Proof.
  apply resolveSelector_nesting; [reflexivity|reflexivity|discriminate].
Defined.

(** X8.  With a parent that holds no dollar sign, [resolveSelector] puts
    the parent in the place of every ampersand of the child, as it is;
    without ampersand it appends the child, behind a space unless the
    child opens on a colon. *)
Theorem resolveSelector_literal (parent child : string) :
  includes "$" parent = false ->
  resolveSelector parent child
  = if includes "&" child then replaceAllChar "&" parent child
    else if startsWith ":" child then parent +++ child
         else parent +++ " " +++ child.
Proof. intros H; apply (resolveSelector_plain parent child H). Qed.

Lemma resolveSelector_literal_witness :
  resolveSelector ".card" "&:hover, & > &"
  = ".card:hover, .card > .card".
Proof. exact (resolveSelector_literal ".card" "&:hover, & > &" eq_refl). Defined.

(** X9.  The name map is hyphenation: for every key of the pseudo-class
    and pseudo-element sets, [pseudoSelector] appends to the parent one
    colon, or two for an element, and the hyphenated key; and every key of
    the name map is in one of the two sets. *)
Theorem pseudo_names_are_hyphenated (parent key : string) :
  isPseudo key = true ->
  pseudoSelector parent key
  = parent +++ (if has PSEUDO_ELEMENT key then "::" else ":")
      +++ hyphenate key
  /\ forallb (fun kv => isPseudo (fst kv)) PSEUDO_NAME_MAP = true.
Proof.
  intros H; split; [|reflexivity]; revert H.
  unfold isPseudo, has, PSEUDO_CLASS, PSEUDO_ELEMENT; cbn [existsb].
  repeat match goal with
         | |- context [String.eqb key ?s] =>
             destruct (String.eqb_spec key s) as [->|_];
               [intros _; reflexivity|cbn [orb]]
         end.
  discriminate.
Qed.

Lemma pseudo_names_are_hyphenated_witness :
  pseudoSelector "input" "focus_visible" = "input:focus-visible".
Proof.
  exact (proj1 (pseudo_names_are_hyphenated "input" "focus_visible" eq_refl)).
Defined.

(** ** Emission and flattening *)

Lemma join_app (sep : string) (a b : list string) :
  a <> [] -> b <> [] ->
  join sep (a ++ b) = join sep a +++ sep +++ join sep b.
Proof.
  intros Ha Hb; induction a as [|x a IH]; [contradiction|].
  destruct a as [|y a].
  - destruct b as [|z b]; [contradiction|reflexivity].
  - change (join sep ((x :: y :: a) ++ b))
      with (x +++ sep +++ join sep ((y :: a) ++ b)).
    rewrite IH by discriminate.
    change (join sep (x :: y :: a)) with (x +++ sep +++ join sep (y :: a)).
    rewrite !append_assoc; reflexivity.
Qed.

(** X10.  Emission composes: the stylesheet of two rule lists put end to
    end, neither empty, is the stylesheet of the first, one empty line,
    and the stylesheet of the second; the stylesheet of no rule is the
    empty text. *)
Theorem emit_app (a b : list Rule) :
  a <> [] -> b <> [] ->
  emit (a ++ b)
  = emit a +++ String "010" (String "010" "") +++ emit b
  /\ emit [] = "".
Proof.
  intros Ha Hb; split; [|reflexivity].
  unfold emit; rewrite map_app; apply join_app.
  - destruct a; [contradiction|discriminate].
  - destruct b; [contradiction|discriminate].
Qed.

Lemma emit_app_witness :
  emit ([mkRule "a" [mkDecl "x" "1"]] ++ [mkRule "b" [mkDecl "y" "2"]])
  = emit [mkRule "a" [mkDecl "x" "1"]]
      +++ String "010" (String "010" "")
      +++ emit [mkRule "b" [mkDecl "y" "2"]].
Proof.
  apply (emit_app [mkRule "a" [mkDecl "x" "1"]] [mkRule "b" [mkDecl "y" "2"]]);
    discriminate.
Defined.

(** X11.  Flattening neither loses nor repeats a declaration: the
    declarations of the rules after [collectChildren], in order, are
    those of the rules before it followed by those of every node of the
    forest in pre-order. *)
Theorem flattening_keeps_declarations (children : list RuleNode)
    (rules : list Rule) :
  concat (map props (collectChildren children rules))
  = concat (map props rules)
      ++ concat (map nodeProps (preorder_forest children)).
Proof.
  rewrite collectChildren_flatten, map_app, concat_app; f_equal.
  unfold flatten; generalize (preorder_forest children) as l.
  induction l as [|[sel ps cs] l IH]; [reflexivity|].
  cbn [filter hasDeclarations map concat nodeProps].
  destruct ps as [|d ps]; cbn [nonEmpty map concat flatRule props app].
  - exact IH.
  - rewrite IH; reflexivity.
Qed.

(** ** Lenient skipping *)

Lemma includes_cons (c d : ascii) (s : string) :
  includes c (String d s) = Ascii.eqb d c || includes c s.
Proof. reflexivity. Qed.

Lemma scanString_chars (q c : ascii) (s : string) :
  includes c (fst (scanString q s)) = true ->
  includes c s = true \/ includes c "undefined" = true.
Proof.
  assert (G : forall n s, String.length s <= n ->
              includes c (fst (scanString q s)) = true ->
              includes c s = true \/ includes c "undefined" = true).
  { induction n as [|n IHn]; intros s0 L.
    - destruct s0; [discriminate|cbn [String.length] in L; lia].
    - destruct s0 as [|a s0]; [discriminate|].
      cbn [String.length] in L; cbn [scanString].
      destruct (Ascii.eqb a q); [discriminate|].
      destruct (Ascii.eqb a "\").
      + destruct s0 as [|d s0]; [intros H; right; exact H|].
        cbn [String.length] in L.
        pose proof (IHn s0 ltac:(lia)) as IH.
        destruct (scanString q s0) as [w r]; cbn [fst] in *.
        rewrite !includes_cons; intros H.
        apply orb_true_iff in H as [H|H].
        * left; rewrite H, orb_true_r; reflexivity.
        * destruct (IH H) as [K|K];
            [left; rewrite K, !orb_true_r; reflexivity|right; exact K].
      + pose proof (IHn s0 ltac:(lia)) as IH.
        destruct (scanString q s0) as [w r]; cbn [fst] in *.
        rewrite !includes_cons; intros H.
        apply orb_true_iff in H as [H|H].
        * left; rewrite H; reflexivity.
        * destruct (IH H) as [K|K];
            [left; rewrite K, orb_true_r; reflexivity|right; exact K]. }
  exact (G (String.length s) s (le_n _)).
Qed.

Lemma scanString_rest_chars (q c : ascii) (s : string) :
  includes c s = false -> includes c (snd (scanString q s)) = false.
Proof.
  assert (G : forall n s, String.length s <= n ->
              includes c s = false ->
              includes c (snd (scanString q s)) = false).
  { induction n as [|n IHn]; intros s0 L.
    - destruct s0; [reflexivity|cbn [String.length] in L; lia].
    - destruct s0 as [|a s0]; [reflexivity|].
      cbn [String.length] in L; cbn [scanString].
      rewrite includes_cons; intros H.
      apply orb_false_iff in H as [_ H].
      destruct (Ascii.eqb a q); [exact H|].
      destruct (Ascii.eqb a "\").
      + destruct s0 as [|d s0]; [reflexivity|].
        cbn [String.length] in L.
        rewrite includes_cons in H; apply orb_false_iff in H as [_ H].
        pose proof (IHn s0 ltac:(lia) H) as IH.
        destruct (scanString q s0); exact IH.
      + pose proof (IHn s0 ltac:(lia) H) as IH.
        destruct (scanString q s0); exact IH. }
  exact (G (String.length s) s (le_n _)).
Qed.

Lemma lexToken_string (c : ascii) (s' : string) :
  t (fst (lexToken c s')) = STRING ->
  v (fst (lexToken c s')) = fst (scanString c s').
Proof.
  unfold lexToken.
  repeat match goal with
         | |- context [if ?b then _ else _] => destruct b
         | |- context [let (_, _) := ?x in _] => destruct x
         end; cbn [fst t v tok]; try discriminate; reflexivity.
Qed.

Lemma lexToken_chars (a c : ascii) (s' : string) :
  includes a (v (fst (lexToken c s'))) = true ->
  includes a (String c s') = true \/ includes a "undefined" = true.
Proof.
  intros H.
  destruct (TOKEN_eqb (t (fst (lexToken c s'))) STRING) eqn:E.
  - assert (T : t (fst (lexToken c s')) = STRING)
      by (destruct (t (fst (lexToken c s'))); try discriminate; reflexivity).
    rewrite (lexToken_string c s' T) in H.
    destruct (scanString_chars c a s' H) as [K|K]; [left|right; exact K].
    cbn [includes]; rewrite K, orb_true_r; reflexivity.
  - left.
    destruct (lexToken_spec c s') as [_ [_ R]].
    rewrite <- R by (intros T; rewrite T in E; discriminate).
    unfold rawText; rewrite !includes_app, H; reflexivity.
Qed.

Lemma includes_rest (a c : ascii) (s' : string) :
  includes a (String c s') = false ->
  includes a (snd (lexToken c s')) = false.
Proof.
  intros H.
  destruct (TOKEN_eqb (t (fst (lexToken c s'))) STRING) eqn:T.
  - rewrite includes_cons in H; apply orb_false_iff in H as [_ H].
    pose proof (scanString_rest_chars c a s' H) as K.
    revert T; unfold lexToken.
    repeat match goal with
           | |- context [if ?b then _ else _] => destruct b
           end;
      repeat match goal with
             | |- context [let (_, _) := span ?p ?x in _] =>
                 destruct (span p x)
             end; cbn [fst snd t tok TOKEN_eqb]; try discriminate.
    destruct (scanString c s'); intros _; exact K.
  - destruct (includes a (snd (lexToken c s'))) eqn:E; [|reflexivity].
    destruct (lexToken_spec c s') as [_ [_ R]].
    rewrite <- R in H by (intros K; rewrite K in T; discriminate).
    rewrite includes_app, E, orb_true_r in H; discriminate.
Qed.

Lemma tokens_inert (src : string) (toks : list token) :
  tokenize src = Some toks ->
  includes "=" src = false -> includes "[" src = false ->
  forallb inert toks = true.
Proof.
  intros H; pattern src, toks; revert src toks H; apply tokenize_ind.
  - reflexivity.
  - intros c s' rest _ IH He Hb.
    cbn [forallb]; rewrite IH by (apply includes_rest; assumption).
    rewrite andb_true_r; unfold inert.
    destruct (String.eqb_spec (v (fst (lexToken c s'))) "=") as [E|_].
    { destruct (lexToken_chars "=" c s') as [K|K];
        [rewrite E; reflexivity|congruence|discriminate]. }
    destruct (String.eqb_spec (v (fst (lexToken c s'))) "[") as [E|_].
    { destruct (lexToken_chars "[" c s') as [K|K];
        [rewrite E; reflexivity|congruence|discriminate]. }
    reflexivity.
Qed.

Lemma inert_peek (P : Parser) (s : string) :
  forallb inert (tokens P) = true -> s = "=" \/ s = "[" ->
  same (peekV 0 P) s = false.
Proof.
  intros F Hs; unfold peekV, peek.
  destruct (nth_error (tokens P) (pos P + 0)) as [tk|] eqn:E; [|reflexivity].
  apply nth_error_In in E.
  rewrite forallb_forall in F; specialize (F tk E).
  unfold inert in F; apply andb_true_iff in F as [F1 F2].
  cbn [option_map same].
  destruct Hs as [->| ->];
    [destruct (String.eqb (v tk) "=")|destruct (String.eqb (v tk) "[")];
    try discriminate; reflexivity.
Qed.

Lemma parse_loop_skips (fuel : nat) :
  forall rules P r,
    forallb inert (tokens P) = true ->
    parse_loop fuel rules P = Ret r ->
    fst r = rules /\ errors (snd r) = errors P.
Proof.
  induction fuel as [|f IH]; intros rules P r F H; [discriminate|].
  cbn [parse_loop] in H.
  destruct (eof P); [inversion H; split; reflexivity|].
  destruct (peek 0 (tick P)) as [tk|] eqn:Pk;
    [|inversion H; split; reflexivity].
  destruct (TOKEN_eqb (t tk) IDENT).
  { destruct (eat (tick P)) as [[k|] P1] eqn:E; [|discriminate].
    assert (P1 = snd (eat (tick P))) as -> by (rewrite E; reflexivity).
    rewrite (inert_peek (snd (eat (tick P))) "=" F (or_introl eq_refl)) in H.
    cbn [negb] in H.
    exact (IH rules (snd (eat (tick P))) r F H). }
  destruct (String.eqb (v tk) "[") eqn:B.
  { exfalso.
    pose proof (inert_peek (tick P) "[" F (or_intror eq_refl)) as K.
    unfold peekV in K; rewrite Pk in K; cbn [option_map same] in K.
    congruence. }
  exact (IH rules (snd (eat (tick P))) r F H).
Qed.

(** X12.  A source text that holds no equals sign and no opening bracket
    compiles to the empty stylesheet with no diagnostics: every token is
    skipped. *)
Theorem no_assignment_no_rules (src : string) :
  includes "=" src = false -> includes "[" src = false ->
  compileLuaCSS src = Ret (mkCompiled (Some "") []).
Proof.
  intros He Hb.
  destruct (parse_returns src) as [toks [rules [P [Et [_ [Ep _]]]]]].
  pose proof (tokens_inert src toks Et He Hb) as F.
  unfold compileLuaCSS; rewrite Ep; cbn [bind].
  unfold parse in Ep; rewrite Et in Ep.
  assert (F' : forallb inert (tokens (newParser toks)) = true).
  { unfold newParser; cbn [tokens].
    rewrite forallb_forall in *; intros x Hx.
    apply filter_In in Hx as [Hx _]; exact (F x Hx). }
  destruct (parse_loop_skips _ _ _ _ F' Ep) as [R E].
  cbn [fst snd] in R, E; subst rules; rewrite E; reflexivity.
Qed.

Lemma no_assignment_no_rules_witness :
  compileLuaCSS "-- a note
div { color: red }" = Ret (mkCompiled (Some "") []).
Proof. apply no_assignment_no_rules; reflexivity. Defined.

(** ** The parser as a sequence of primitive changes *)

Lemma moves_trans (P Q R : Parser) : moves P Q -> moves Q R -> moves P R.
Proof.
  induction 1 as [|A B C M _ IH]; intros K; [exact K|].
  exact (moves_step A B R M (IH K)).
Qed.

Lemma moves_one (P Q : Parser) : move P Q -> moves P Q.
Proof. intros M; exact (moves_step P Q Q M (moves_refl Q)). Qed.

Lemma peek_in_range (P : Parser) (tk : token) :
  peek 0 P = Some tk -> pos P < List.length (tokens P).
Proof.
  unfold peek; rewrite Nat.add_0_r; intros H.
  apply nth_error_Some; congruence.
Qed.

Lemma same_in_range (P : Parser) (s : string) :
  same (peekV 0 P) s = true -> pos P < List.length (tokens P).
Proof.
  unfold peekV; destruct (peek 0 P) as [tk|] eqn:E; [|discriminate].
  intros _; exact (peek_in_range P tk E).
Qed.

Lemma moves_eat_peek (P : Parser) (tk : token) :
  peek 0 P = Some tk -> moves P (snd (eat P)).
Proof.
  intros H; apply moves_one, move_eat.
  apply peek_in_range in H; lia.
Qed.

Lemma moves_eat_same (P : Parser) (s : string) :
  same (peekV 0 P) s = true -> moves P (snd (eat P)).
Proof.
  intros H; apply moves_one, move_eat.
  apply same_in_range in H; lia.
Qed.

Lemma moves_turn (P : Parser) (tk : token) :
  peek 0 (tick P) = Some tk -> moves P (snd (eat (tick P))).
Proof.
  intros H; eapply moves_step; [apply move_tick|].
  exact (moves_eat_peek (tick P) tk H).
Qed.

Lemma moves_expect (val : string) (P : Parser) :
  In val expectable -> moves P (snd (expect val P)).
Proof.
  intros H; unfold expect.
  destruct (same (peekV 0 P) val) eqn:E.
  - exact (moves_eat_same P val E).
  - apply moves_one; exact (move_expected val P H).
Qed.

Lemma moves_eatComma (P : Parser) : moves P (eatComma P).
Proof.
  unfold eatComma; destruct (same (peekV 0 P) ",") eqn:E.
  - exact (moves_eat_same P "," E).
  - apply moves_refl.
Qed.

Lemma moves_eatString (P : Parser) : moves P (snd (eatString P)).
Proof.
  unfold eatString; destruct (peek 0 P) as [s|] eqn:E; [|apply moves_refl].
  destruct (TOKEN_eqb (t s) STRING); [|apply moves_refl].
  exact (moves_eat_peek P s E).
Qed.

Lemma moves_colorValue (fn : string) (args : list arg) (P : Parser) :
  moves P (snd (colorValue fn args P)).
Proof.
  unfold colorValue.
  repeat match goal with
         | |- context [if String.eqb fn ?s then _ else _] =>
             destruct (String.eqb fn s); [apply moves_refl|]
         end.
  apply moves_one, move_unknown.
Qed.

(** The goal [moves P R] after a first stretch from [P] to [Q]. *)
Ltac via M := eapply moves_trans; [exact M|].

Tactic Notation "expecting" constr(val) constr(Q) "as" ident(Q') :=
  eapply moves_trans;
  [apply (moves_expect val Q); vm_compute; tauto|];
  let x := fresh "x" in destruct (expect val Q) as [x Q']; cbn [snd].

Ltac done_here H := inversion H; subst; apply moves_refl.

Lemma parseColor_args_moves (fuel : nat) :
  forall args P r,
    parseColor_args fuel args P = Ret r -> moves P (snd r).
Proof.
  induction fuel as [|f IH]; intros args P r H; [discriminate|].
  cbn [parseColor_args] in H.
  destruct (eof P || same (peekV 0 P) ")") eqn:E; [done_here H|].
  apply orb_false_iff in E as [E _].
  assert (M : moves P (snd (eat (tick P)))).
  { eapply moves_step; [apply move_tick|].
    apply moves_one, move_eat.
    unfold eof in E; apply Nat.leb_gt in E; cbn [tick pos tokens]; lia. }
  via M.
  destruct (eat (tick P)) as [[tk|] P1]; [|discriminate]; cbn [snd].
  destruct (String.eqb (v tk) ","); [exact (IH _ _ _ H)|].
  destruct (t tk); exact (IH _ _ _ H).
Qed.

Lemma parseColor_moves (fuel : nat) (P : Parser) (r : string * Parser) :
  same (peekV 1 P) "." = true ->
  parseColor fuel P = Ret r -> moves P (snd r).
Proof.
  intros D H; unfold parseColor in H.
  assert (L : pos P + 1 < List.length (tokens P)).
  { unfold peekV, peek in D.
    destruct (nth_error (tokens P) (pos P + 1)) eqn:E; [|discriminate].
    apply nth_error_Some; congruence. }
  assert (E1 : same (peekV 0 (snd (eat P))) "." = true).
  { revert D; unfold peekV, peek; cbn [eat snd tokens pos].
    replace (S (pos P) + 0) with (pos P + 1) by lia; tauto. }
  eapply moves_trans; [apply moves_one, (move_eat P); lia|].
  rewrite (surjective_pairing (eat P)) in H; cbv beta iota in H.
  unfold expect at 1 in H; rewrite E1 in H.
  via (moves_eat_same _ _ E1).
  rewrite (surjective_pairing (eat (snd (eat P)))) in H; cbv beta iota in H.
  eapply moves_trans;
    [apply moves_one, (move_eat (snd (eat (snd (eat P)))));
     cbn [eat snd tokens pos]; lia|].
  destruct (eat (snd (eat (snd (eat P))))) as [x2 P3]; cbn [snd].
  expecting "(" P3 as P4.
  destruct (parseColor_args fuel [] P4) as [[args P5]| |] eqn:A;
    cbn [bind] in H; try discriminate.
  apply parseColor_args_moves in A; cbn [snd] in A; via A.
  expecting ")" P5 as P6.
  inversion H; apply moves_colorValue.
Qed.

Lemma parseValue_loop_moves (fuel : nat) :
  forall depth val prev P r,
    parseValue_loop fuel depth val prev P = Ret r -> moves P (snd r).
Proof.
  induction fuel as [|f IH]; intros depth val prev P r H; [discriminate|].
  cbn [parseValue_loop] in H.
  destruct (eof P || shouldStopValue depth P); [done_here H|].
  destruct (peek 0 (tick P)) as [n|] eqn:Pk; [|discriminate].
  via (moves_turn P n Pk).
  destruct (eat (tick P)) as [prev' P1]; cbn [snd].
  exact (IH _ _ _ _ _ H).
Qed.

Lemma parseValue_moves (fuel : nat) (P : Parser) (r : string * Parser) :
  parseValue fuel P = Ret r -> moves P (snd r).
Proof.
  unfold parseValue; intros H.
  destruct (peek 0 P) as [tk|]; [|done_here H].
  destruct (TOKEN_eqb (t tk) IDENT && String.eqb (v tk) "color"
            && same (peekV 1 P) ".") eqn:C.
  { apply andb_true_iff in C as [_ C].
    exact (parseColor_moves fuel P r C H). }
  destruct (TOKEN_eqb (t tk) IDENT
            && (same (peekV 1 P) "=" || same (peekV 1 P) "{"));
    [done_here H|].
  destruct (TOKEN_eqb (t tk) IDENT
            && (String.eqb (v tk) "end" || String.eqb (v tk) "function"));
    [done_here H|].
  destruct (parseValue_loop fuel (mkDepth 0 0 0) "" None P)
    as [[val P1]| |] eqn:E; cbn [bind] in H; try discriminate.
  apply parseValue_loop_moves in E; inversion H; exact E.
Qed.

Lemma parseFunctionBlock_loop_moves (fuel : nat) :
  forall ps P r,
    parseFunctionBlock_loop fuel ps P = Ret r -> moves P (snd r).
Proof.
  induction fuel as [|f IH]; intros ps P r H; [discriminate|].
  cbn [parseFunctionBlock_loop] in H.
  destruct (eof P || same (peekV 0 P) "end"); [done_here H|].
  destruct (peek 0 (tick P)) as [tk|] eqn:Pk;
    [|inversion H; apply moves_one, move_tick].
  via (moves_turn P tk Pk).
  destruct (negb (TOKEN_eqb (t tk) IDENT)); [exact (IH _ _ _ H)|].
  destruct (eat (tick P)) as [[k|] P1]; [|discriminate]; cbn [snd].
  destruct (negb (same (peekV 0 P1) "=")) eqn:Q.
  { via (moves_eatComma P1); exact (IH _ _ _ H). }
  apply negb_false_iff in Q; via (moves_eat_same P1 "=" Q).
  destruct (parseValue f (snd (eat P1))) as [[val P3]| |] eqn:E;
    cbn [bind] in H; try discriminate.
  apply parseValue_moves in E; cbn [snd] in E; via E.
  via (moves_eatComma P3); exact (IH _ _ _ H).
Qed.

Lemma parseFunctionBlock_moves (fuel : nat) (P : Parser)
    (r : list Decl * Parser) :
  parseFunctionBlock fuel P = Ret r -> moves P (snd r).
Proof.
  unfold parseFunctionBlock; intros H.
  expecting "function" P as P1.
  expecting "(" P1 as P2.
  expecting ")" P2 as P3.
  destruct (parseFunctionBlock_loop fuel [] P3) as [[ps P4]| |] eqn:E;
    cbn [bind] in H; try discriminate.
  apply parseFunctionBlock_loop_moves in E; cbn [snd] in E; via E.
  expecting "end" P4 as P5.
  done_here H.
Qed.

Lemma parseBlock_both_moves (fuel : nat) :
  (forall sel P r, parseBlock fuel sel P = Ret r -> moves P (snd r))
  /\ (forall sel ps cs P r,
         parseBlock_loop fuel sel ps cs P = Ret r -> moves P (snd r)).
Proof.
  induction fuel as [|f [IHb IHl]]; [split; intros; discriminate|].
  split.
  - intros sel P r H; cbn [parseBlock] in H.
    expecting "{" P as P1.
    destruct (parseBlock_loop f sel [] [] P1) as [[res P2]| |] eqn:E;
      cbn [bind] in H; try discriminate.
    apply IHl in E; cbn [snd] in E; via E.
    expecting "}" P2 as P3.
    done_here H.
  - intros sel ps cs P r H.
    cbn [parseBlock_loop] in H.
    destruct (eof P || same (peekV 0 P) "}"); [done_here H|].
    destruct (peek 0 (tick P)) as [tk|] eqn:Pk;
      [|inversion H; apply moves_one, move_tick].
    via (moves_turn P tk Pk).
    destruct (String.eqb (v tk) "[").
    { via (moves_eatString (snd (eat (tick P)))).
      destruct (eatString (snd (eat (tick P)))) as [sl P2]; cbn [snd].
      expecting "]" P2 as P3; expecting "=" P3 as P4.
      destruct (same (peekV 0 P4) "{");
        [|via (moves_eatComma P4); exact (IHl _ _ _ _ _ H)].
      destruct (parseBlock f (resolveSelector sel sl) P4)
        as [[res P5]| |] eqn:E; cbn [bind] in H; try discriminate.
      apply IHb in E; cbn [snd] in E; via E.
      via (moves_eatComma P5); exact (IHl _ _ _ _ _ H). }
    destruct (negb (TOKEN_eqb (t tk) IDENT)); [exact (IHl _ _ _ _ _ H)|].
    destruct (eat (tick P)) as [[k|] P1]; [|discriminate]; cbn [snd].
    destruct (negb (same (peekV 0 P1) "=")) eqn:Q.
    { via (moves_eatComma P1); exact (IHl _ _ _ _ _ H). }
    apply negb_false_iff in Q; via (moves_eat_same P1 "=" Q).
    destruct (isPseudo (v k) && same (peekV 0 (snd (eat P1))) "function").
    { destruct (parseFunctionBlock f (snd (eat P1)))
        as [[fp P3]| |] eqn:E; cbn [bind] in H; try discriminate.
      apply parseFunctionBlock_moves in E; cbn [snd] in E; via E.
      via (moves_eatComma P3); exact (IHl _ _ _ _ _ H). }
    destruct (same (peekV 0 (snd (eat P1))) "{").
    { destruct (parseBlock f (resolveSelector sel (hyphenate (v k)))
                  (snd (eat P1))) as [[res P3]| |] eqn:E;
        cbn [bind] in H; try discriminate.
      apply IHb in E; cbn [snd] in E; via E.
      via (moves_eatComma P3); exact (IHl _ _ _ _ _ H). }
    destruct (parseValue f (snd (eat P1))) as [[val P3]| |] eqn:E;
      cbn [bind] in H; try discriminate.
    apply parseValue_moves in E; cbn [snd] in E; via E.
    via (moves_eatComma P3); exact (IHl _ _ _ _ _ H).
Qed.

Lemma parse_loop_moves (fuel : nat) :
  forall rules P r,
    parse_loop fuel rules P = Ret r ->
    moves P (snd r) /\ List.length (tokens (snd r)) <= pos (snd r).
Proof.
  induction fuel as [|f IH]; intros rules P r H; [discriminate|].
  cbn [parse_loop] in H.
  destruct (eof P) eqn:Eo.
  { inversion H; subst; cbn [snd]; split; [apply moves_refl|].
    unfold eof in Eo; apply Nat.leb_le in Eo; exact Eo. }
  destruct (peek 0 (tick P)) as [tk|] eqn:Pk.
  2:{ exfalso; unfold eof in Eo; apply Nat.leb_gt in Eo.
      unfold peek in Pk; apply nth_error_None in Pk.
      cbn [tick tokens pos] in Pk; lia. }
  assert (After : forall sel Q,
             moves P Q ->
             (if negb (same (peekV 0 Q) "=") then parse_loop f rules Q
              else
                let P2 := snd (eat Q) in
                if negb (same (peekV 0 P2) "{") then parse_loop f rules P2
                else
                  '(result, P3) <- parseBlock f sel P2 ;;
                  parse_loop f
                    (collectChildren (snd result)
                       (pushRule sel (fst result) rules)) P3) = Ret r ->
             moves P (snd r) /\ List.length (tokens (snd r)) <= pos (snd r)).
  { intros sel Q M HQ.
    destruct (negb (same (peekV 0 Q) "=")) eqn:E.
    { destruct (IH _ _ _ HQ) as [A B]; split; [via M; exact A|exact B]. }
    apply negb_false_iff in E; cbv zeta in HQ.
    pose proof (moves_trans _ _ _ M (moves_eat_same Q "=" E)) as M'.
    destruct (negb (same (peekV 0 (snd (eat Q))) "{")).
    { destruct (IH _ _ _ HQ) as [A B]; split; [via M'; exact A|exact B]. }
    destruct (parseBlock f sel (snd (eat Q))) as [[res P3]| |] eqn:B;
      cbn [bind] in HQ; try discriminate.
    apply (proj1 (parseBlock_both_moves f)) in B; cbn [snd] in B.
    destruct (IH _ _ _ HQ) as [A C]; split; [via M'; via B; exact A|exact C]. }
  pose proof (moves_turn P tk Pk) as M0.
  destruct (TOKEN_eqb (t tk) IDENT).
  { destruct (eat (tick P)) as [[k|] P1]; [|discriminate]; cbn [snd] in M0.
    exact (After (v k) P1 M0 H). }
  destruct (String.eqb (v tk) "[").
  { pose proof (moves_trans _ _ _ M0 (moves_eatString _)) as M1.
    destruct (eatString (snd (eat (tick P)))) as [sl P2]; cbn [snd] in M1.
    assert (M2 : moves P (snd (expect "]" P2))).
    { via M1; apply moves_expect; vm_compute; tauto. }
    destruct (expect "]" P2) as [x3 P3]; cbn [snd] in M2.
    exact (After sl P3 M2 H). }
  destruct (IH _ _ _ H) as [A B]; split; [via M0; exact A|exact B].
Qed.

Lemma moves_invariant (P Q : Parser) :
  moves P Q ->
  pos P <= List.length (tokens P) + 1 ->
  tokens Q = tokens P
  /\ pos P <= pos Q <= List.length (tokens P) + 1
  /\ exists l, errors Q = errors P ++ l
               /\ Forall (isDiagnostic (tokens P)) l.
Proof.
  induction 1 as [P|P Q R M _ IH]; intros B.
  - repeat split; try lia.
    exists []; rewrite app_nil_r; split; [reflexivity|constructor].
  - assert (S : tokens Q = tokens P
                /\ pos P <= pos Q <= List.length (tokens P) + 1
                /\ exists l, errors Q = errors P ++ l
                             /\ Forall (isDiagnostic (tokens P)) l).
    { destruct M as [P L|P|val P V|fn P];
        cbn [eat tick push_error snd tokens pos errors].
      - repeat split; try lia.
        exists []; rewrite app_nil_r; split; [reflexivity|constructor].
      - repeat split; try lia.
        exists []; rewrite app_nil_r; split; [reflexivity|constructor].
      - repeat split; try lia.
        eexists; split; [reflexivity|].
        constructor; [|constructor].
        left; exists val, (pos P); repeat split; try assumption.
        unfold peekV, peek; rewrite Nat.add_0_r; reflexivity.
      - repeat split; try lia.
        eexists; split; [reflexivity|].
        constructor; [|constructor].
        right; exists fn; reflexivity. }
    destruct S as [T [Bq [l1 [E1 F1]]]].
    destruct IH as [T' [Br [l2 [E2 F2]]]]; [rewrite T; lia|].
    rewrite T in *.
    repeat split; try lia; try congruence.
    exists (l1 ++ l2); split.
    + rewrite E2, E1, app_assoc; reflexivity.
    + apply Forall_app; split; assumption.
Qed.

Lemma parse_trace (src : string) :
  exists toks rules P,
    tokenize src = Some toks
    /\ parse src = Ret (rules, P)
    /\ moves (newParser toks) P
    /\ List.length (tokens P) <= pos P.
Proof.
  destruct (parse_returns src) as [toks [rules [P [Et [_ [Ep _]]]]]].
  exists toks, rules, P; split; [exact Et|split; [exact Ep|]].
  unfold parse in Ep; rewrite Et in Ep.
  exact (parse_loop_moves _ _ _ _ Ep).
Qed.

(** X13.  Every diagnostic of a compilation has one of two forms: a
    value that [expect] is called on, expected at a position that is at
    most the length of the token array plus one, with the value of the
    token at that position, or EOF when there is none; or a colour
    function that is not known. *)
Theorem diagnostics_shape (src : string) :
  exists toks out,
    tokenize src = Some toks
    /\ compileLuaCSS src = Ret out
    /\ Forall (isDiagnostic (tokens (newParser toks))) (errors_of out).
Proof.
  destruct (parse_trace src) as [toks [rules [P [Et [Ep [M _]]]]]].
  destruct (moves_invariant _ _ M) as [_ [_ [l [E F]]]];
    [cbn [newParser pos]; lia|].
  cbn [newParser errors app] in E.
  unfold compileLuaCSS; rewrite Ep; cbn [bind].
  exists toks.
  destruct (nonEmpty (errors P) && negb (nonEmpty rules));
    eexists; (split; [exact Et|split; [reflexivity|]]);
    cbn [errors_of]; rewrite E; exact F.
Qed.

(** X14.  The parser reads the whole token array: when [parse] returns,
    its position is at the end of the array or one place behind it, and
    the array is the one it began with. *)
Theorem parse_reads_everything (src : string) :
  exists toks rules P,
    tokenize src = Some toks
    /\ parse src = Ret (rules, P)
    /\ tokens P = tokens (newParser toks)
    /\ List.length (tokens P) <= pos P <= List.length (tokens P) + 1.
Proof.
  destruct (parse_trace src) as [toks [rules [P [Et [Ep [M L]]]]]].
  destruct (moves_invariant _ _ M) as [T [B _]];
    [cbn [newParser pos]; lia|].
  exists toks, rules, P; repeat split; try assumption.
  rewrite T; lia.
Qed.

(** ** Declarations *)

Lemma pushDecl_clean (key val : string) (ps : list Decl) :
  forallb cleanDecl ps = true ->
  forallb cleanDecl (pushDecl key val ps) = true.
Proof.
  intros H; unfold pushDecl.
  destruct (String.eqb val "") eqn:E; [exact H|].
  rewrite forallb_app, H; cbn [forallb andb].
  unfold cleanDecl; cbn [value prop].
  rewrite E, hyphenate_no_underscore; reflexivity.
Qed.

Lemma parseFunctionBlock_loop_clean (fuel : nat) :
  forall ps P r,
    parseFunctionBlock_loop fuel ps P = Ret r ->
    forallb cleanDecl ps = true -> forallb cleanDecl (fst r) = true.
Proof.
  induction fuel as [|f IH]; intros ps P r H C; [discriminate|].
  cbn [parseFunctionBlock_loop] in H.
  destruct (eof P || same (peekV 0 P) "end"); [inversion H; exact C|].
  destruct (peek 0 (tick P)) as [tk|]; [|inversion H; exact C].
  destruct (negb (TOKEN_eqb (t tk) IDENT)); [exact (IH _ _ _ H C)|].
  destruct (eat (tick P)) as [[k|] P1]; [|discriminate].
  destruct (negb (same (peekV 0 P1) "=")); [exact (IH _ _ _ H C)|].
  destruct (parseValue f (snd (eat P1))) as [[val P3]| |];
    cbn [bind] in H; try discriminate.
  exact (IH _ _ _ H (pushDecl_clean _ _ _ C)).
Qed.

Lemma parseFunctionBlock_clean (fuel : nat) (P : Parser)
    (r : list Decl * Parser) :
  parseFunctionBlock fuel P = Ret r -> forallb cleanDecl (fst r) = true.
Proof.
  unfold parseFunctionBlock; intros H.
  destruct (expect "function" P) as [x1 P1].
  destruct (expect "(" P1) as [x2 P2].
  destruct (expect ")" P2) as [x3 P3].
  destruct (parseFunctionBlock_loop fuel [] P3) as [[ps P4]| |] eqn:E;
    cbn [bind] in H; try discriminate.
  apply parseFunctionBlock_loop_clean in E; [|reflexivity].
  destruct (expect "end" P4); inversion H; exact E.
Qed.

Lemma cleanBlock_child (ps ps' : list Decl) (cs cs' : list RuleNode)
    (sel : string) :
  cleanBlock (ps, cs) = true -> cleanBlock (ps', cs') = true ->
  cleanBlock (ps, cs ++ [mkNode sel ps' cs']) = true.
Proof.
  unfold cleanBlock, preorder_forest; cbn [fst snd].
  intros H H'.
  apply andb_true_iff in H as [A B]; apply andb_true_iff in H' as [A' B'].
  rewrite A, flat_map_app, forallb_app, B; cbn [flat_map andb].
  rewrite app_nil_r, preorder_unfold; cbn [forallb].
  unfold cleanNode at 1; cbn [nodeProps].
  rewrite A'; exact B'.
Qed.

Lemma cleanBlock_decl (key val : string) (ps : list Decl)
    (cs : list RuleNode) :
  cleanBlock (ps, cs) = true -> cleanBlock (pushDecl key val ps, cs) = true.
Proof.
  unfold cleanBlock; cbn [fst snd]; intros H.
  apply andb_true_iff in H as [A B].
  rewrite (pushDecl_clean _ _ _ A), B; reflexivity.
Qed.

Lemma parseBlock_both_clean (fuel : nat) :
  (forall sel P r, parseBlock fuel sel P = Ret r -> cleanBlock (fst r) = true)
  /\ (forall sel ps cs P r,
         parseBlock_loop fuel sel ps cs P = Ret r ->
         cleanBlock (ps, cs) = true -> cleanBlock (fst r) = true).
Proof.
  induction fuel as [|f [IHb IHl]]; [split; intros; discriminate|].
  split.
  - intros sel P r H; cbn [parseBlock] in H.
    destruct (expect "{" P) as [x1 P1].
    destruct (parseBlock_loop f sel [] [] P1) as [[res P2]| |] eqn:E;
      cbn [bind] in H; try discriminate.
    apply IHl in E; [|reflexivity].
    destruct (expect "}" P2); inversion H; exact E.
  - intros sel ps cs P r H C.
    cbn [parseBlock_loop] in H.
    destruct (eof P || same (peekV 0 P) "}"); [inversion H; exact C|].
    destruct (peek 0 (tick P)) as [tk|]; [|inversion H; exact C].
    destruct (String.eqb (v tk) "[").
    { destruct (eatString (snd (eat (tick P)))) as [sl P2].
      destruct (expect "]" P2) as [x3 P3].
      destruct (expect "=" P3) as [x4 P4].
      destruct (same (peekV 0 P4) "{"); [|exact (IHl _ _ _ _ _ H C)].
      destruct (parseBlock f (resolveSelector sel sl) P4)
        as [[[ps' cs'] P5]| |] eqn:E; cbn [bind] in H; try discriminate.
      apply IHb in E.
      exact (IHl _ _ _ _ _ H (cleanBlock_child _ _ _ _ _ C E)). }
    destruct (negb (TOKEN_eqb (t tk) IDENT)); [exact (IHl _ _ _ _ _ H C)|].
    destruct (eat (tick P)) as [[k|] P1]; [|discriminate].
    destruct (negb (same (peekV 0 P1) "=")); [exact (IHl _ _ _ _ _ H C)|].
    destruct (isPseudo (v k) && same (peekV 0 (snd (eat P1))) "function").
    { destruct (parseFunctionBlock f (snd (eat P1)))
        as [[fp P3]| |] eqn:E; cbn [bind] in H; try discriminate.
      apply parseFunctionBlock_clean in E; cbn [fst] in E.
      refine (IHl _ _ _ _ _ H (cleanBlock_child _ fp _ [] _ C _)).
      unfold cleanBlock; cbn [fst snd]; rewrite E; reflexivity. }
    destruct (same (peekV 0 (snd (eat P1))) "{").
    { destruct (parseBlock f (resolveSelector sel (hyphenate (v k)))
                  (snd (eat P1))) as [[[ps' cs'] P3]| |] eqn:E;
        cbn [bind] in H; try discriminate.
      apply IHb in E.
      exact (IHl _ _ _ _ _ H (cleanBlock_child _ _ _ _ _ C E)). }
    destruct (parseValue f (snd (eat P1))) as [[val P3]| |] eqn:E;
      cbn [bind] in H; try discriminate.
    exact (IHl _ _ _ _ _ H (cleanBlock_decl _ _ _ _ C)).
Qed.

Lemma collectChildren_clean (sel : string) (ps : list Decl)
    (cs : list RuleNode) (rules : list Rule) :
  cleanBlock (ps, cs) = true -> forallb cleanRule rules = true ->
  forallb cleanRule (collectChildren cs (pushRule sel ps rules)) = true.
Proof.
  unfold cleanBlock; cbn [fst snd]; intros H R.
  apply andb_true_iff in H as [A B].
  rewrite collectChildren_flatten, pushRule_app, !forallb_app, R.
  cbn [andb]; apply andb_true_iff; split.
  - destruct (nonEmpty ps); [|reflexivity].
    cbn [forallb]; unfold cleanRule; cbn [props]; rewrite A; reflexivity.
  - unfold flatten; revert B; generalize (preorder_forest cs) as l.
    induction l as [|[s0 p0 c0] l IH]; [reflexivity|].
    cbn [forallb filter hasDeclarations]; intros B.
    apply andb_true_iff in B as [B1 B2].
    destruct (nonEmpty p0); [|exact (IH B2)].
    cbn [map forallb flatRule]; unfold cleanRule at 1; cbn [props].
    unfold cleanNode in B1; cbn [nodeProps] in B1.
    rewrite B1; exact (IH B2).
Qed.

Lemma parse_loop_clean (fuel : nat) :
  forall rules P r,
    parse_loop fuel rules P = Ret r ->
    forallb cleanRule rules = true -> forallb cleanRule (fst r) = true.
Proof.
  induction fuel as [|f IH]; intros rules P r H C; [discriminate|].
  cbn [parse_loop] in H.
  destruct (eof P); [inversion H; exact C|].
  destruct (peek 0 (tick P)) as [tk|]; [|inversion H; exact C].
  assert (After : forall sel Q,
             (if negb (same (peekV 0 Q) "=") then parse_loop f rules Q
              else
                let P2 := snd (eat Q) in
                if negb (same (peekV 0 P2) "{") then parse_loop f rules P2
                else
                  '(result, P3) <- parseBlock f sel P2 ;;
                  parse_loop f
                    (collectChildren (snd result)
                       (pushRule sel (fst result) rules)) P3) = Ret r ->
             forallb cleanRule (fst r) = true).
  { intros sel Q HQ.
    destruct (negb (same (peekV 0 Q) "=")); [exact (IH _ _ _ HQ C)|].
    cbv zeta in HQ.
    destruct (negb (same (peekV 0 (snd (eat Q))) "{"));
      [exact (IH _ _ _ HQ C)|].
    destruct (parseBlock f sel (snd (eat Q))) as [[[ps cs] P3]| |] eqn:B;
      cbn [bind] in HQ; try discriminate.
    apply (proj1 (parseBlock_both_clean f)) in B; cbn [fst snd] in *.
    exact (IH _ _ _ HQ (collectChildren_clean sel ps cs rules B C)). }
  destruct (TOKEN_eqb (t tk) IDENT).
  { destruct (eat (tick P)) as [[k|] P1]; [|discriminate].
    exact (After _ _ H). }
  destruct (String.eqb (v tk) "[").
  { destruct (eatString (snd (eat (tick P)))) as [sl P2].
    destruct (expect "]" P2) as [x3 P3].
    exact (After _ _ H). }
  exact (IH _ _ _ H C).
Qed.

(** X15.  Every declaration of every rule that [parse] returns has a
    value that is not empty, and a property name without underscore. *)
Theorem declarations_are_clean (src : string) :
  exists rules P,
    parse src = Ret (rules, P) /\ forallb cleanRule rules = true.
Proof.
  destruct (parse_returns src) as [toks [rules [P [Et [_ [Ep _]]]]]].
  exists rules, P; split; [exact Ep|].
  unfold parse in Ep; rewrite Et in Ep.
  exact (parse_loop_clean _ _ _ _ Ep eq_refl).
Qed.

(** ** Colour calls *)

Lemma parseValue_color
    (pre args post : list token) (c dot f lp rp : token)
    (errs : list string) (st fuel : nat) :
  t c = IDENT -> v c = "color" -> v dot = "." -> v lp = "(" -> v rp = ")" ->
  Forall (fun a => v a <> ")") args ->
  List.length args < fuel ->
  parseValue fuel
    (mkParser (pre ++ [c; dot; f; lp] ++ args ++ rp :: post)
       (List.length pre) errs st)
  = Ret (colorValue (v f) (argsOf args)
           (mkParser (pre ++ [c; dot; f; lp] ++ args ++ rp :: post)
              (List.length pre + (5 + List.length args)) errs
              (st + List.length args))).
Proof.
  intros Tc Vc Vd Vl Vr F L.
  cbn [app].
  change (mkParser (pre ++ c :: dot :: f :: lp :: args ++ rp :: post)
            (List.length pre) errs st)
    with (at_ pre (c :: dot :: f :: lp :: args ++ rp :: post) 0 errs st).
  unfold parseValue, peekV.
  rewrite !peek_at; cbn [Nat.add nth_error option_map same].
  rewrite Tc, Vc, Vd; cbn [TOKEN_eqb String.eqb Ascii.eqb Bool.eqb andb].
  unfold parseColor.
  rewrite eat_at; cbv beta iota.
  rewrite (expect_at "." pre
             (c :: dot :: f :: lp :: args ++ rp :: post)
             1 errs st dot eq_refl Vd); cbv beta iota.
  rewrite eat_at; cbv beta iota.
  rewrite (expect_at "(" pre
             (c :: dot :: f :: lp :: args ++ rp :: post)
             3 errs st lp eq_refl Vl); cbv beta iota.
  cbn [nth_error].
  pose proof (parseColor_args_scan args fuel pre [c; dot; f; lp] rp post []
                errs st L F Vr) as Scan.
  cbn [List.length app] in Scan; rewrite Scan; cbn [bind].
  rewrite (expect_at ")" pre _ (4 + List.length args) errs
             (st + List.length args) rp).
  - unfold at_; cbn [tokens pos errors steps].
    do 2 f_equal; f_equal; lia.
  - change (c :: dot :: f :: lp :: args ++ rp :: post)
      with ([c; dot; f; lp] ++ args ++ rp :: post).
    rewrite nth_error_app2 by (simpl; lia).
    rewrite nth_error_app2 by (simpl; lia).
    replace (4 + List.length args - List.length [c; dot; f; lp]
             - List.length args) with 0 by (simpl; lia).
    reflexivity.
  - exact Vr.
Qed.

Lemma byte_round_trip (n : nat) :
  n <= 255 -> toString (StringToNumber (decimal n)) = decimal n.
Proof.
  intros H.
  assert (T : forallb
                (fun n => String.eqb (toString (StringToNumber (decimal n)))
                            (decimal n))
                (seq 0 256) = true) by (vm_compute; reflexivity).
  rewrite forallb_forall in T.
  apply String.eqb_eq, T, in_seq; lia.
Qed.



Lemma byte_text (n : nat) :
  n <= 255 -> String.eqb (decimal n) "," = false /\ decimal n <> ")".
Proof.
  intros H.
  assert (T : forallb
                (fun n => negb (String.eqb (decimal n) ",")
                          && negb (String.eqb (decimal n) ")"))
                (seq 0 256) = true) by (vm_compute; reflexivity).
  rewrite forallb_forall in T.
  specialize (T n ltac:(apply in_seq; lia)).
  apply andb_true_iff in T as [A B].
  apply negb_true_iff in A, B.
  split; [exact A|apply String.eqb_neq; exact B].
Qed.

(** X17.  On a call [color.rgb(r, g, b)] whose arguments are number
    tokens whose digits are the decimal spelling of three integers from 0
    to 255, with no sign, no leading zero and no fraction, whatever their
    units, the value parser returns [rgb(r, g, b)] with the same digits:
    the units are dropped, and the conversion of such digits to a Number
    and back to text changes nothing. *)
Theorem rgb_bytes
    (pre post : list token) (c dot f lp nr c1 ng c2 nb rp : token)
    (r g b : nat) (errs : list string) (st fuel : nat) :
  t c = IDENT -> v c = "color" -> v dot = "." -> v f = "rgb" ->
  v lp = "(" -> v c1 = "," -> v c2 = "," -> v rp = ")" ->
  t nr = NUMBER -> t ng = NUMBER -> t nb = NUMBER ->
  v nr = decimal r -> v ng = decimal g -> v nb = decimal b ->
  r <= 255 -> g <= 255 -> b <= 255 ->
  5 < fuel ->
  parseValue fuel
    (mkParser
       (pre ++ [c; dot; f; lp] ++ [nr; c1; ng; c2; nb] ++ rp :: post)
       (List.length pre) errs st)
  = Ret ("rgb(" +++ decimal r +++ ", " +++ decimal g +++ ", "
           +++ decimal b +++ ")",
         mkParser
           (pre ++ [c; dot; f; lp] ++ [nr; c1; ng; c2; nb] ++ rp :: post)
           (List.length pre + 10) errs (st + 5)).
Proof.
  intros Tc Vc Vd Vf Vl V1 V2 Vr Tr Tg Tb Er Eg Eb Hr Hg Hb L.
  destruct (byte_text r Hr) as [Cr Pr].
  destruct (byte_text g Hg) as [Cg Pg].
  destruct (byte_text b Hb) as [Cb Pb].
  rewrite (parseValue_color pre [nr; c1; ng; c2; nb] post
             c dot f lp rp errs st fuel Tc Vc Vd Vl Vr).
  - unfold argsOf; cbn [flat_map app].
    rewrite Tr, Tg, Tb, Er, Eg, Eb, Cr, Cg, Cb, V1, V2;
      cbn [String.eqb Ascii.eqb Bool.eqb app List.length Nat.add].
    unfold colorValue; rewrite Vf.
    cbn [String.eqb Ascii.eqb Bool.eqb firstn map arg_toString join].
    rewrite !byte_round_trip by assumption.
    rewrite !append_assoc; reflexivity.
  - repeat constructor; rewrite ?Er, ?Eg, ?Eb, ?V1, ?V2;
      try assumption; discriminate.
  - cbn [List.length]; exact L.
Qed.

Lemma rgb_bytes_witness :
  parseValue 6
    (mkParser
       [tok IDENT "color"; tok PUNCT "."; tok IDENT "rgb"; tok PUNCT "(";
        mkToken NUMBER "12" (Some ""); tok PUNCT ",";
        mkToken NUMBER "0" (Some "px"); tok PUNCT ",";
        mkToken NUMBER "255" (Some "%"); tok PUNCT ")"]
       0 [] 0)
  = Ret ("rgb(12, 0, 255)",
         mkParser
           [tok IDENT "color"; tok PUNCT "."; tok IDENT "rgb"; tok PUNCT "(";
            mkToken NUMBER "12" (Some ""); tok PUNCT ",";
            mkToken NUMBER "0" (Some "px"); tok PUNCT ",";
            mkToken NUMBER "255" (Some "%"); tok PUNCT ")"]
           10 [] 5).
Proof.
  apply (rgb_bytes [] [] (tok IDENT "color") (tok PUNCT ".")
           (tok IDENT "rgb") (tok PUNCT "(")
           (mkToken NUMBER "12" (Some "")) (tok PUNCT ",")
           (mkToken NUMBER "0" (Some "px")) (tok PUNCT ",")
           (mkToken NUMBER "255" (Some "%")) (tok PUNCT ")")
           12 0 255 [] 0 6);
    try reflexivity; lia.
Defined.

Section Channels.

Local Open Scope Z_scope.

Lemma unit_product (x : number) :
  inUnit x = true ->
  mul (if truthy x then x else ofZ 0) (ofZ 255) = S754_zero false
  \/ exists m3 K3,
       mul (if truthy x then x else ofZ 0) (ofZ 255)
       = S754_finite false m3 (- K3)
       /\ 45 <= K3 /\ Z.pos m3 <= 255 * 2 ^ K3 + 1.
Proof.
  destruct x as [s|s| |s m e]; cbn [inUnit truthy]; try discriminate.
  - intros _; left; reflexivity.
  - destruct s; [discriminate|]; intros U.
    rewrite ofZ_255; unfold mul; cbn [SFmul xorb].
    assert (He : e <= 0 /\ Z.pos m <= 2 ^ (- e)).
    { unfold valueQ in U.
      destruct (Z.leb_spec 0 e) as [P|N].
      - unfold Qle_bool, inject_Z in U; cbn [Qnum Qden] in U.
        apply Z.leb_le in U.
        destruct (Z.eq_dec e 0) as [->|Ne]; [simpl in *; lia|].
        assert (2 <= 2 ^ e).
        { change 2 with (2 ^ 1) at 1; apply Z.pow_le_mono_r; lia. }
        nia.
      - unfold Qle_bool in U; cbn [Qnum Qden] in U.
        apply Z.leb_le in U.
        rewrite Z2Pos.id in U by (apply pow2_pos; lia). lia. }
    destruct He as [He Hm].
    replace (e + -45) with (- (- e + 45)) by lia.
    apply round_aux_bound; [lia|lia|].
    rewrite Pos2Z.inj_mul, Z.pow_add_r by lia.
    change (2 ^ 45) with 35184372088832.
    change (Z.pos 8972014882652160) with (255 * 35184372088832).
    pose proof (pow2_pos (- e) ltac:(lia)).
    nia.
Qed.

Lemma nearest_bounds (y : number) :
  (y = S754_zero false
   \/ exists m3 K3, y = S754_finite false m3 (- K3)
                    /\ 45 <= K3 /\ Z.pos m3 <= 255 * 2 ^ K3 + 1) ->
  0 <= nearestHalfUp (valueQ y) <= 255.
Proof.
  intros [->|[m3 [K3 [-> [HK Hb]]]]]; [vm_compute; split; discriminate|].
  pose proof (pow2_pos K3 ltac:(lia)) as PK.
  unfold valueQ.
  replace (0 <=? - K3) with false by (symmetry; apply Z.leb_gt; lia).
  rewrite Z.opp_involutive.
  unfold nearestHalfUp, Qplus, Qfloor; cbn [Qnum Qden].
  rewrite Pos2Z.inj_mul, Z2Pos.id by exact PK.
  replace (Z.pos m3 * 2 + 1 * 2 ^ K3) with (2 * Z.pos m3 + 2 ^ K3) by lia.
  replace (2 ^ K3 * 2) with (2 ^ (K3 + 1))
    by (rewrite Z.pow_add_r by lia; reflexivity).
  pose proof (pow2_pos (K3 + 1) ltac:(lia)) as PK1.
  assert (P2 : 2 ^ (K3 + 1) = 2 * 2 ^ K3)
    by (rewrite Z.pow_add_r by lia; change (2 ^ 1) with 2; lia).
  assert (Big : 4 <= 2 ^ K3).
  { change 4 with (2 ^ 2); apply Z.pow_le_mono_r; lia. }
  split; [apply Z.div_pos; lia|].
  assert ((2 * Z.pos m3 + 2 ^ K3) / 2 ^ (K3 + 1) < 256); [|lia].
  apply Z.div_lt_upper_bound; lia.
Qed.

End Channels.

(** X18.  A channel of [color3] whose argument is a Number of the unit
    interval, or is missing or not a number, is the decimal text of an
    integer from 0 to 255; a missing argument, text that is no number,
    and zero give 0. *)
Theorem color3_channel_range (args : list arg) (i : nat) :
  inUnit (arg_toNumber args i) = true
  \/ truthy (arg_toNumber args i) = false ->
  exists n,
    (0 <= n <= 255)%Z
    /\ toString (channel args i) = decZ n
    /\ (truthy (arg_toNumber args i) = false -> n = 0%Z).
Proof.
  unfold channel; intros [U|F].
  - pose proof (unit_product _ U) as S.
    exists (nearestHalfUp
              (valueQ (mul (if truthy (arg_toNumber args i)
                            then arg_toNumber args i else ofZ 0)
                         (ofZ 255)))).
    split; [exact (nearest_bounds _ S)|split].
    + exact (round_toString _ S).
    + intros F; rewrite F; reflexivity.
  - exists 0%Z; rewrite F; repeat split; try lia; reflexivity.
Qed.

Lemma color3_channel_range_witness :
  exists n,
    (0 <= n <= 255)%Z
    /\ toString (channel [AString "0.25"; AString "red"] 0) = decZ n
    /\ (truthy (arg_toNumber [AString "0.25"; AString "red"] 0) = false
        -> n = 0%Z).
Proof.
  apply (color3_channel_range [AString "0.25"; AString "red"] 0).
  left; vm_compute; reflexivity.
Defined.


(** ** Values made of words *)

Lemma joinWords_spaced (l : list token) :
  forall val,
    joinWords val true l
    = val +++ match l with
              | [] => ""
              | _ :: _ => " " +++ join " " (map piece l)
              end.
Proof.
  induction l as [|a l IH]; intros val.
  - cbn [joinWords]; clear; induction val as [|c s IH];
      [reflexivity|cbn [append]; rewrite <- IH; reflexivity].
  - cbn [joinWords]; rewrite IH.
    destruct l as [|b l].
    + cbn [map join]; rewrite !append_assoc.
      f_equal; f_equal.
      clear; induction (piece a) as [|c s IH];
        [reflexivity|cbn [append]; rewrite IH; reflexivity].
    + cbn [map join]; rewrite !append_assoc; reflexivity.
Qed.

Lemma joinWords_join (l : list token) :
  joinWords "" false l = join " " (map piece l).
Proof.
  destruct l as [|a l]; [reflexivity|].
  cbn [joinWords append]; rewrite joinWords_spaced.
  destruct l as [|b l]; cbn [map join]; [|reflexivity].
  clear; induction (piece a) as [|c s IH];
    [reflexivity|cbn [append]; rewrite IH; reflexivity].
Qed.

Lemma plainWord_facts (tk : token) :
  plainWord tk = true ->
  wordLike tk = true
  /\ Forall (fun s => String.eqb (v tk) s = false) special
  /\ String.eqb (piece tk) "+" = false
  /\ String.eqb (piece tk) "-" = false.
Proof.
  unfold plainWord; intros H.
  apply andb_true_iff in H as [H M]; apply negb_true_iff in M.
  apply andb_true_iff in H as [H Pl]; apply negb_true_iff in Pl.
  apply andb_true_iff in H as [W S]; apply negb_true_iff in S.
  repeat split; try assumption.
  unfold special in *; cbn [existsb] in S.
  repeat match type of S with
         | (_ || _) = false =>
             let E := fresh "E" in apply orb_false_iff in S as [E S]
         end.
  repeat constructor; assumption.
Qed.

Lemma appendPiece_word (val : string) (prev : option token) (n : token)
    (next : option token) :
  plainWord n = true ->
  (forall p, prev = Some p -> wordLike p = true) ->
  appendPiece val prev n next
  = (match prev with Some _ => val +++ " " | None => val end) +++ piece n.
Proof.
  intros H Hp; destruct (plainWord_facts n H) as [W [_ [Pl Mi]]].
  unfold appendPiece; fold (piece n); rewrite Pl, Mi, W; cbn [orb andb].
  destruct prev as [p|]; [|reflexivity].
  rewrite (Hp p eq_refl); reflexivity.
Qed.

Lemma bump_word (n : token) :
  plainWord n = true -> bump (v n) (mkDepth 0 0 0) = mkDepth 0 0 0.
Proof.
  intros H; destruct (plainWord_facts n H) as [_ [S _]].
  unfold special in S.
  repeat match goal with
         | K : Forall _ (_ :: _) |- _ => inversion K; subst; clear K
         end.
  unfold bump.
  repeat match goal with
         | E : String.eqb (v n) ?s = false |- _ => rewrite E; clear E
         end.
  reflexivity.
Qed.

(** The value of the token behind a word of a run that a stopper ends is
    no equals sign. *)
Lemma next_not_equals (rest : list token) (stop : token) (post : list token) :
  forallb plainWord rest = true -> stopper stop = true ->
  same (option_map v (nth_error (rest ++ stop :: post) 0)) "=" = false.
Proof.
  intros F St; destruct rest as [|b rest]; cbn [app nth_error option_map same].
  - unfold stopper in St; cbn [existsb] in St.
    destruct (String.eqb_spec (v stop) "=") as [E|_]; [|reflexivity].
    rewrite E in St; discriminate.
  - cbn [forallb] in F; apply andb_true_iff in F as [F _].
    destruct (plainWord_facts b F) as [_ [Sp _]].
    unfold special in Sp.
    repeat match goal with
           | K : Forall _ (_ :: _) |- _ => inversion K; subst; clear K
           end.
    assumption.
Qed.

Lemma parseValue_loop_words (rest : list token) :
  forall fuel pre hd stop post val prev errs st,
    List.length rest < fuel ->
    forallb plainWord rest = true -> stopper stop = true ->
    (forall p, prev = Some p -> wordLike p = true) ->
    parseValue_loop fuel (mkDepth 0 0 0) val prev
      (at_ pre (hd ++ rest ++ stop :: post) (List.length hd) errs st)
    = Ret (joinWords val (match prev with Some _ => true | None => false end)
             rest,
           at_ pre (hd ++ rest ++ stop :: post)
             (List.length hd + List.length rest) errs
             (st + List.length rest)).
Proof.
  induction rest as [|a rest IH];
    intros fuel pre hd stop post val prev errs st L F St Hp.
  - destruct fuel as [|f]; [simpl in L; lia|].
    cbn [parseValue_loop]; unfold shouldStopValue.
    rewrite eof_at, peek_at, Nat.add_0_r.
    rewrite nth_error_app2 by lia.
    rewrite Nat.sub_diag; cbn [app nth_error paren brack brace Nat.eqb andb].
    unfold stopper in St; cbn [existsb] in St; rewrite orb_false_r in St.
    rewrite <- orb_assoc, St, orb_true_r.
    cbn [joinWords List.length]; rewrite !Nat.add_0_r; reflexivity.
  - destruct fuel as [|f]; [simpl in L; lia|].
    cbn [forallb] in F; apply andb_true_iff in F as [Fa F].
    destruct (plainWord_facts a Fa) as [W [Sp _]].
    cbn [parseValue_loop]; unfold shouldStopValue, peekV.
    rewrite eof_at, !peek_at, Nat.add_0_r.
    rewrite nth_error_app2 by lia.
    rewrite Nat.sub_diag; cbn [app nth_error paren brack brace Nat.eqb andb].
    replace (nth_error (hd ++ a :: rest ++ stop :: post) (List.length hd + 1))
      with (nth_error (rest ++ stop :: post) 0).
    2:{ rewrite (nth_error_app2 hd) by lia.
        replace (List.length hd + 1 - List.length hd) with 1 by lia.
        reflexivity. }
    rewrite (next_not_equals rest stop post F St), andb_false_r.
    unfold special in Sp.
    repeat match goal with
           | K : Forall _ (_ :: _) |- _ => inversion K; subst; clear K
           end.
    repeat match goal with
           | E : String.eqb (v a) ?s = false |- _ => rewrite ?E; revert E
           end.
    intros; cbn [orb].
    replace (List.length (hd ++ a :: rest ++ stop :: post) <=? List.length hd)
      with false
      by (symmetry; apply Nat.leb_gt; rewrite length_app; simpl; lia).
    change (tick (at_ pre (hd ++ a :: rest ++ stop :: post) (List.length hd)
                    errs st))
      with (at_ pre (hd ++ a :: rest ++ stop :: post) (List.length hd)
              errs (S st)).
    rewrite !peek_at, Nat.add_0_r.
    rewrite nth_error_app2 by lia.
    rewrite Nat.sub_diag; cbn [nth_error].
    rewrite (appendPiece_word val prev a _ Fa Hp), (bump_word a Fa).
    rewrite eat_at.
    rewrite nth_error_app2 by lia.
    rewrite Nat.sub_diag; cbn [nth_error].
    specialize (IH f pre (hd ++ [a]) stop post).
    rewrite <- app_assoc in IH; cbn [app] in IH.
    rewrite length_app in IH; cbn [List.length] in IH.
    replace (List.length hd + 1) with (S (List.length hd)) in IH by lia.
    cbn [List.length] in L.
    rewrite IH; [|lia|exact F|exact St|intros p E; inversion E; subst; exact W].
    cbn [joinWords List.length].
    replace (List.length hd + S (List.length rest))
      with (S (List.length hd) + List.length rest) by lia.
    replace (st + S (List.length rest))
      with (S st + List.length rest) by lia.
    destruct prev; reflexivity.
Qed.

Lemma parseValue_words
    (pre hd l post : list token) (w stop : token)
    (errs : list string) (st fuel : nat) :
  forallb plainWord (w :: l) = true -> stopper stop = true ->
  S (List.length l) < fuel ->
  parseValue fuel
    (at_ pre (hd ++ (w :: l) ++ stop :: post) (List.length hd) errs st)
  = Ret (trim (join " " (map piece (w :: l))),
         at_ pre (hd ++ (w :: l) ++ stop :: post)
           (List.length hd + S (List.length l)) errs
           (st + S (List.length l))).
Proof.
  intros F St L.
  pose proof (parseValue_loop_words (w :: l) fuel pre hd stop post "" None
                errs st L F St ltac:(discriminate)) as Loop.
  cbn [List.length] in Loop.
  pose proof F as F'; cbn [forallb] in F'.
  apply andb_true_iff in F' as [Fw Fl].
  destruct (plainWord_facts w Fw) as [_ [Sp _]].
  assert (E0 : nth_error (hd ++ w :: l ++ stop :: post) (List.length hd)
               = Some w).
  { rewrite nth_error_app2 by lia.
    rewrite Nat.sub_diag; reflexivity. }
  assert (E1 : nth_error (hd ++ w :: l ++ stop :: post) (List.length hd + 1)
               = nth_error (l ++ stop :: post) 0).
  { rewrite nth_error_app2 by lia.
    replace (List.length hd + 1 - List.length hd) with 1 by lia.
    reflexivity. }
  unfold parseValue, peekV.
  rewrite !peek_at, Nat.add_0_r.
  cbn [app]; rewrite E0, E1; cbn [option_map].
  assert (N : forall s, In s ["="; "{"; "."] ->
                same (option_map v (nth_error (l ++ stop :: post) 0)) s
                = false).
  { intros s Hs; destruct l as [|b l];
      cbn [app nth_error option_map same].
    - unfold stopper in St; cbn [existsb] in St.
      destruct (String.eqb_spec (v stop) s) as [E|_]; [|reflexivity].
      rewrite E in St; cbn [In] in Hs.
      destruct Hs as [<-|[<-|[<-|[]]]]; discriminate.
    - cbn [forallb] in Fl; apply andb_true_iff in Fl as [Fb _].
      destruct (plainWord_facts b Fb) as [_ [Sb _]].
      rewrite Forall_forall in Sb; apply Sb.
      unfold special; cbn [In] in *; tauto. }
  rewrite (N "." ltac:(cbn; tauto)), (N "=" ltac:(cbn; tauto)),
    (N "{" ltac:(cbn; tauto)).
  rewrite Forall_forall in Sp.
  rewrite (Sp "end" ltac:(unfold special; cbn; tauto)),
    (Sp "function" ltac:(unfold special; cbn; tauto)).
  rewrite !andb_false_r; cbn [orb].
  change ((w :: l) ++ stop :: post) with (w :: l ++ stop :: post) in Loop.
  rewrite Loop; cbn [bind].
  rewrite joinWords_join; reflexivity.
Qed.

(** X19.  A value made of words, ended by a comma, a closing brace or
    [end], is its words joined by single spaces: the value parser
    returns that text, trimmed, and stands on the token that ends the
    value. *)
Theorem words_are_spaced
    (pre l post : list token) (w stop : token)
    (errs : list string) (st fuel : nat) :
  forallb plainWord (w :: l) = true -> stopper stop = true ->
  S (List.length l) < fuel ->
  parseValue fuel
    (mkParser (pre ++ (w :: l) ++ stop :: post) (List.length pre) errs st)
  = Ret (trim (join " " (map piece (w :: l))),
         mkParser (pre ++ (w :: l) ++ stop :: post)
           (List.length pre + S (List.length l)) errs
           (st + S (List.length l))).
Proof.
  intros F St L.
  pose proof (parseValue_words pre [] l post w stop errs st fuel F St L)
    as H.
  unfold at_ in H; cbn [app List.length Nat.add] in H.
  cbn [app]; rewrite H; do 3 f_equal; lia.
Qed.

Lemma words_are_spaced_witness :
  parseValue 4
    (mkParser
       [tok IDENT "border"; tok PUNCT "=";
        mkToken NUMBER "1" (Some "px"); tok IDENT "solid"; tok HEX "0xf00";
        tok PUNCT "}"]
       2 [] 0)
  = Ret ("1px solid #000f00",
         mkParser
           [tok IDENT "border"; tok PUNCT "=";
            mkToken NUMBER "1" (Some "px"); tok IDENT "solid"; tok HEX "0xf00";
            tok PUNCT "}"]
           5 [] 3).
Proof.
  apply (words_are_spaced [tok IDENT "border"; tok PUNCT "="]
           [tok IDENT "solid"; tok HEX "0xf00"] []
           (mkToken NUMBER "1" (Some "px")) (tok PUNCT "}") [] 0 4);
    try reflexivity.
  simpl; lia.
Defined.

(** ** Values with a parenthesised part *)

Lemma shouldStopValue_at (depth : Depth) (pre l : list token) (k : nat)
    (errs : list string) (st : nat) :
  shouldStopValue depth (at_ pre l k errs st)
  = match nth_error l k with
    | None => true
    | Some tk =>
        if (paren depth =? 0) && (brack depth =? 0) && (brace depth =? 0) then
          if String.eqb (v tk) "," || String.eqb (v tk) "}"
             || String.eqb (v tk) "end" then true
          else if TOKEN_eqb (t tk) IDENT
                  && same (option_map v (nth_error l (k + 1))) "="
          then true
          else false
        else false
    end.
Proof.
  unfold shouldStopValue, peekV; rewrite !peek_at, Nat.add_0_r; reflexivity.
Qed.

Lemma parseValue_loop_step (f : nat) (depth : Depth) (val : string)
    (prev : option token) (pre l : list token) (k : nat)
    (errs : list string) (st : nat) (n : token) :
  nth_error l k = Some n ->
  shouldStopValue depth (at_ pre l k errs st) = false ->
  parseValue_loop (S f) depth val prev (at_ pre l k errs st)
  = parseValue_loop f (bump (v n) depth)
      (appendPiece val prev n (nth_error l (k + 1))) (Some n)
      (at_ pre l (S k) errs (S st)).
Proof.
  intros N Stop; cbn [parseValue_loop]; rewrite Stop, eof_at.
  replace (List.length l <=? k) with false
    by (symmetry; apply Nat.leb_gt, nth_error_Some; congruence).
  cbn [orb].
  change (tick (at_ pre l k errs st)) with (at_ pre l k errs (S st)).
  rewrite !peek_at, Nat.add_0_r, N, eat_at, N; reflexivity.
Qed.

Lemma nth_error_mid {A : Type} (hd inner rest : list A) (i : nat) :
  nth_error (hd ++ inner ++ rest) (List.length hd + List.length inner + i)
  = nth_error rest i.
Proof.
  rewrite nth_error_app2 by lia.
  rewrite nth_error_app2 by lia.
  f_equal; lia.
Qed.

Lemma parseValue_loop_run (inner : list token) :
  forall fuel depth val prev pre hd tl rest errs st,
    (paren depth =? 0) && (brack depth =? 0) && (brace depth =? 0) = false ->
    Forall (fun n => bump (v n) depth = depth) inner ->
    parseValue_loop (List.length inner + fuel) depth val prev
      (at_ pre (hd ++ inner ++ tl :: rest) (List.length hd) errs st)
    = parseValue_loop fuel depth (valueText val prev inner (Some tl))
        (lastOr prev inner)
        (at_ pre (hd ++ inner ++ tl :: rest)
           (List.length hd + List.length inner) errs
           (st + List.length inner)).
Proof.
  induction inner as [|a inner IH];
    intros fuel depth val prev pre hd tl rest errs st D B.
  - cbn [List.length Nat.add valueText lastOr fold_left].
    rewrite !Nat.add_0_r; reflexivity.
  - inversion B as [|a' l' Ba B']; subst.
    cbn [List.length Nat.add].
    change ((a :: inner) ++ tl :: rest) with (a :: inner ++ tl :: rest).
    rewrite (parseValue_loop_step _ depth val prev pre _ _ errs st a).
    + rewrite Ba.
      specialize (IH fuel depth
                    (appendPiece val prev a
                       (nth_error (hd ++ a :: inner ++ tl :: rest)
                          (List.length hd + 1)))
                    (Some a) pre (hd ++ [a]) tl rest errs (S st) D B').
      rewrite <- app_assoc in IH; cbn [app] in IH.
      rewrite length_app in IH; cbn [List.length] in IH.
      replace (List.length hd + 1) with (S (List.length hd)) in * by lia.
      rewrite IH; cbn [valueText lastOr fold_left].
      replace (nth_error (hd ++ a :: inner ++ tl :: rest) (S (List.length hd)))
        with (match inner with [] => Some tl | x :: _ => Some x end).
      2:{ change (a :: inner ++ tl :: rest)
            with ([a] ++ (inner ++ tl :: rest)).
          rewrite app_assoc, nth_error_app2
            by (rewrite length_app; cbn [List.length]; lia).
          rewrite length_app; cbn [List.length].
          replace (S (List.length hd) - (List.length hd + 1)) with 0 by lia.
          destruct inner; reflexivity. }
      do 2 f_equal; lia.
    + rewrite nth_error_app2 by lia.
      rewrite Nat.sub_diag; reflexivity.
    + rewrite shouldStopValue_at.
      rewrite nth_error_app2 by lia.
      rewrite Nat.sub_diag; cbn [nth_error]; rewrite D; reflexivity.
Qed.

Lemma piece_plain (tk : token) : wordLike tk = false -> piece tk = v tk.
Proof.
  unfold piece, tokenToValuePiece, wordLike.
  destruct (t tk); try discriminate; reflexivity.
Qed.

Lemma appendPiece_punct (val : string) (prev : option token) (n : token)
    (next : option token) :
  wordLike n = false ->
  String.eqb (v n) "+" = false -> String.eqb (v n) "-" = false ->
  appendPiece val prev n next = val +++ v n.
Proof.
  intros W Pl Mi; unfold appendPiece; fold (piece n).
  rewrite (piece_plain n W), Pl, Mi, W; cbn [orb andb].
  rewrite !andb_false_r; destruct prev; reflexivity.
Qed.

Lemma appendPiece_after_punct (val : string) (p n : token)
    (next : option token) :
  wordLike p = false -> String.eqb (v p) ")" = false ->
  plainWord n = true ->
  appendPiece val (Some p) n next = val +++ piece n.
Proof.
  intros Wp Cp H; destruct (plainWord_facts n H) as [W [_ [Pl Mi]]].
  unfold appendPiece; fold (piece n) (piece p).
  rewrite (piece_plain p Wp), Pl, Mi, W, Wp, Cp; reflexivity.
Qed.

Lemma valueText_sepBy (comma : token) (words : list token) :
  wordLike comma = false -> v comma = "," ->
  forallb plainWord words = true ->
  forall val p after,
    wordLike p = false -> String.eqb (v p) ")" = false ->
    valueText val (Some p) (sepBy comma words) after
    = val +++ join "," (map piece words).
Proof.
  intros Wc Vc F.
  induction words as [|w words IH]; intros val p after Wp Cp.
  - cbn [sepBy valueText map join]; clear; induction val as [|c s IH];
      [reflexivity|cbn [append]; rewrite <- IH; reflexivity].
  - cbn [forallb] in F; apply andb_true_iff in F as [Fw F].
    destruct words as [|w' words].
    + cbn [sepBy valueText map join].
      apply appendPiece_after_punct; assumption.
    + change (sepBy comma (w :: w' :: words))
        with (w :: comma :: sepBy comma (w' :: words)).
      cbn [valueText].
      rewrite (appendPiece_after_punct val p w _ Wp Cp Fw).
      rewrite (appendPiece_punct _ (Some w) comma _ Wc)
        by (rewrite Vc; reflexivity).
      rewrite (IH F _ comma after Wc) by (rewrite Vc; reflexivity).
      rewrite Vc; change (map piece (w :: w' :: words))
        with (piece w :: map piece (w' :: words)).
      cbn [join map]; rewrite !append_assoc; reflexivity.
Qed.

Lemma sepBy_inner (comma : token) (words : list token) :
  wordLike comma = false -> v comma = "," ->
  forallb plainWord words = true ->
  Forall (fun n => bump (v n) (mkDepth 1 0 0) = mkDepth 1 0 0)
    (sepBy comma words).
Proof.
  intros Wc Vc F.
  assert (W : forall w, plainWord w = true ->
               bump (v w) (mkDepth 1 0 0) = mkDepth 1 0 0).
  { intros w H; destruct (plainWord_facts w H) as [_ [S _]].
    unfold special in S.
    repeat match goal with
           | K : Forall _ (_ :: _) |- _ => inversion K; subst; clear K
           end.
    unfold bump.
    repeat match goal with
           | E : String.eqb (v w) ?s = false |- _ => rewrite E; clear E
           end.
    reflexivity. }
  induction words as [|w words IH]; [constructor|].
  cbn [forallb] in F; apply andb_true_iff in F as [Fw F].
  destruct words as [|w' words]; [repeat constructor; exact (W w Fw)|].
  change (sepBy comma (w :: w' :: words))
    with (w :: comma :: sepBy comma (w' :: words)).
  constructor; [exact (W w Fw)|].
  constructor; [rewrite Vc; reflexivity|exact (IH F)].
Qed.

Lemma lastOr_punct (comma p : token) (words : list token) :
  wordLike comma = false -> forallb plainWord words = true ->
  exists q, lastOr (Some p) (sepBy comma words) = Some q.
Proof.
  intros _ _; unfold lastOr.
  generalize (sepBy comma words) as l; intros l; revert p.
  induction l as [|a l IH]; intros p; [exists p; reflexivity|].
  cbn [fold_left]; apply IH.
Qed.

(** X20.  Inside parentheses a comma does not end a value: on a name, an
    opening parenthesis, words with commas between them, a closing
    parenthesis and then a comma, a closing brace or [end], the value
    parser returns the name and, between the parentheses, the words
    joined by commas with no space; it stands on the token that ends the
    value. *)
Theorem call_value
    (pre post words : list token) (name lp comma rp stop : token)
    (errs : list string) (st fuel : nat) :
  plainWord name = true ->
  wordLike lp = false -> v lp = "(" ->
  wordLike comma = false -> v comma = "," ->
  wordLike rp = false -> v rp = ")" ->
  forallb plainWord words = true -> stopper stop = true ->
  List.length (sepBy comma words) + 3 < fuel ->
  parseValue fuel
    (mkParser
       (pre ++ [name; lp] ++ sepBy comma words ++ rp :: stop :: post)
       (List.length pre) errs st)
  = Ret (trim (piece name +++ "(" +++ join "," (map piece words) +++ ")"),
         mkParser
           (pre ++ [name; lp] ++ sepBy comma words ++ rp :: stop :: post)
           (List.length pre + (3 + List.length (sepBy comma words))) errs
           (st + (3 + List.length (sepBy comma words)))).
Proof.
  intros Fn Wl Vl Wc Vc Wr Vr F St L.
  destruct (plainWord_facts name Fn) as [Wn [Sp _]].
  rewrite Forall_forall in Sp.
  set (inner := sepBy comma words) in *.
  set (toks := [name; lp] ++ inner ++ rp :: stop :: post).
  change (mkParser (pre ++ toks) (List.length pre) errs st)
    with (at_ pre toks 0 errs st).
  assert (N0 : nth_error toks 0 = Some name) by reflexivity.
  assert (N1 : nth_error toks 1 = Some lp) by reflexivity.
  assert (Nr : nth_error toks (2 + List.length inner) = Some rp).
  { unfold toks.
    replace (2 + List.length inner)
      with (List.length [name; lp] + List.length inner + 0)
      by (cbn [List.length]; lia).
    rewrite nth_error_mid; reflexivity. }
  assert (Ns : nth_error toks (3 + List.length inner) = Some stop).
  { unfold toks.
    replace (3 + List.length inner)
      with (List.length [name; lp] + List.length inner + 1)
      by (cbn [List.length]; lia).
    rewrite nth_error_mid; reflexivity. }
  assert (Tl : TOKEN_eqb (t lp) IDENT = false)
    by (unfold wordLike in Wl; destruct (t lp); try discriminate; reflexivity).
  unfold parseValue, peekV.
  rewrite !peek_at; cbn [Nat.add]; rewrite N0, N1.
  cbn [option_map same]; rewrite Vl.
  cbn [String.eqb Ascii.eqb Bool.eqb orb].
  rewrite (Sp "end" ltac:(unfold special; cbn; tauto)),
    (Sp "function" ltac:(unfold special; cbn; tauto)).
  rewrite !andb_false_r; cbn [orb].
  destruct fuel as [|[|f]]; [lia|lia|].
  (* the name *)
  rewrite (parseValue_loop_step _ _ _ _ pre toks 0 errs st name N0).
  2:{ rewrite shouldStopValue_at, N0; cbn [paren brack brace Nat.eqb andb].
      rewrite (Sp "," ltac:(unfold special; cbn; tauto)),
        (Sp "}" ltac:(unfold special; cbn; tauto)),
        (Sp "end" ltac:(unfold special; cbn; tauto)).
      cbn [orb Nat.add]; rewrite N1; cbn [option_map same]; rewrite Vl.
      rewrite andb_false_r; reflexivity. }
  rewrite (bump_word name Fn).
  rewrite (appendPiece_word "" None name _ Fn ltac:(discriminate)).
  cbn [append Nat.add].
  (* the opening parenthesis *)
  rewrite (parseValue_loop_step _ _ _ _ pre toks 1 errs (S st) lp N1).
  2:{ rewrite shouldStopValue_at, N1; cbn [paren brack brace Nat.eqb andb].
      rewrite Vl, Tl; reflexivity. }
  rewrite (appendPiece_punct _ _ lp _ Wl) by (rewrite Vl; reflexivity).
  rewrite Vl; cbn [bump String.eqb Ascii.eqb Bool.eqb paren brack brace].
  (* the arguments *)
  replace f with (List.length inner + (f - List.length inner)) by lia.
  pose proof (parseValue_loop_run inner (f - List.length inner)
                (mkDepth 1 0 0) (piece name +++ "(") (Some lp) pre
                [name; lp] rp (stop :: post) errs (S (S st)) eq_refl
                (sepBy_inner comma words Wc Vc F)) as Run.
  cbn [List.length] in Run; fold toks in Run.
  unfold at_ in Run |- *; cbn [List.length Nat.add] in Run |- *.
  rewrite Run; clear Run.
  unfold inner at 1.
  rewrite (valueText_sepBy comma words Wc Vc F _ lp (Some rp) Wl)
    by (rewrite Vl; reflexivity).
  fold inner.
  destruct (lastOr_punct comma lp words Wc F) as [q Q].
  fold inner in Q; rewrite Q.
  (* the closing parenthesis, and the end of the value *)
  destruct (f - List.length inner) as [|[|g]] eqn:G; [lia|lia|].
  match goal with
  | |- context [parseValue_loop _ _ _ _ ?Q] =>
      change Q
        with (at_ pre toks (2 + List.length inner) errs
                (S (S st) + List.length inner))
  end.
  rewrite (parseValue_loop_step _ _ _ _ pre toks _ errs _ rp Nr).
  2:{ rewrite shouldStopValue_at, Nr; reflexivity. }
  rewrite (appendPiece_punct _ _ rp _ Wr) by (rewrite Vr; reflexivity).
  rewrite Vr; cbn [bump String.eqb Ascii.eqb Bool.eqb paren brack brace
                     Nat.sub Nat.max].
  cbn [parseValue_loop].
  rewrite shouldStopValue_at.
  replace (S (2 + List.length inner)) with (3 + List.length inner) by lia.
  rewrite Ns; cbn [paren brack brace Nat.eqb andb].
  unfold stopper in St; cbn [existsb] in St; rewrite orb_false_r in St.
  rewrite <- orb_assoc, St, orb_true_r; cbn [bind].
  rewrite !append_assoc.
  unfold at_; do 3 f_equal; lia.
Qed.

Lemma call_value_witness :
  parseValue 10
    (mkParser
       [tok IDENT "translate"; tok PUNCT "(";
        mkToken NUMBER "10" (Some "px"); tok PUNCT ",";
        mkToken NUMBER "20" (Some "px"); tok PUNCT ")"; tok PUNCT "}"]
       0 [] 0)
  = Ret ("translate(10px,20px)",
         mkParser
           [tok IDENT "translate"; tok PUNCT "(";
            mkToken NUMBER "10" (Some "px"); tok PUNCT ",";
            mkToken NUMBER "20" (Some "px"); tok PUNCT ")"; tok PUNCT "}"]
           6 [] 6).
Proof.
  apply (call_value [] []
           [mkToken NUMBER "10" (Some "px"); mkToken NUMBER "20" (Some "px")]
           (tok IDENT "translate") (tok PUNCT "(") (tok PUNCT ",")
           (tok PUNCT ")") (tok PUNCT "}") [] 0 10);
    try reflexivity.
  simpl; lia.
Defined.

(** ** A block of declarations, end to end *)

Lemma parseValue_words_skip
    (pre toks l post : list token) (k : nat) (w stop : token)
    (errs : list string) (st fuel : nat) :
  skipn k toks = (w :: l) ++ stop :: post ->
  forallb plainWord (w :: l) = true -> stopper stop = true ->
  S (List.length l) < fuel ->
  parseValue fuel (at_ pre toks k errs st)
  = Ret (trim (join " " (map piece (w :: l))),
         at_ pre toks (k + S (List.length l)) errs (st + S (List.length l))).
Proof.
  intros E F St L.
  assert (K : k <= List.length toks).
  { destruct (Nat.le_gt_cases k (List.length toks)) as [H|H]; [exact H|].
    rewrite skipn_all2 in E by lia; discriminate. }
  pose proof (firstn_skipn k toks) as Split; rewrite E in Split.
  pose proof (firstn_length_le toks K) as Len.
  remember (firstn k toks) as hd eqn:Hd; clear Hd.
  subst toks k.
  exact (parseValue_words pre hd l post w stop errs st fuel F St L).
Qed.

Lemma skipn_nth {A : Type} (k i : nat) (l r : list A) (x : A) :
  skipn k l = r -> nth_error r i = Some x -> nth_error l (k + i) = Some x.
Proof. intros <-; rewrite nth_error_skipn; tauto. Qed.

Lemma skipn_more {A : Type} (k n : nat) (l a b : list A) :
  skipn k l = a ++ b -> List.length a = n -> skipn (k + n) l = b.
Proof.
  intros E <-; rewrite Nat.add_comm, <- skipn_skipn, E.
  rewrite skipn_app, Nat.sub_diag, skipn_all; reflexivity.
Qed.

Lemma eatComma_at (pre toks : list token) (k : nat) (errs : list string)
    (st : nat) :
  eatComma (at_ pre toks k errs st)
  = if same (option_map v (nth_error toks k)) ","
    then at_ pre toks (S k) errs st
    else at_ pre toks k errs st.
Proof.
  unfold eatComma, peekV; rewrite peek_at, Nat.add_0_r, eat_at; reflexivity.
Qed.

(** One turn of the loop of [parseBlock] on a declaration. *)
Lemma parseBlock_loop_decl
    (pre toks l rest : list token) (k : nat) (key eq w stop : token)
    (sel : string) (ps : list Decl) (cs : list RuleNode)
    (errs : list string) (st f : nat) :
  skipn k toks = key :: eq :: (w :: l) ++ stop :: rest ->
  plainDecl (key, w :: l) = true -> v eq = "=" -> stopper stop = true ->
  S (List.length l) < f ->
  parseBlock_loop (S f) sel ps cs (at_ pre toks k errs st)
  = parseBlock_loop f sel (ps ++ [declOf (key, w :: l)]) cs
      (eatComma
         (at_ pre toks (k + (3 + List.length l)) errs
            (st + (2 + List.length l)))).
Proof.
  intros E D Ve St L.
  unfold plainDecl in D; cbn [fst snd] in D.
  apply andb_true_iff in D as [D Nv]; apply negb_true_iff in Nv.
  apply andb_true_iff in D as [D F].
  apply andb_true_iff in D as [Kt _].
  unfold keyToken in Kt.
  apply andb_true_iff in Kt as [Kt Ke]; apply negb_true_iff in Ke.
  apply andb_true_iff in Kt as [Kt Kb]; apply negb_true_iff in Kb.
  apply andb_true_iff in Kt as [Ki Ko]; apply negb_true_iff in Ko.
  pose proof F as F'; cbn [forallb] in F'.
  apply andb_true_iff in F' as [Fw _].
  destruct (plainWord_facts w Fw) as [_ [Sp _]].
  rewrite Forall_forall in Sp.
  assert (N0 : nth_error toks k = Some key).
  { rewrite <- (Nat.add_0_r k); exact (skipn_nth k 0 _ _ _ E eq_refl). }
  assert (N1 : nth_error toks (S k) = Some eq).
  { replace (S k) with (k + 1) by lia; exact (skipn_nth k 1 _ _ _ E eq_refl). }
  assert (N2 : nth_error toks (S (S k)) = Some w).
  { replace (S (S k)) with (k + 2) by lia.
    exact (skipn_nth k 2 _ _ _ E eq_refl). }
  assert (E2 : skipn (S (S k)) toks = (w :: l) ++ stop :: rest).
  { replace (S (S k)) with (k + 2) by lia.
    exact (skipn_more k 2 toks [key; eq] _ E eq_refl). }
  cbn [parseBlock_loop]; unfold peekV.
  rewrite eof_at, peek_at, Nat.add_0_r, N0.
  replace (List.length toks <=? k) with false
    by (symmetry; apply Nat.leb_gt, nth_error_Some; congruence).
  cbn [option_map same orb]; rewrite Kb.
  change (tick (at_ pre toks k errs st)) with (at_ pre toks k errs (S st)).
  rewrite peek_at, Nat.add_0_r, N0, Ko, Ki; cbn [negb].
  rewrite eat_at, N0.
  rewrite peek_at, Nat.add_0_r, N1; cbn [option_map same].
  rewrite Ve; cbn [String.eqb Ascii.eqb Bool.eqb negb].
  rewrite eat_at; cbn [snd].
  rewrite peek_at, Nat.add_0_r, N2; cbn [option_map same].
  rewrite (Sp "function" ltac:(unfold special; cbn; tauto)),
    (Sp "{" ltac:(unfold special; cbn; tauto)), andb_false_r.
  rewrite (parseValue_words_skip pre toks l rest (S (S k)) w stop errs
             (S st) f E2 F St L).
  cbn [bind]; unfold pushDecl.
  unfold declOf in Nv |- *; cbn [fst snd value] in Nv |- *; rewrite Nv.
  do 2 f_equal; f_equal; lia.
Qed.

Lemma parseBlock_loop_decls (eq comma rb : token)
    (ds : list (token * list token)) :
  v eq = "=" -> v comma = "," -> v rb = "}" ->
  forall fuel sel ps pre toks k post errs st,
    skipn k toks = declTokens eq comma ds ++ rb :: post ->
    forallb plainDecl ds = true ->
    List.length (declTokens eq comma ds) < fuel ->
    exists st',
      parseBlock_loop fuel sel ps [] (at_ pre toks k errs st)
      = Ret ((ps ++ map declOf ds, []),
             at_ pre toks (k + List.length (declTokens eq comma ds))
               errs st').
Proof.
  intros Ve Vc Vr.
  induction ds as [|[key ws] ds IH];
    intros fuel sel ps pre toks k post errs st E F L.
  - cbn [declTokens app List.length map] in *.
    destruct fuel as [|f]; [lia|].
    assert (N0 : nth_error toks k = Some rb).
    { rewrite <- (Nat.add_0_r k); exact (skipn_nth k 0 _ _ _ E eq_refl). }
    exists st; cbn [parseBlock_loop]; unfold peekV.
    rewrite peek_at, Nat.add_0_r, N0; cbn [option_map same].
    rewrite Vr, orb_true_r, app_nil_r; reflexivity.
  - cbn [forallb] in F; apply andb_true_iff in F as [Fd F].
    pose proof Fd as Fd'; unfold plainDecl in Fd'; cbn [fst snd] in Fd'.
    apply andb_true_iff in Fd' as [Fd' _].
    apply andb_true_iff in Fd' as [Fd' _].
    apply andb_true_iff in Fd' as [_ Ne].
    destruct ws as [|w l]; [discriminate|].
    destruct fuel as [|f]; [lia|].
    destruct ds as [|d ds].
    + cbn [declTokens fst snd] in E, L |- *.
      cbn [List.length] in L.
      change ((key :: eq :: w :: l) ++ rb :: post)
        with (key :: eq :: (w :: l) ++ rb :: post) in E.
      rewrite (parseBlock_loop_decl pre toks l post k key eq w rb sel ps []
                 errs st f E Fd Ve)
        by (try (unfold stopper; rewrite Vr; reflexivity); lia).
      assert (Nr : nth_error toks (k + (3 + List.length l)) = Some rb).
      { apply (skipn_nth k _ _ _ _ E).
        change (key :: eq :: (w :: l) ++ rb :: post)
          with ([key; eq] ++ (w :: l) ++ rb :: post).
        replace (3 + List.length l)
          with (List.length [key; eq] + List.length (w :: l) + 0)
          by (cbn [List.length]; lia).
        rewrite nth_error_mid; reflexivity. }
      rewrite eatComma_at, Nr; cbn [option_map same]; rewrite Vr.
      cbn [String.eqb Ascii.eqb Bool.eqb].
      destruct (IH f sel (ps ++ [declOf (key, w :: l)]) pre toks
                  (k + (3 + List.length l)) post errs
                  (st + (2 + List.length l))) as [st' R].
      * cbn [declTokens app].
        apply (skipn_more k _ toks (key :: eq :: w :: l) _ E).
        cbn [List.length]; lia.
      * reflexivity.
      * cbn [declTokens List.length]; lia.
      * exists st'; rewrite R.
        cbn [declTokens List.length map]; rewrite Nat.add_0_r.
        rewrite <- app_assoc; cbn [app List.length].
        do 3 f_equal; lia.
    + change (declTokens eq comma ((key, w :: l) :: d :: ds))
        with (key :: eq :: (w :: l) ++ comma :: declTokens eq comma (d :: ds))
        in E, L |- *.
      cbn [app] in E; rewrite <- app_assoc in E; cbn [app] in E.
      change (key :: eq :: w :: l
                ++ comma :: declTokens eq comma (d :: ds) ++ rb :: post)
        with (key :: eq :: (w :: l)
                ++ comma :: (declTokens eq comma (d :: ds) ++ rb :: post))
        in E.
      cbn [List.length] in L; rewrite length_app in L; cbn [List.length] in L.
      rewrite (parseBlock_loop_decl pre toks l _ k key eq w comma sel ps []
                 errs st f E Fd Ve)
        by (try (unfold stopper; rewrite Vc; reflexivity); lia).
      assert (Nc : nth_error toks (k + (3 + List.length l)) = Some comma).
      { apply (skipn_nth k _ _ _ _ E).
        change (key :: eq :: (w :: l)
                  ++ comma :: (declTokens eq comma (d :: ds) ++ rb :: post))
          with ([key; eq] ++ (w :: l)
                  ++ comma :: (declTokens eq comma (d :: ds) ++ rb :: post)).
        replace (3 + List.length l)
          with (List.length [key; eq] + List.length (w :: l) + 0)
          by (cbn [List.length]; lia).
        rewrite nth_error_mid; reflexivity. }
      rewrite eatComma_at, Nc; cbn [option_map same]; rewrite Vc.
      cbn [String.eqb Ascii.eqb Bool.eqb].
      destruct (IH f sel (ps ++ [declOf (key, w :: l)]) pre toks
                  (S (k + (3 + List.length l))) post errs
                  (st + (2 + List.length l))) as [st' R].
      * replace (S (k + (3 + List.length l)))
          with (k + List.length (key :: eq :: (w :: l) ++ [comma]))
          by (cbn [List.length]; rewrite length_app; cbn [List.length]; lia).
        apply (skipn_more k _ toks (key :: eq :: (w :: l) ++ [comma]) _);
          [|reflexivity].
        rewrite E; cbn [app]; rewrite <- app_assoc; reflexivity.
      * exact F.
      * lia.
      * exists st'; rewrite R.
        cbn [map List.length]; rewrite length_app; cbn [List.length].
        rewrite <- app_assoc; cbn [app].
        do 3 f_equal; lia.
Qed.

Lemma parse_loop_eof (f : nat) (rules : list Rule) (P : Parser) :
  eof P = true -> parse_loop (S f) rules P = Ret (rules, P).
Proof. intros E; cbn [parse_loop]; rewrite E; reflexivity. Qed.

(** X21.  A top-level rule whose block holds declarations only, each a
    key, an equals sign and one word or more, with commas between the
    declarations, compiles without diagnostics to one rule: the selector
    as written, and the declarations in order, each key hyphenated and
    each value its words joined by spaces. *)
Theorem flat_rule_compiles
    (src : string) (toks : list token) (sel eq lb rb comma : token)
    (ds : list (token * list token)) :
  tokenize src = Some toks ->
  tokens (newParser toks)
  = sel :: eq :: lb :: declTokens eq comma ds ++ [rb] ->
  TOKEN_eqb (t sel) IDENT = true ->
  v eq = "=" -> v lb = "{" -> v rb = "}" -> v comma = "," ->
  ds <> [] -> forallb plainDecl ds = true ->
  compileLuaCSS src
  = Ret (mkCompiled
           (Some (emitRule (mkRule (v sel) (map declOf ds)))) []).
Proof.
  intros Ht Hl Ts Ve Vl Vr Vc Ne F.
  unfold compileLuaCSS, parse; rewrite Ht.
  set (body := declTokens eq comma ds) in *.
  set (l := sel :: eq :: lb :: body ++ [rb]) in *.
  assert (P0 : newParser toks = at_ [] l 0 [] 0).
  { unfold newParser in *; cbn [tokens] in Hl; rewrite Hl; reflexivity. }
  rewrite P0.
  assert (Len : List.length l = 4 + List.length body).
  { unfold l; cbn [List.length]; rewrite length_app; cbn [List.length]; lia. }
  unfold fuelFor; cbn [tokens at_ app]; rewrite Len.
  replace (2 * (4 + List.length body) + 4)
    with (S (S (S (9 + 2 * List.length body)))) by lia.
  remember (9 + 2 * List.length body) as f eqn:Hf.
  destruct (parseBlock_loop_decls eq comma rb ds Ve Vc Vr (S f) (v sel) []
              [] l 3 [] [] 1 eq_refl F ltac:(fold body; lia))
    as [st' Loop].
  fold body in Loop; cbn [app] in Loop.
  change (mkParser l 0 [] 0) with (at_ [] l 0 [] 0).
  remember (S (S f)) as g eqn:Hg.
  cbn [parse_loop].
  rewrite eof_at, Len; cbn [Nat.leb Nat.add].
  change (tick (at_ [] l 0 [] 0)) with (at_ [] l 0 [] 1).
  rewrite peek_at; cbn [Nat.add nth_error l]; rewrite Ts.
  rewrite eat_at; cbn [nth_error l]; unfold peekV.
  rewrite peek_at; cbn [Nat.add nth_error l option_map same].
  rewrite Ve; cbn [String.eqb Ascii.eqb Bool.eqb negb].
  rewrite eat_at; cbn [snd].
  rewrite peek_at; cbn [Nat.add nth_error l option_map same].
  rewrite Vl; cbn [String.eqb Ascii.eqb Bool.eqb negb].
  rewrite Hg; cbn [parseBlock].
  rewrite (expect_at "{" [] l 2 [] 1 lb eq_refl Vl).
  rewrite Loop; cbn [bind].
  rewrite (expect_at "}" [] l (3 + List.length body) [] st' rb).
  - cbn [bind fst snd collectChildren].
    rewrite parse_loop_eof
      by (rewrite eof_at, Len; apply Nat.leb_le; lia).
    cbn [bind at_ errors nonEmpty andb].
    unfold pushRule.
    destruct ds as [|d ds']; [contradiction|].
    reflexivity.
  - unfold l.
    change (sel :: eq :: lb :: body ++ [rb]) with ([sel; eq; lb] ++ body ++ [rb]).
    replace (3 + List.length body)
      with (List.length [sel; eq; lb] + List.length body + 0)
      by (cbn [List.length]; lia).
    rewrite nth_error_mid; reflexivity.
  - exact Vr.
Qed.

Lemma flat_rule_compiles_witness :
  compileLuaCSS "card = { border_width = 1px solid, color = red }"
  = Ret (mkCompiled
           (Some ("card {" +++ String "010" "" +++ "  border-width: 1px solid;"
                    +++ String "010" "" +++ "  color: red;"
                    +++ String "010" "" +++ "}"))
           []).
Proof.
  rewrite (flat_rule_compiles
           "card = { border_width = 1px solid, color = red }"
           [tok IDENT "card"; tok WS " "; tok PUNCT "="; tok WS " ";
            tok PUNCT "{"; tok WS " "; tok IDENT "border_width"; tok WS " ";
            tok PUNCT "="; tok WS " "; mkToken NUMBER "1" (Some "px");
            tok WS " "; tok IDENT "solid"; tok PUNCT ","; tok WS " ";
            tok IDENT "color"; tok WS " "; tok PUNCT "="; tok WS " ";
            tok IDENT "red"; tok WS " "; tok PUNCT "}"]
           (tok IDENT "card") (tok PUNCT "=") (tok PUNCT "{") (tok PUNCT "}")
           (tok PUNCT ",")
           [(tok IDENT "border_width",
             [mkToken NUMBER "1" (Some "px"); tok IDENT "solid"]);
            (tok IDENT "color", [tok IDENT "red"])]);
    try (vm_compute; reflexivity).
  discriminate.
Defined.

(** ** A nested block, end to end *)





(** ** A pseudo-class block, end to end *)






